(** * Calva Clojure lexer: the scanner, its rule tables and [validPair]

    A shallow embedding of the Clojure lexer of Calva (the two lexical
    grammars [toplevel] and [inString], the bracket check [validPair] and
    [Scanner.processLine]) together with the properties its specification
    states about it.  The copy of [validPair] and the conversion of
    positions in the debugger's file, and the REPL connect sequences, come
    after the lexer.

    JavaScript strings are sequences of UTF-16 code units; the regular
    expressions of the lexer carry no [u] flag, so they work on code units
    as well.  A string is therefore a [list N]. *)

From Stdlib Require Import NArith ZArith Ascii String.
From stdpp Require Import base list strings gmap.

Open Scope N_scope.
Open Scope nat_scope.
Open Scope list_scope.

(** ** Text *)

Abbreviation char := N (only parsing).
Abbreviation str := (list N) (only parsing).

(** The code units of an ASCII literal. *)
Definition lit (s : string) : str :=
  List.map N_of_ascii (list_ascii_of_string s).

Definition DQUOTE : char := 34%N.
Definition BACKSLASH : char := 92%N.
Definition HASH : char := 35%N.
Definition NEWLINE : char := 10%N.
Definition CR : char := 13%N.
Definition LS : char := 8232%N.  (* U+2028 LINE SEPARATOR *)
Definition PS : char := 8233%N.  (* U+2029 PARAGRAPH SEPARATOR *)

(** [s.substring(p, p + n)] *)
Definition substring (s : str) (p n : nat) : str := take n (drop p s).

(** ** Regular expressions with the semantics of JavaScript's backtracking
    matcher *)

(** An entry of a character class [[...]]. *)
Inductive cls_item :=
| One (c : char)            (* a single character *)
| Rng (lo hi : char)        (* a range [lo-hi] *)
| Space.                    (* the escape \s *)

(** JavaScript's [\s]: WhiteSpace and LineTerminator. *)
Definition is_space (c : char) : bool :=
  ((9 <=? c) && (c <=? 13) || (c =? 32) || (c =? 160) || (c =? 5760)
   || (8192 <=? c) && (c <=? 8202) || (c =? 8232) || (c =? 8233)
   || (c =? 8239) || (c =? 8287) || (c =? 12288) || (c =? 65279))%N.

(** JavaScript's LineTerminator, which [.] refuses. *)
Definition is_line_terminator (c : char) : bool :=
  ((c =? 10) || (c =? 13) || (c =? 8232) || (c =? 8233))%N.

Definition item_has (c : char) (i : cls_item) : bool :=
  match i with
  | One d => (c =? d)%N
  | Rng lo hi => ((lo <=? c) && (c <=? hi))%N
  | Space => is_space c
  end.

Inductive regex :=
| Chr (c : char)                          (* a literal character *)
| Cls (neg : bool) (items : list cls_item) (* [...] and [^...] *)
| Dot                                     (* . *)
| Bol                                     (* ^ (no m flag) *)
| Eol                                     (* $ (no m flag) *)
| Seq (r1 r2 : regex)
| Alt (r1 r2 : regex)
| Star (r : regex)
| Plus (r : regex)
| Opt (r : regex)
| LookBehind (r : regex).                 (* (?<=r) *)

(** The iterations of a greedy [r*] from position [p]: one more iteration
    first, none last.  An iteration that consumes nothing is rejected, as
    in JavaScript.  [m] gives the matches of [r]; the fuel is the number of
    code units left, each iteration consuming at least one. *)
Fixpoint star_loop (m : nat -> list nat) (fuel p : nat) : list nat :=
  flat_map (fun n =>
              match fuel with
              | 0 => []
              | S f => if 0 <? n then List.map (Nat.add n) (star_loop m f (p + n))
                       else []
              end) (m p) ++ [0].

(** Whether some match of [m] ends exactly at [p]. *)
Definition look_behind (m : nat -> list nat) (p : nat) : bool :=
  existsb (fun k => existsb (Nat.eqb k) (m (p - k))) (seq 0 (S p)).

(** [matches r s p]: the lengths of all matches of [r] in [s] anchored at
    position [p], in the order in which a backtracking matcher finds them
    (greedy quantifiers, left alternative first). *)
Fixpoint matches (r : regex) (s : str) (p : nat) {struct r} : list nat :=
  match r with
  | Chr c =>
      match s !! p with
      | Some d => if (d =? c)%N then [1] else []
      | None => []
      end
  | Cls neg items =>
      match s !! p with
      | Some d => if xorb neg (existsb (item_has d) items) then [1] else []
      | None => []
      end
  | Dot =>
      match s !! p with
      | Some d => if is_line_terminator d then [] else [1]
      | None => []
      end
  | Bol => if p =? 0 then [0] else []
  | Eol => if length s <=? p then [0] else []
  | Seq r1 r2 =>
      flat_map (fun n => List.map (Nat.add n) (matches r2 s (p + n)))
               (matches r1 s p)
  | Alt r1 r2 => matches r1 s p ++ matches r2 s p
  | Star r1 => star_loop (matches r1 s) (length s - p) p
  | Plus r1 =>
      flat_map (fun n => List.map (Nat.add n)
                           (star_loop (matches r1 s) (length s - (p + n)) (p + n)))
               (matches r1 s p)
  | Opt r1 => matches r1 s p ++ [0]
  | LookBehind r1 => if look_behind (matches r1 s) p then [0] else []
  end.

(** The match the engine reports at [p]: the first one found. *)
Definition exec_at (r : regex) (s : str) (p : nat) : option nat :=
  head (matches r s p).

(** [s.match(r)] for a pattern without the g flag, as a truth value: the
    engine tries every start position from left to right. *)
Definition test (r : regex) (s : str) : bool :=
  existsb (fun p => bool_decide (is_Some (exec_at r s p))) (seq 0 (S (length s))).

(** The concatenation of patterns, and the pattern of a fixed text. *)
Fixpoint seqs (rs : list regex) : regex :=
  match rs with
  | [] => Opt Bol  (* the empty pattern; no table uses it *)
  | [r] => r
  | r :: rs' => Seq r (seqs rs')
  end.

Definition word (s : string) : regex := seqs (List.map Chr (lit s)).

Definition chars (s : string) : list cls_item := List.map One (lit s).

(** ** validPair *)

(** [open[open.length - 1]]: [undefined] on the empty string. *)
Definition last_char (s : str) : option char := last s.

(** The closing bracket is a string, compared as a whole by the switch. *)
Definition validPair (open close : str) : bool :=
  let openBracket := last_char open in
  if bool_decide (close = lit ")") then bool_decide (openBracket = Some 40%N)
  else if bool_decide (close = lit "]") then bool_decide (openBracket = Some 91%N)
  else if bool_decide (close = lit "}") then bool_decide (openBracket = Some 123%N)
  else if bool_decide (close = [DQUOTE]) then bool_decide (openBracket = Some DQUOTE)
  else false.

(** ** The two lexical grammars

    In the comments that quote the patterns of the source, the double
    quote is written \x22, and a blank separates a star from a closing
    parenthesis that follows it. *)

(** A rule of a lexical grammar: a pattern and the function that builds
    the token from the match; every such function of this lexer ignores
    its arguments and only names the token type. *)
Record Rule := { pattern : regex; classifier : str -> string }.

(** #[^\(\)\[\]\{\}\x22_@~\s,]+ *)
Definition reader_tag : regex :=
  Seq (Chr HASH)
      (Plus (Cls true (chars "()[]{}" ++ [One DQUOTE] ++ chars "_@~"
                         ++ [Space; One 44%N]))).

(** (#[^\(\)\[\]\{\}\x22_@~\s,]+[\s,]* )* *)
Definition reader_prefix : regex :=
  Star (Seq reader_tag (Star (Cls false [Space; One 44%N]))).

(** ([cs]\s* )*, the folded quoting prefix over the characters [cs]. *)
Definition quoting (cs : string) : regex :=
  Star (Seq (Cls false (chars cs)) (Star (Cls false [Space]))).

(** [0-9]+ *)
Definition digits : regex := Plus (Cls false [Rng 48%N 57%N]).

(** (['`~#]\s* )*(true|false|nil), the pattern of the literal words *)
Definition literal_words : regex :=
  Seq (quoting "'`~#") (Alt (word "true") (Alt (word "false") (word "nil"))).

Module Grammar.

(** The 'toplevel' lexical grammar, with all normal tokens. *)
Definition toplevel : list Rule :=
  [ (* whitespace, excluding newlines: /[\t ,]+/ *)
    {| pattern := Plus (Cls false [One 9%N; One 32%N; One 44%N]);
       classifier := fun _ => "ws" |};
    (* newlines: /(\r|\n|\r\n)/ *)
    {| pattern := Alt (Chr CR) (Alt (Chr NEWLINE) (Seq (Chr CR) (Chr NEWLINE)));
       classifier := fun _ => "ws" |};
    (* comments: /;.*/ *)
    {| pattern := Seq (Chr 59%N) (Star Dot);
       classifier := fun _ => "comment" |};
    (* open parens:
       /(#[^\(\)\[\]\{\}\x22_@~\s,]+[\s,]* )*((?<=(^|[\(\)\[\]\{\}\s,]))['`~#@?^]\s* )*['`~#@?^]*[\(\[\{\x22]/ *)
    {| pattern :=
         seqs [ reader_prefix;
                Star (seqs [ LookBehind
                               (Alt Bol (Cls false (chars "()[]{}"
                                                      ++ [Space; One 44%N])));
                             Cls false (chars "'`~#@?^");
                             Star (Cls false [Space]) ]);
                Star (Cls false (chars "'`~#@?^"));
                Cls false (chars "([{" ++ [One DQUOTE]) ];
       classifier := fun _ => "open" |};
    (* close parens: /\)|\]|\}/ *)
    {| pattern := Alt (Chr 41%N) (Alt (Chr 93%N) (Chr 125%N));
       classifier := fun _ => "close" |};
    (* ignores: /#_/ *)
    {| pattern := word "#_";
       classifier := fun _ => "ignore" |};
    (* literals: /(\\[^\(\)\[\]\{\}\s]+|\\[\(\)\[\]\{\}])/ *)
    {| pattern :=
         Alt (Seq (Chr BACKSLASH) (Plus (Cls true (chars "()[]{}" ++ [Space]))))
             (Seq (Chr BACKSLASH) (Cls false (chars "()[]{}")));
       classifier := fun _ => "lit" |};
    (* /(['`~#]\s* )*(true|false|nil)/ *)
    {| pattern := literal_words;
       classifier := fun _ => "lit" |};
    (* /(['`~#]\s* )*([0-9]+[rR][0-9a-zA-Z]+)/ *)
    {| pattern :=
         seqs [ quoting "'`~#"; digits; Cls false (chars "rR");
                Plus (Cls false [Rng 48%N 57%N; Rng 97%N 122%N; Rng 65%N 90%N]) ];
       classifier := fun _ => "lit" |};
    (* /(['`~#]\s* )*([-+]?[0-9]+(\.[0-9]+)?([eE][-+]?[0-9]+)?)/ *)
    {| pattern :=
         seqs [ quoting "'`~#"; Opt (Cls false (chars "-+")); digits;
                Opt (Seq (Chr 46%N) digits);
                Opt (seqs [ Cls false (chars "eE"); Opt (Cls false (chars "-+"));
                            digits ]) ];
       classifier := fun _ => "lit" |};
    (* /(#[^\(\)\[\]\{\}\x22_@~\s,]+[\s,]* )*(['`~^]\s* )*(:[^()[\]\{\},~@`^\\x22\s;]* )/ *)
    {| pattern :=
         seqs [ reader_prefix; quoting "'`~^"; Chr 58%N;
                Star (Cls true (chars "()[]{},~@`^"
                                  ++ [One DQUOTE; Space; One 59%N])) ];
       classifier := fun _ => "kw" |};
    (* data readers: /#[^\(\)\[\]\{\}\x22_@~\s,]+/ *)
    {| pattern := reader_tag;
       classifier := fun _ => "reader" |};
    (* symbols:
       /(['`~#^@]\s* )*([^_()[\]\{\}#,~@'`^\\x22\s:;][^()[\]\{\},~@`\\x22\s;]* )/ *)
    {| pattern :=
         seqs [ quoting "'`~#^@";
                Cls true (chars "_()[]{}#,~@'`^"
                            ++ [One DQUOTE; Space; One 58%N; One 59%N]);
                Star (Cls true (chars "()[]{},~@`"
                                  ++ [One DQUOTE; Space; One 59%N])) ];
       classifier := fun _ => "id" |};
    (* /./ *)
    {| pattern := Dot;
       classifier := fun _ => "junk" |} ].

(** The inside-string grammar: 'close' when it is time to switch back to
    the 'toplevel' grammar, 'str-inside' for the words in the string. *)
Definition inString : list Rule :=
  [ (* end a string: /\x22/ *)
    {| pattern := Chr DQUOTE;
       classifier := fun _ => "close" |};
    (* still within a string: /(\\.|[^\\\x22\t\r\n ])+/ *)
    {| pattern :=
         Plus (Alt (Seq (Chr BACKSLASH) Dot)
                   (Cls true [One BACKSLASH; One DQUOTE; One 9%N; One CR;
                              One NEWLINE; One 32%N]));
       classifier := fun _ => "str-inside" |};
    (* whitespace, excluding newlines: /[\t ]+/ *)
    {| pattern := Plus (Cls false [One 9%N; One 32%N]);
       classifier := fun _ => "ws" |};
    (* newlines: /(\r?\n)/ *)
    {| pattern := Seq (Opt (Chr CR)) (Chr NEWLINE);
       classifier := fun _ => "ws" |} ].

End Grammar.

(** ** The lexer *)

(** The base token: its type, the raw text and the offset into the line. *)
Record LexerToken := { type : string; raw : str; offset : nat }.

(** Modelled from the spec: the class Lexer of the module ./lexer (a line
    scanner over a rule table), which the scanner imports and which is not
    part of the sources at hand.  It holds the line, the rule table, the
    length cap and a cursor. *)
Record Lexer :=
  { source : str; rules : list Rule; maxLength : nat; position : nat }.

(** Modelled from the spec: the rule table's matching of ./lexer.  The
    rules are evaluated in table order; the first rule whose pattern
    matches anchored exactly at the position wins (first match, not
    longest match), and the length of its match is the number of code
    units consumed. *)
Fixpoint first_match (rs : list Rule) (s : str) (p : nat) : option (Rule * nat) :=
  match rs with
  | [] => None
  | rl :: rs' =>
      match exec_at (pattern rl) s p with
      | Some n => Some (rl, n)
      | None => first_match rs' s p
      end
  end.

(** Modelled from the spec: Lexer.scan of ./lexer.  It returns the next
    token starting at the cursor and advances the cursor by the length of
    the match, or signals no match (JavaScript's null) when the cursor has
    reached the length cap or no rule matches. *)
Definition scan (lex : Lexer) : option LexerToken * Lexer :=
  if maxLength lex <=? position lex then (None, lex)
  else
    match first_match (rules lex) (source lex) (position lex) with
    | Some (rl, n) =>
        let m := substring (source lex) (position lex) n in
        (Some {| type := classifier rl m; raw := m; offset := position lex |},
         {| source := source lex; rules := rules lex;
            maxLength := maxLength lex; position := position lex + n |})
    | None => (None, lex)
    end.

(** Modelled from the spec: LexicalGrammar.lex of ./lexer, a fresh line
    scanner over the rule table, positioned at the start of the line. *)
Definition lex (grammar : list Rule) (line : str) (maxLength : nat) : Lexer :=
  {| source := line; rules := grammar; maxLength := maxLength; position := 0 |}.

(** [lex.position = pos] *)
Definition set_position (l : Lexer) (pos : nat) : Lexer :=
  {| source := source l; rules := rules l; maxLength := maxLength l;
     position := pos |}.

(** ** The scanner *)

(** A reference to a JavaScript object. *)
Definition ref := nat.

(** The state of the scanner, an object on the heap; the pending reader
    token is a reference to a token object. *)
Record ScannerState :=
  { inString : bool; currentReaderToken : option ref }.

(** A token of the scanner: the lexer's token with (a reference to) the
    scanner state. *)
Record Token := { token : LexerToken; state : ref }.

(** The heap: the ScannerState objects and the token objects that a state
    refers to. *)
Record Heap := { states : list ScannerState; tokens : list LexerToken }.

(** What a call comes to: a value, an exception, or no answer within the
    steps allowed. *)
Inductive result (A : Type) :=
| Ok (a : A)
| Throw
| Diverge.
Arguments Ok {A} a.
Arguments Throw {A}.
Arguments Diverge {A}.

#[global] Instance result_bind : MBind result := fun A B f x =>
  match x with
  | Ok a => f a
  | Throw => Throw
  | Diverge => Diverge
  end.

(** Reading a property of an object; of [undefined] it throws. *)
Definition get_state (st : ref) (h : Heap) : result ScannerState :=
  match states h !! st with
  | Some s => Ok s
  | None => Throw
  end.

Definition get_token (r : ref) (h : Heap) : result LexerToken :=
  match tokens h !! r with
  | Some t => Ok t
  | None => Throw
  end.

(** A new object. *)
Definition new_state (s : ScannerState) (h : Heap) : ref * Heap :=
  (length (states h), {| states := states h ++ [s]; tokens := tokens h |}).

Definition new_token (t : LexerToken) (h : Heap) : ref * Heap :=
  (length (tokens h), {| states := states h; tokens := tokens h ++ [t] |}).

(** Assignment to a property of an object, in place. *)
Definition set_state (st : ref) (s : ScannerState) (h : Heap) : result Heap :=
  _ ← get_state st h;
  Ok {| states := <[st := s]> (states h); tokens := tokens h |}.

Definition set_token (r : ref) (t : LexerToken) (h : Heap) : result Heap :=
  _ ← get_token r h;
  Ok {| states := states h; tokens := <[r := t]> (tokens h) |}.

(** /[~`'@#]*\x22$/ *)
Definition string_delimiter : regex :=
  seqs [ Star (Cls false (chars "~`'@#")); Chr DQUOTE; Eol ].

(** The scanner object: its retained state and the length cap given to
    the constructor. *)
Record Scanner := { this_state : ref; this_maxLength : nat }.

(** [new Scanner(maxLength)]: the field initializer allocates the initial
    state. *)
Definition new_Scanner (maxLength : nat) (h : Heap) : Scanner * Heap :=
  let '(st, h') :=
    new_state {| inString := false; currentReaderToken := None |} h in
  ({| this_state := st; this_maxLength := maxLength |}, h').

(** One turn of the loop of processLine on a scanned token [tk]: the new
    [this.state], the lexer to go on with, the token pushed (none after
    [continue]) and the heap. *)
Definition processToken (this_maxLength : nat) (line : str)
  (this_state : ref) (lex0 : Lexer) (tk : LexerToken) (h : Heap)
  : result (ref * Lexer * option Token * Heap) :=
  let oldpos := position lex0 in
  if test string_delimiter (raw tk) then
    if (type tk =? "open")%string then
      (* string started, switch to inString *)
      s ← get_state this_state h;
      let '(st', h') :=
        new_state {| inString := true;
                     currentReaderToken := currentReaderToken s |} h in
      Ok (st', set_position (lex Grammar.inString line this_maxLength) oldpos,
          Some {| token := tk; state := st' |}, h')
    else if (type tk =? "close")%string then
      (* string ended, switch back to toplevel *)
      s ← get_state this_state h;
      let '(st', h') :=
        new_state {| inString := false;
                     currentReaderToken := currentReaderToken s |} h in
      Ok (st', set_position (lex Grammar.toplevel line this_maxLength) oldpos,
          Some {| token := tk; state := st' |}, h')
    else
      Ok (this_state, lex0, Some {| token := tk; state := this_state |}, h)
  else if (type tk =? "reader")%string then
    s ← get_state this_state h;
    let '(r, h1) := new_token tk h in
    h2 ← set_state this_state
            {| inString := inString s; currentReaderToken := Some r |} h1;
    Ok (this_state, lex0, None, h2)
  else
    s ← get_state this_state h;
    match currentReaderToken s with
    | Some r =>
        p ← get_token r h;
        if (type tk =? "ws")%string || (type tk =? "comment")%string then
          h' ← set_token r {| type := type p; raw := raw p ++ raw tk;
                               offset := offset p |} h;
          Ok (this_state, lex0, None, h')
        else
          let tk' := {| type := type tk;
                        raw := raw p ++ [NEWLINE] ++ raw tk;
                        offset := offset p |} in
          h' ← set_state this_state
                  {| inString := inString s; currentReaderToken := None |} h;
          Ok (this_state, lex0, Some {| token := tk'; state := this_state |}, h')
    | None =>
        Ok (this_state, lex0, Some {| token := tk; state := this_state |}, h)
    end.

(** The do-while loop of processLine; [fuel] bounds the number of scans. *)
Fixpoint scanLoop (fuel : nat) (this_maxLength : nat) (line : str)
  (this_state : ref) (lex0 : Lexer) (tks : list Token) (h : Heap)
  : result (list Token * ref * Heap) :=
  match fuel with
  | 0 => Diverge
  | S fuel' =>
      match scan lex0 with
      | (Some tk, lex1) =>
          '(st', lex2, pushed, h') ←
            processToken this_maxLength line this_state lex1 tk h;
          scanLoop fuel' this_maxLength line st' lex2
            (tks ++ from_option (fun t => [t]) [] pushed) h'
      | (None, _) => Ok (tks, this_state, h)
      end
  end.

(** [processLine(line, state = this.state)]: the tokens of the line, the
    scanner with its retained state updated, and the heap. *)
Definition processLine (this : Scanner) (line : str) (state : option ref)
  (h : Heap) : result (list Token * Scanner * Heap) :=
  let state := default (this_state this) state in
  s ← get_state state h;
  let lex0 := lex (if inString s then Grammar.inString else Grammar.toplevel)
                line (this_maxLength this) in
  '(tks, st', h') ←
    scanLoop (S (length line)) (this_maxLength this) line state lex0 [] h;
  (* the sentinel EOL token *)
  let eol := {| token := {| type := "eol"; raw := [NEWLINE];
                            offset := length line |};
                state := st' |} in
  Ok (tks ++ [eol],
      {| this_state := st'; this_maxLength := this_maxLength this |}, h').

(** ** Reading results off the heap *)

(** The value of a state object: its flag and the pending token itself. *)
Record StateValue :=
  { inStringV : bool; currentReaderTokenV : option LexerToken }.

Definition state_value (h : Heap) (st : ref) : option StateValue :=
  s ← states h !! st;
  match currentReaderToken s with
  | Some r => t ← tokens h !! r;
              Some {| inStringV := inString s; currentReaderTokenV := Some t |}
  | None => Some {| inStringV := inString s; currentReaderTokenV := None |}
  end.

(** Type, raw text and offset of the tokens. *)
Definition view (tks : list Token) : list (string * str * nat) :=
  List.map (fun t => (type (token t), raw (token t), offset (token t))) tks.

Definition empty_heap : Heap := {| states := []; tokens := [] |}.

(** ** Notions used by the statements *)

(** The correspondence of brackets that [validPair] checks. *)
Definition bracket_pair (o c : char) : Prop :=
  (o = 40%N /\ c = 41%N) \/ (o = 91%N /\ c = 93%N) \/
  (o = 123%N /\ c = 125%N) \/ (o = DQUOTE /\ c = DQUOTE).

(** A pattern that may match the empty string (a safe approximation). *)
Fixpoint nullable (r : regex) : bool :=
  match r with
  | Chr _ | Cls _ _ | Dot => false
  | Bol | Eol | Star _ | Opt _ | LookBehind _ => true
  | Seq r1 r2 => nullable r1 && nullable r2
  | Alt r1 r2 => nullable r1 || nullable r2
  | Plus r1 => nullable r1
  end.

(** The lexers that processLine runs on a line: one of the two grammars
    over that line, the cursor inside the line. *)
Definition lex_ok (line : str) (l : Lexer) : Prop :=
  source l = line /\
  (rules l = Grammar.toplevel \/ rules l = Grammar.inString) /\
  position l <= length line.

(** The state [st] is an object of the heap, and so is the pending token
    it refers to, if any. *)
Definition heap_ok (h : Heap) (st : ref) : Prop :=
  exists s, states h !! st = Some s /\
            forall r, currentReaderToken s = Some r -> is_Some (tokens h !! r).

(** The same lexer under another length cap, and the same scanner. *)
Definition recap (ml : nat) (l : Lexer) : Lexer :=
  {| source := source l; rules := rules l; maxLength := ml;
     position := position l |}.

Definition with_cap (ml : nat) (this : Scanner) : Scanner :=
  {| this_state := this_state this; this_maxLength := ml |}.

Definition recap_token_result (ml : nat)
  (r : result (ref * Lexer * option Token * Heap))
  : result (ref * Lexer * option Token * Heap) :=
  '(st, l, pushed, h) ← r; Ok (st, recap ml l, pushed, h).

Definition recap_result {A B} (ml : nat) (r : result (A * Scanner * B))
  : result (A * Scanner * B) :=
  '(tks, this, h) ← r; Ok (tks, with_cap ml this, h).

(** A scanner object with the given retained state and length cap. *)
Definition scanner (st : ref) (ml : nat) : Scanner :=
  {| this_state := st; this_maxLength := ml |}.

(** The value of the scanner's retained state. *)
Definition retained (this : Scanner) (h : Heap) : option StateValue :=
  state_value h (this_state this).

(** The lines of the examples of the specification. *)
Definition line_println_hello : str := lit "(println " ++ [DQUOTE] ++ lit "hello".
Definition line_world : str := lit "world" ++ [DQUOTE] ++ lit ")".
Definition line_inst : str := lit "#inst".
Definition line_date : str := [DQUOTE] ++ lit "2020-01-01" ++ [DQUOTE].

(** The pending reader token left by the line [#inst]. *)
Definition inst_token (off : nat) : LexerToken :=
  {| type := "reader"; raw := line_inst; offset := off |}.

Definition line_a_inst : str := lit "a #inst".

(** ** The scanner as a function of the value of the state

    The contract [processLine(line, state) -> (tokens, newState)] with the
    state as an explicit value threaded through the calls: the same steps
    as [processToken], [scanLoop] and [processLine], on the value of the
    state instead of the heap.  [processLine_refines] relates the two. *)

Definition pure_processToken (this_maxLength : nat) (line : str)
  (v : StateValue) (lex0 : Lexer) (tk : LexerToken)
  : StateValue * Lexer * option LexerToken :=
  let oldpos := position lex0 in
  if test string_delimiter (raw tk) then
    if (type tk =? "open")%string then
      ({| inStringV := true; currentReaderTokenV := currentReaderTokenV v |},
       set_position (lex Grammar.inString line this_maxLength) oldpos, Some tk)
    else if (type tk =? "close")%string then
      ({| inStringV := false; currentReaderTokenV := currentReaderTokenV v |},
       set_position (lex Grammar.toplevel line this_maxLength) oldpos, Some tk)
    else (v, lex0, Some tk)
  else if (type tk =? "reader")%string then
    ({| inStringV := inStringV v; currentReaderTokenV := Some tk |}, lex0, None)
  else
    match currentReaderTokenV v with
    | Some p =>
        if (type tk =? "ws")%string || (type tk =? "comment")%string then
          ({| inStringV := inStringV v;
              currentReaderTokenV :=
                Some {| type := type p; raw := raw p ++ raw tk;
                        offset := offset p |} |}, lex0, None)
        else
          ({| inStringV := inStringV v; currentReaderTokenV := None |}, lex0,
           Some {| type := type tk; raw := raw p ++ [NEWLINE] ++ raw tk;
                   offset := offset p |})
    | None => (v, lex0, Some tk)
    end.

Fixpoint pure_scanLoop (fuel : nat) (this_maxLength : nat) (line : str)
  (v : StateValue) (lex0 : Lexer) (tks : list LexerToken)
  : result (list LexerToken * StateValue) :=
  match fuel with
  | 0 => Diverge
  | S fuel' =>
      match scan lex0 with
      | (Some tk, lex1) =>
          let '(v', lex2, pushed) :=
            pure_processToken this_maxLength line v lex1 tk in
          pure_scanLoop fuel' this_maxLength line v' lex2
            (tks ++ from_option (fun t => [t]) [] pushed)
      | (None, _) => Ok (tks, v)
      end
  end.

Definition pure_processLine (maxLength : nat) (line : str) (v : StateValue)
  : result (list LexerToken * StateValue) :=
  let lex0 := lex (if inStringV v then Grammar.inString else Grammar.toplevel)
                line maxLength in
  '(tks, v') ← pure_scanLoop (S (length line)) maxLength line v lex0 [];
  Ok (tks ++ [{| type := "eol"; raw := [NEWLINE]; offset := length line |}], v').

(** ** The scan of a call

    The tokens that the lexer yields in the loop of processLine, as they
    are scanned, before the scanner holds one back or merges it, and the
    position at which the scan ends: the loop of [pure_scanLoop], keeping
    the scanned tokens instead of the pushed ones. *)
Fixpoint pure_scanTrace (fuel : nat) (this_maxLength : nat) (line : str)
  (v : StateValue) (lex0 : Lexer) : list LexerToken * nat :=
  match fuel with
  | 0 => ([], position lex0)
  | S fuel' =>
      match scan lex0 with
      | (Some tk, lex1) =>
          let '(v', lex2, _) :=
            pure_processToken this_maxLength line v lex1 tk in
          let '(tks, e) := pure_scanTrace fuel' this_maxLength line v' lex2 in
          (tk :: tks, e)
      | (None, _) => ([], position lex0)
      end
  end.

(** The scan of processLine on a line, from a state of value [v]. *)
Definition scanned (maxLength : nat) (line : str) (v : StateValue)
  : list LexerToken * nat :=
  pure_scanTrace (S (length line)) maxLength line v
    (lex (if inStringV v then Grammar.inString else Grammar.toplevel)
       line maxLength).

(** ** Full coverage *)

(** The tokens tile the text from offset [from] to offset [to]. *)
Fixpoint tiled (from : nat) (tks : list LexerToken) (to : nat) : Prop :=
  match tks with
  | [] => from = to
  | t :: rest => offset t = from /\ tiled (from + length (raw t)) rest to
  end.

Definition eol_token (line : str) : LexerToken :=
  {| type := "eol"; raw := [NEWLINE]; offset := length line |}.

(** Full coverage of a line by the tokens of a call: the raw texts make up
    the line and a newline, the last token is the only end-of-line token,
    and each token ends where the next one starts. *)
Definition full_coverage (line : str) (tks : list LexerToken) : Prop :=
  concat (List.map raw tks) = line ++ [NEWLINE] /\
  (exists init, tks = init ++ [eol_token line] /\
                forall t, In t init -> type t <> "eol") /\
  (forall i t1 t2, tks !! i = Some t1 -> tks !! S i = Some t2 ->
                   offset t1 + length (raw t1) = offset t2).

(** ** Literal words *)

(** The characters a match of a pattern may start with, and those it may
    end with (safe approximations). *)
Fixpoint starts (r : regex) (c : char) : bool :=
  match r with
  | Chr d => (c =? d)%N
  | Cls neg items => xorb neg (existsb (item_has c) items)
  | Dot => negb (is_line_terminator c)
  | Bol | Eol | LookBehind _ => false
  | Seq r1 r2 => starts r1 c || nullable r1 && starts r2 c
  | Alt r1 r2 => starts r1 c || starts r2 c
  | Star r1 | Plus r1 | Opt r1 => starts r1 c
  end.

Fixpoint ends (r : regex) (c : char) : bool :=
  match r with
  | Chr d => (c =? d)%N
  | Cls neg items => xorb neg (existsb (item_has c) items)
  | Dot => negb (is_line_terminator c)
  | Bol | Eol | LookBehind _ => false
  | Seq r1 r2 => ends r2 c || nullable r2 && ends r1 c
  | Alt r1 r2 => ends r1 c || ends r2 c
  | Star r1 | Plus r1 | Opt r1 => ends r1 c
  end.

(** A pattern whose matches at a position depend on the text from that
    position on only. *)
Fixpoint lookaround_free (r : regex) : bool :=
  match r with
  | Chr _ | Cls _ _ | Dot | Eol => true
  | Bol | LookBehind _ => false
  | Seq r1 r2 | Alt r1 r2 => lookaround_free r1 && lookaround_free r2
  | Star r1 | Plus r1 | Opt r1 => lookaround_free r1
  end.

(** The quoting characters that the rules of the literals fold into the
    token: ['`~#]. *)
Definition is_quote (c : char) : bool := existsb (item_has c) (chars "'`~#").

(** The folded quoting prefix clusters, the texts of (['`~#]\s* )*: each
    quoting character may be followed by whitespace. *)
Inductive cluster : str -> Prop :=
| cluster_nil : cluster []
| cluster_cons q ws cs :
    is_quote q = true -> Forall (fun c => is_space c = true) ws ->
    cluster cs -> cluster (q :: ws ++ cs).

(** The words true, false and nil. *)
Definition literal_word (w : str) : Prop :=
  w = lit "true" \/ w = lit "false" \/ w = lit "nil".

(** A token whose raw text is a cluster and a literal word is a literal,
    or a chunk of a string when scanned inside a string. *)
Definition word_token_ok (t : LexerToken) : Prop :=
  forall cs w, cluster cs -> literal_word w -> raw t = cs ++ w ->
               type t = "lit" \/ type t = "str-inside".

(** ** The mode that a token tells

    What the type and the raw text of a token say about the string flag
    [b] of the state that the token carries: a chunk of a string is inside
    a string; a closing token, a comment, an ignore marker, a literal, a
    keyword, a symbol and a junk character are outside; an opening token
    is inside exactly when it opens a string. *)
Definition token_mode (tk : LexerToken) (b : bool) : Prop :=
  (type tk = "str-inside" -> b = true) /\
  (In (type tk) ["close"; "comment"; "ignore"; "lit"; "kw"; "id"; "junk"]
   -> b = false) /\
  (type tk = "open" -> (b = true <-> last (raw tk) = Some DQUOTE)).

(** ** The debugger's sources (src/debugger/calva-debug.ts)

    The file of the debug adapter carries a copy of the lexer with its own
    [validPair], and the conversion of the positions that the debugger
    reports. *)

Module Debugger.

(** [s.endsWith(search)]: the text of [s] from [s.length - search.length]
    on is [search]; false when [search] is the longer one. *)
Definition endsWith (s search : str) : bool :=
  if length s <? length search then false
  else bool_decide (substring s (length s - length search) (length search)
                    = search).

(** The closing bracket is compared as a whole by the switch, the opening
    text by its ending. *)
Definition validPair (open close : str) : bool :=
  let valid := false in
  if bool_decide (close = lit ")") then endsWith open (lit "(")
  else if bool_decide (close = lit "]") then endsWith open (lit "[")
  else if bool_decide (close = lit "}") then endsWith open (lit "{")
  else if bool_decide (close = [DQUOTE]) then endsWith open [DQUOTE]
  else valid.

(** The 'toplevel' lexical grammar of the debugger's copy, with all
    normal tokens; a string that does not end on its line is a
    str-start token. *)
Definition toplevel : list Rule :=
  [ (* whitespace, excluding newlines: /[\t ,]+/ *)
    {| pattern := Plus (Cls false [One 9%N; One 32%N; One 44%N]);
       classifier := fun _ => "ws" |};
    (* newlines: /(\r?\n)/ *)
    {| pattern := Seq (Opt (Chr CR)) (Chr NEWLINE);
       classifier := fun _ => "ws" |};
    (* comments: /;.*/ *)
    {| pattern := Seq (Chr 59%N) (Star Dot);
       classifier := fun _ => "comment" |};
    (* open parens: /(['`~#@?]\s* )*[\(\[\{]/ *)
    {| pattern := Seq (quoting "'`~#@?") (Cls false (chars "([{"));
       classifier := fun _ => "open" |};
    (* close parens: /\)|\]|\}/ *)
    {| pattern := Alt (Chr 41%N) (Alt (Chr 93%N) (Chr 125%N));
       classifier := fun _ => "close" |};
    (* punctuators: /~@|~|'|#'|#:|#_|\^|`|#|\^:/ *)
    {| pattern :=
         Alt (word "~@")
           (Alt (Chr 126%N)
              (Alt (Chr 39%N)
                 (Alt (word "#'")
                    (Alt (word "#:")
                       (Alt (word "#_")
                          (Alt (Chr 94%N)
                             (Alt (Chr 96%N)
                                (Alt (Chr HASH) (word "^:")))))))));
       classifier := fun _ => "punc" |};
    (* /(['`~#@?]\s* )*(true|false|nil)/ *)
    {| pattern :=
         Seq (quoting "'`~#@?") (Alt (word "true") (Alt (word "false") (word "nil")));
       classifier := fun _ => "lit" |};
    (* /(['`~#@?]\s* )*([0-9]+[rR][0-9a-zA-Z]+)/ *)
    {| pattern :=
         seqs [ quoting "'`~#@?"; digits; Cls false (chars "rR");
                Plus (Cls false [Rng 48%N 57%N; Rng 97%N 122%N; Rng 65%N 90%N]) ];
       classifier := fun _ => "lit" |};
    (* /(['`~#@?]\s* )*([-+]?[0-9]+(\.[0-9]+)?([eE][-+]?[0-9]+)?)/ *)
    {| pattern :=
         seqs [ quoting "'`~#@?"; Opt (Cls false (chars "-+")); digits;
                Opt (Seq (Chr 46%N) digits);
                Opt (seqs [ Cls false (chars "eE"); Opt (Cls false (chars "-+"));
                            digits ]) ];
       classifier := fun _ => "lit" |};
    (* /(['`~#@?]\s* )*(:[^()[\]\{\}#,~@'`^\x22\s;]* )/ *)
    {| pattern :=
         seqs [ quoting "'`~#@?"; Chr 58%N;
                Star (Cls true (chars "()[]{}#,~@'`^"
                                  ++ [One DQUOTE; Space; One 59%N])) ];
       classifier := fun _ => "kw" |};
    (* /(['`~#@?^]\s* )*([^()[\]\{\}#,~@'`^\x22\s:;][^()[\]\{\}#,~@'`^\x22\s;]* )/ *)
    {| pattern :=
         seqs [ quoting "'`~#@?^";
                Cls true (chars "()[]{}#,~@'`^"
                            ++ [One DQUOTE; Space; One 58%N; One 59%N]);
                Star (Cls true (chars "()[]{}#,~@'`^"
                                  ++ [One DQUOTE; Space; One 59%N])) ];
       classifier := fun _ => "id" |};
    (* complete string on a single line:
       /(['`~#@?]\s* )*(#?\x22([^\x22\\]|\\.)*\x22)/ *)
    {| pattern :=
         seqs [ quoting "'`~#@?"; Opt (Chr HASH); Chr DQUOTE;
                Star (Alt (Cls true [One DQUOTE; One BACKSLASH])
                          (Seq (Chr BACKSLASH) Dot));
                Chr DQUOTE ];
       classifier := fun _ => "str" |};
    (* /(['`~#@?]\s* )*(#?\x22([^\x22\\]|\\.)* )/ *)
    {| pattern :=
         seqs [ quoting "'`~#@?"; Opt (Chr HASH); Chr DQUOTE;
                Star (Alt (Cls true [One DQUOTE; One BACKSLASH])
                          (Seq (Chr BACKSLASH) Dot)) ];
       classifier := fun _ => "str-start" |};
    (* /./ *)
    {| pattern := Dot;
       classifier := fun _ => "junk" |} ].

(** The multi-line string grammar of the debugger's copy: 'str-end' once
    it is time to switch back to the 'toplevel' grammar, 'str-inside' if
    the string continues. *)
Definition multstring : list Rule :=
  [ (* end a multiline string: /([^\x22\\]|\\.)*\x22/ *)
    {| pattern :=
         Seq (Star (Alt (Cls true [One DQUOTE; One BACKSLASH])
                        (Seq (Chr BACKSLASH) Dot)))
             (Chr DQUOTE);
       classifier := fun _ => "str-end" |};
    (* still within a multiline string: /([^\x22\\]|\\.)+/ *)
    {| pattern :=
         Plus (Alt (Cls true [One DQUOTE; One BACKSLASH])
                   (Seq (Chr BACKSLASH) Dot));
       classifier := fun _ => "str-inside" |} ].

(** [n === 0 ? n : n - 1] on the integers on which the arithmetic of
    JavaScript's numbers is exact, those above -2^53 and up to 2^53
    (2^53 = 9007199254740992); beyond them the subtraction rounds, which
    is not modelled. *)
Definition convertOneBasedToZeroBased (n : Z) : option Z :=
  if ((-9007199254740992 <? n) && (n <=? 9007199254740992))%Z
  then Some (if (n =? 0)%Z then n else (n - 1)%Z)
  else None.

End Debugger.

(** ** The REPL connect sequences (calva/nrepl/connectSequence.ts) *)

Module ConnectSequence.

(** The values of the enums are their names. *)
Module ProjectTypes.
Definition Leiningen : string := "Leiningen".
Definition Clojure_CLI : string := "Clojure CLI".
Definition shadow_cljs : string := "shadow-cljs".
End ProjectTypes.

Module CljsTypes.
Definition Figwheel_Main : string := "Figwheel Main".
Definition lein_figwheel : string := "lein-figwheel".
Definition shadow_cljs : string := "shadow-cljs".
Definition User_provided : string := "User provided".
End CljsTypes.

(** [string | RegExp]: a regular expression is kept by its source text. *)
Inductive Pattern :=
| PatternString (s : string)
| RegExp (source : string).

(** [string | Object]: the object by its properties. *)
Inductive Code :=
| CodeString (s : string)
| CodeObject (properties : list (string * string)).

(** The interface CljsTypeConfig; an optional property is an option. *)
Module CljsTypeConfig.
Record t :=
  { name : string;
    dependsOn : option string;
    startCode : option string;
    builds : option (list string);
    isReadyToStartRegExp : option Pattern;
    openUrlRegExp : option Pattern;
    shouldOpenUrl : option bool;
    connectCode : Code;
    isConnectedRegExp : option Pattern;
    printThisLineRegExp : option Pattern }.
End CljsTypeConfig.

(** The interface ReplConnectSequence.  The sequences of the user come
    from the settings, where a name or a project type may be missing. *)
Module ReplConnectSequence.
Record t :=
  { name : option string;
    projectType : option string;
    afterCLJReplJackInCode : option string;
    cljsType : option (string + CljsTypeConfig.t) }.
End ReplConnectSequence.

Definition leiningenDefaults : list ReplConnectSequence.t :=
  [ {| ReplConnectSequence.name := Some "Leiningen";
       ReplConnectSequence.projectType := Some ProjectTypes.Leiningen;
       ReplConnectSequence.afterCLJReplJackInCode := None;
       ReplConnectSequence.cljsType := None |};
    {| ReplConnectSequence.name := Some "Leiningen + Figwheel";
       ReplConnectSequence.projectType := Some ProjectTypes.Leiningen;
       ReplConnectSequence.afterCLJReplJackInCode := None;
       ReplConnectSequence.cljsType := Some (inl CljsTypes.lein_figwheel) |};
    {| ReplConnectSequence.name := Some "Leiningen + Figwheel Main";
       ReplConnectSequence.projectType := Some ProjectTypes.Leiningen;
       ReplConnectSequence.afterCLJReplJackInCode := None;
       ReplConnectSequence.cljsType := Some (inl CljsTypes.Figwheel_Main) |} ].

Definition cljDefaults : list ReplConnectSequence.t :=
  [ {| ReplConnectSequence.name := Some "Clojure CLI";
       ReplConnectSequence.projectType := Some ProjectTypes.Clojure_CLI;
       ReplConnectSequence.afterCLJReplJackInCode := None;
       ReplConnectSequence.cljsType := None |};
    {| ReplConnectSequence.name := Some "Clojure CLI + Figwheel";
       ReplConnectSequence.projectType := Some ProjectTypes.Clojure_CLI;
       ReplConnectSequence.afterCLJReplJackInCode := None;
       ReplConnectSequence.cljsType := Some (inl CljsTypes.lein_figwheel) |};
    {| ReplConnectSequence.name := Some "Clojure CLI + Figwheel Main";
       ReplConnectSequence.projectType := Some ProjectTypes.Clojure_CLI;
       ReplConnectSequence.afterCLJReplJackInCode := None;
       ReplConnectSequence.cljsType := Some (inl CljsTypes.Figwheel_Main) |} ].

Definition shadowCljsDefaults : list ReplConnectSequence.t :=
  [ {| ReplConnectSequence.name := Some "shadow-cljs";
       ReplConnectSequence.projectType := Some ProjectTypes.shadow_cljs;
       ReplConnectSequence.afterCLJReplJackInCode := None;
       ReplConnectSequence.cljsType := Some (inl CljsTypes.shadow_cljs) |} ].

(** The members that every object inherits from Object.prototype. *)
Definition Object_prototype : list string :=
  [ "constructor"; "__defineGetter__"; "__defineSetter__"; "hasOwnProperty";
    "__lookupGetter__"; "__lookupSetter__"; "isPrototypeOf";
    "propertyIsEnumerable"; "toString"; "valueOf"; "__proto__";
    "toLocaleString" ]%string.

(** What [o[key]] gives on an object written as a literal: the own
    property of that key; else the member of that name inherited from
    Object.prototype (a function, or the prototype itself for
    __proto__); else [undefined]. *)
Inductive Property (A : Type) :=
| Own (a : A)
| Inherited (key : string)
| Undefined.
Arguments Own {A} a.
Arguments Inherited {A} key.
Arguments Undefined {A}.

Definition get {A} (own : string -> option A) (key : string) : Property A :=
  match own key with
  | Some a => Own a
  | None => if bool_decide (key ∈ Object_prototype) then Inherited key
            else Undefined
  end.

(** The [name] of an inherited member: a function has its name, which is
    Object for the constructor; the prototype has none. *)
Definition member_name (key : string) : option string :=
  if (key =? "constructor")%string then Some "Object"%string
  else if (key =? "__proto__")%string then None
  else Some key.

(** The object defaultSequences: its own properties, the default
    sequences of the project types. *)
Definition defaultSequences (pType : string) : option (list ReplConnectSequence.t) :=
  if (pType =? "lein")%string then Some leiningenDefaults
  else if (pType =? "clj")%string then Some cljDefaults
  else if (pType =? "shadow-cljs")%string then Some shadowCljsDefaults
  else None.

(** The settings that the module reads through [state.config()]. *)
Record Config :=
  { replConnectSequences : list ReplConnectSequence.t;
    openBrowserWhenFigwheelStarted : option bool }.

(** What the functions show and report (the console.log lines of
    getConnectSequences are left out). *)
Inductive Effect :=
| showWarningMessage (message : string)
| showErrorMessage (message : string)
| logEvent (category action label : string).

(** The loop of getCustomConnectSequences over the sequences left, with
    its early return. *)
Fixpoint customLoop (sequences rest : list ReplConnectSequence.t)
  : list ReplConnectSequence.t * list Effect :=
  match rest with
  | [] => (sequences, [])
  | sequence :: rest' =>
      if bool_decide (ReplConnectSequence.name sequence = None)
         || bool_decide (ReplConnectSequence.projectType sequence = None)
      then ([], [showWarningMessage
                   ("Check your calva.replConnectSequences. "
                    ++ "You need to supply name and projectType for every sequence. "
                    ++ "After fixing the customSequences can be used.")])
      else customLoop sequences rest'
  end.

(** Retrieve the replConnectSequences from the config. *)
Definition getCustomConnectSequences (config : Config)
  : list ReplConnectSequence.t * list Effect :=
  let sequences := replConnectSequences config in
  customLoop sequences sequences.

(** An element of the array that getConnectSequences builds: a sequence,
    a member inherited from Object.prototype, or [undefined]. *)
Inductive Element :=
| Sequence (s : ReplConnectSequence.t)
| Member (key : string)
| undefined.

(** [result.concat(x)]: the elements of an array, or the one value that
    is not an array. *)
Definition concat_value (result : list Element)
  (x : Property (list ReplConnectSequence.t)) : list Element :=
  match x with
  | Own sequences => result ++ List.map Sequence sequences
  | Inherited key => result ++ [Member key]
  | Undefined => result ++ [undefined]
  end.

(** The default sequences of the project types, [defaultSequences[pType]]
    for each of them, then the sequences of the user. *)
Definition getConnectSequences (config : Config) (projectTypes : list string)
  : list Element * list Effect :=
  let '(customSequences, effects) := getCustomConnectSequences config in
  let result :=
    fold_left (fun result pType =>
                 concat_value result (get defaultSequences pType))
      projectTypes [] in
  (result ++ List.map Sequence customSequences, effects).

(** [s.name]: reading the name of [undefined] throws. *)
Definition element_name (s : Element) : result (option string) :=
  match s with
  | Sequence s => Ok (ReplConnectSequence.name s)
  | Member key => Ok (member_name key)
  | undefined => Throw
  end.

(** [sequences.map(s => s.name)] *)
Fixpoint names (sequences : list Element) : result (list (option string)) :=
  match sequences with
  | [] => Ok []
  | s :: rest =>
      n ← element_name s; ns ← names rest; Ok (n :: ns)
  end.

(** [sequences.find(seq => seq.name === name)] *)
Fixpoint find_by_name (sequences : list Element) (name : string)
  : result (option Element) :=
  match sequences with
  | [] => Ok None
  | seq :: rest =>
      n ← element_name seq;
      if bool_decide (n = Some name) then Ok (Some seq)
      else find_by_name rest name
  end.

(** askForConnectSequence.  The choice of the user comes from
    [utilities.quickPickSingle], a function of the values offered and of
    the path under which the choice is saved; an empty choice counts as
    none.  The result comes with what was shown and reported. *)
Definition askForConnectSequence (config : Config)
  (quickPickSingle : list (option string) -> string -> option string)
  (projectRoot : string) (cljTypes : list string) (saveAs logLabel : string)
  : result (option Element) * list Effect :=
  if length cljTypes =? 0 then
    (Ok None,
     [showErrorMessage
        "Cannot find project, no project.clj, deps.edn or shadow-cljs.edn.";
      logEvent "REPL" logLabel "FailedFindingProjectType"])
  else
    let '(sequences, effects) := getConnectSequences config cljTypes in
    match names sequences with
    | Ok values =>
        match quickPickSingle values (projectRoot ++ "/" ++ saveAs)%string with
        | None | Some ""%string =>
            (Ok None, effects ++ [logEvent "REPL" logLabel "NoProjectTypePicked"])
        | Some projectConnectSequenceName =>
            (find_by_name sequences projectConnectSequenceName, effects)
        end
    | Throw => (Throw, effects)
    | Diverge => (Diverge, effects)
    end.

(** The table of the built-in ClojureScript types, an object that
    getDefaultCljsType writes to: its own properties. *)
Definition defaultCljsTypes : gmap string CljsTypeConfig.t :=
  {[ "Figwheel Main" :=
       {| CljsTypeConfig.name := "Figwheel Main";
          CljsTypeConfig.dependsOn := None;
          CljsTypeConfig.startCode :=
            Some "(do (require 'figwheel.main.api) (figwheel.main.api/start %BUILDS%))";
          CljsTypeConfig.builds := Some [];
          CljsTypeConfig.isReadyToStartRegExp :=
            Some (RegExp "Prompt will show|Open(ing)? URL|already running");
          CljsTypeConfig.openUrlRegExp :=
            Some (RegExp "(Starting Server at|Open(ing)? URL) (?<url>\S+)");
          CljsTypeConfig.shouldOpenUrl := Some false;
          CljsTypeConfig.connectCode :=
            CodeString "(do (use 'figwheel.main.api) (figwheel.main.api/cljs-repl %BUILD%))";
          CljsTypeConfig.isConnectedRegExp := Some (RegExp "To quit, type: :cljs\/quit");
          CljsTypeConfig.printThisLineRegExp := None |};
     "lein-figwheel" :=
       {| CljsTypeConfig.name := "lein-figwheel";
          CljsTypeConfig.dependsOn := None;
          CljsTypeConfig.startCode := None;
          CljsTypeConfig.builds := None;
          CljsTypeConfig.isReadyToStartRegExp :=
            Some (RegExp "Launching ClojureScript REPL for build");
          CljsTypeConfig.openUrlRegExp :=
            Some (RegExp "Figwheel: Starting server at (?<url>\S+)");
          CljsTypeConfig.shouldOpenUrl := None;
          CljsTypeConfig.connectCode :=
            CodeString "(do (use 'figwheel-sidecar.repl-api) (if (not (figwheel-sidecar.repl-api/figwheel-running?)) (figwheel-sidecar.repl-api/start-figwheel!)) (figwheel-sidecar.repl-api/cljs-repl))";
          CljsTypeConfig.isConnectedRegExp := Some (RegExp "To quit, type: :cljs\/quit");
          CljsTypeConfig.printThisLineRegExp := None |};
     "shadow-cljs" :=
       {| CljsTypeConfig.name := "shadow-cljs";
          CljsTypeConfig.dependsOn := None;
          CljsTypeConfig.startCode := None;
          CljsTypeConfig.builds := Some [];
          CljsTypeConfig.isReadyToStartRegExp := Some (RegExp "To quit, type: :cljs\/quit");
          CljsTypeConfig.openUrlRegExp := None;
          CljsTypeConfig.shouldOpenUrl := Some false;
          CljsTypeConfig.connectCode :=
            CodeObject [ ("build", "(shadow.cljs.devtools.api/nrepl-select %BUILD%)");
                         ("repl", "(shadow.cljs.devtools.api/%REPL%)") ];
          CljsTypeConfig.isConnectedRegExp := Some (RegExp ":selected");
          CljsTypeConfig.printThisLineRegExp := None |} ]}%string.

(** [c.shouldOpenUrl = v] *)
Definition set_shouldOpenUrl (v : option bool) (c : CljsTypeConfig.t)
  : CljsTypeConfig.t :=
  {| CljsTypeConfig.name := CljsTypeConfig.name c;
     CljsTypeConfig.dependsOn := CljsTypeConfig.dependsOn c;
     CljsTypeConfig.startCode := CljsTypeConfig.startCode c;
     CljsTypeConfig.builds := CljsTypeConfig.builds c;
     CljsTypeConfig.isReadyToStartRegExp := CljsTypeConfig.isReadyToStartRegExp c;
     CljsTypeConfig.openUrlRegExp := CljsTypeConfig.openUrlRegExp c;
     CljsTypeConfig.shouldOpenUrl := v;
     CljsTypeConfig.connectCode := CljsTypeConfig.connectCode c;
     CljsTypeConfig.isConnectedRegExp := CljsTypeConfig.isConnectedRegExp c;
     CljsTypeConfig.printThisLineRegExp := CljsTypeConfig.printThisLineRegExp c |}.

(** getDefaultCljsType on the table as it stands, the table holding the
    own properties of the object: the entry of lein-figwheel takes the
    setting, then [defaultCljsTypes[cljsType]] is read.  The table comes
    back as written. *)
Definition getDefaultCljsType (config : Config) (cljsType : string)
  (table : gmap string CljsTypeConfig.t)
  : result (Property CljsTypeConfig.t * gmap string CljsTypeConfig.t) :=
  match table !! "lein-figwheel"%string with
  | Some c =>
      let table' :=
        <["lein-figwheel"%string :=
            set_shouldOpenUrl (openBrowserWhenFigwheelStarted config) c]> table in
      Ok (get (fun key => table' !! key) cljsType, table')
  | None => Throw
  end.

(** A run of calls of getDefaultCljsType, each under the settings of its
    time: the table they leave. *)
Fixpoint calls (cs : list (Config * string)) (table : gmap string CljsTypeConfig.t)
  : result (gmap string CljsTypeConfig.t) :=
  match cs with
  | [] => Ok table
  | (config, cljsType) :: cs' =>
      '(_, table') ← getDefaultCljsType config cljsType table;
      calls cs' table'
  end.

(** A sequence with a name and a project type. *)
Definition well_formed (s : ReplConnectSequence.t) : bool :=
  bool_decide (ReplConnectSequence.name s <> None)
  && bool_decide (ReplConnectSequence.projectType s <> None).

End ConnectSequence.

(** * Properties *)

(** ** The regular expression matcher *)

Lemma star_loop_eq m fuel p :
  star_loop m fuel p =
  flat_map (fun n =>
              match fuel with
              | 0 => []
              | S f => if 0 <? n then List.map (Nat.add n) (star_loop m f (p + n))
                       else []
              end) (m p) ++ [0].
Proof. destruct fuel; reflexivity. Qed.

Lemma star_loop_nonempty m fuel p : star_loop m fuel p <> [].
Proof. rewrite star_loop_eq. intros H. by apply app_eq_nil in H as [_ ?]. Qed.

Lemma star_loop_bound (m : nat -> list nat) (L : nat) :
  (forall q k, In k (m q) -> k <= L - q) ->
  forall fuel p n, In n (star_loop m fuel p) -> n <= L - p.
Proof.
  intros Hm. induction fuel as [|f IH]; intros p n; rewrite star_loop_eq;
    rewrite in_app_iff, in_flat_map; intros [(k & Hk & Hn)|Hn].
  - destruct Hn.
  - destruct Hn as [<-|[]]. lia.
  - destruct (0 <? k); [|destruct Hn].
    apply in_map_iff in Hn as (j & <- & Hj).
    apply Hm in Hk. apply IH in Hj. lia.
  - destruct Hn as [<-|[]]. lia.
Qed.

Ltac in_inv :=
  repeat match goal with
    | H : In _ [] |- _ => destruct H
    | H : In _ [_] |- _ => destruct H as [<-|[]]
    | H : In _ (_ ++ _) |- _ => apply in_app_iff in H as [H|H]
    | H : In _ (flat_map _ _) |- _ =>
        let n1 := fresh "n" in
        let H1 := fresh "H" in
        apply in_flat_map in H as (n1 & H1 & H)
    | H : In _ (List.map _ _) |- _ =>
        let n2 := fresh "n" in
        apply in_map_iff in H as (n2 & <- & H)
    end.

(** A match never runs past the end of the text. *)
Lemma matches_bound r s : forall p n, In n (matches r s p) -> n <= length s - p.
Proof.
  induction r as [c|neg items| | | |r1 IH1 r2 IH2|r1 IH1 r2 IH2|r IH|r IH|r IH|r IH];
    intros p n; simpl; intros H.
  - destruct (s !! p) as [d|] eqn:E; [|destruct H].
    apply lookup_lt_Some in E. destruct (d =? c)%N; in_inv. lia.
  - destruct (s !! p) as [d|] eqn:E; [|destruct H].
    apply lookup_lt_Some in E.
    destruct (xorb neg (existsb (item_has d) items)); in_inv. lia.
  - destruct (s !! p) as [d|] eqn:E; [|destruct H].
    apply lookup_lt_Some in E.
    destruct (is_line_terminator d); in_inv. lia.
  - destruct (p =? 0); in_inv. lia.
  - destruct (length s <=? p); in_inv. lia.
  - in_inv. apply IH1 in H0. apply IH2 in H. lia.
  - in_inv; eauto.
  - revert H. apply star_loop_bound. exact IH.
  - in_inv. apply IH in H0. apply (star_loop_bound _ (length s) IH) in H. lia.
  - in_inv; [eauto|lia].
  - destruct (look_behind _ _); in_inv. lia.
Qed.

(** A pattern that is not nullable consumes at least one code unit. *)
Lemma matches_progress r s :
  nullable r = false -> forall p n, In n (matches r s p) -> 0 < n.
Proof.
  induction r as [c|neg items| | | |r1 IH1 r2 IH2|r1 IH1 r2 IH2|r IH|r IH|r IH|r IH];
    simpl; intros Hn p n H; try discriminate.
  - destruct (s !! p) as [d|]; [|destruct H].
    destruct (d =? c)%N; in_inv. lia.
  - destruct (s !! p) as [d|]; [|destruct H].
    destruct (xorb neg (existsb (item_has d) items)); in_inv. lia.
  - destruct (s !! p) as [d|]; [|destruct H].
    destruct (is_line_terminator d); in_inv. lia.
  - in_inv. apply andb_false_iff in Hn as [Hn|Hn].
    + apply (IH1 Hn) in H0. lia.
    + apply (IH2 Hn) in H. lia.
  - apply orb_false_iff in Hn as [Hn1 Hn2]. in_inv; eauto.
  - in_inv. apply (IH Hn) in H0. lia.
Qed.

Lemma exec_at_In r s p n : exec_at r s p = Some n -> In n (matches r s p).
Proof.
  unfold exec_at. destruct (matches r s p); simpl; [discriminate|].
  intros [= ->]. by left.
Qed.

(** ** The rule tables *)

Lemma first_match_Some rs s p rl n :
  first_match rs s p = Some (rl, n) ->
  In rl rs /\ exec_at (pattern rl) s p = Some n.
Proof.
  induction rs as [|r0 rs IH]; simpl; [discriminate|].
  destruct (exec_at (pattern r0) s p) as [k|] eqn:E.
  - intros [= <- <-]. auto.
  - intros H. apply IH in H as [? ?]. auto.
Qed.

Lemma first_match_is_Some rs s p rl :
  In rl rs -> matches (pattern rl) s p <> [] ->
  is_Some (first_match rs s p).
Proof.
  induction rs as [|r0 rs IH]; simpl; [intros []|].
  intros [->|Hin] Hm.
  - unfold exec_at. destruct (matches (pattern rl) s p); [done|]. simpl. eauto.
  - destruct (exec_at (pattern r0) s p); eauto.
Qed.

Lemma toplevel_not_nullable rl :
  In rl Grammar.toplevel -> nullable (pattern rl) = false.
Proof.
  unfold Grammar.toplevel. simpl.
  intros H. repeat (destruct H as [<-|H]; [reflexivity|]). destruct H.
Qed.

Lemma inString_not_nullable rl :
  In rl Grammar.inString -> nullable (pattern rl) = false.
Proof.
  unfold Grammar.inString. simpl.
  intros H. repeat (destruct H as [<-|H]; [reflexivity|]). destruct H.
Qed.

(** ** The lexer *)

Lemma length_substring (s : str) p n :
  p + n <= length s -> length (substring s p n) = n.
Proof. intros H. unfold substring. rewrite length_take, length_drop. lia. Qed.

Lemma rules_not_nullable line l rl :
  lex_ok line l -> In rl (rules l) -> nullable (pattern rl) = false.
Proof.
  intros (_ & [-> | ->] & _); auto using toplevel_not_nullable, inString_not_nullable.
Qed.

(** A scan that yields a token: the token is the text at the cursor, it is
    not empty, and the cursor moves past it. *)
Lemma scan_Some line l tk l' :
  lex_ok line l -> scan l = (Some tk, l') ->
  exists n, 0 < n /\ position l + n <= length line /\
            raw tk = substring line (position l) n /\ length (raw tk) = n /\
            offset tk = position l /\
            l' = set_position l (position l + n) /\ lex_ok line l' /\
            position l < maxLength l.
Proof.
  intros Hok. unfold scan.
  destruct (maxLength l <=? position l) eqn:Hcap; [discriminate|].
  apply Nat.leb_gt in Hcap.
  destruct (first_match _ _ _) as [[rl n]|] eqn:E; [|discriminate].
  intros [= <- <-]. simpl.
  apply first_match_Some in E as [Hin E]. apply exec_at_In in E.
  pose proof (matches_progress _ _ (rules_not_nullable _ _ _ Hok Hin) _ _ E) as Hpos.
  pose proof (matches_bound _ _ _ _ E) as Hb.
  destruct Hok as (Hsrc & Hr & Hp). rewrite Hsrc in *.
  exists n. repeat split; auto; try lia.
  - apply length_substring; lia.
  - unfold set_position. by rewrite Hsrc.
  - simpl; lia.
Qed.

Lemma scan_None l l' : scan l = (None, l') -> l' = l.
Proof.
  unfold scan. destruct (maxLength l <=? position l); [by intros [= <-]|].
  destruct (first_match _ _ _) as [[rl n]|]; [discriminate|by intros [= <-]].
Qed.

(** ** The loop of processLine does not throw and comes to an end *)

Lemma heap_ok_new_state h st s b :
  states h !! st = Some s ->
  (forall r, currentReaderToken s = Some r -> is_Some (tokens h !! r)) ->
  heap_ok (new_state {| inString := b; currentReaderToken := currentReaderToken s |} h).2
          (new_state {| inString := b; currentReaderToken := currentReaderToken s |} h).1.
Proof.
  intros Hs Hr. unfold new_state, heap_ok. simpl.
  eexists. split; [apply list_lookup_middle; reflexivity|]. exact Hr.
Qed.

Lemma processToken_ok ml line st l tk h :
  heap_ok h st -> lex_ok line l ->
  exists st' l' pushed h',
    processToken ml line st l tk h = Ok (st', l', pushed, h') /\
    heap_ok h' st' /\ lex_ok line l' /\ position l' = position l.
Proof.
  intros (s & Hs & Hr) Hl. unfold processToken, get_state.
  assert (Hlex : forall g, g = Grammar.toplevel \/ g = Grammar.inString ->
                 lex_ok line (set_position (lex g line ml) (position l))).
  { intros g Hg. destruct Hl as (_ & _ & Hp). by repeat split. }
  assert (Hst : st < length (states h)) by by apply lookup_lt_Some in Hs.
  destruct (test string_delimiter (raw tk)).
  { destruct (type tk =? "open")%string; [|destruct (type tk =? "close")%string];
      rewrite ?Hs; simpl; do 4 eexists; (split; [reflexivity|]);
      (split; [|split; [|done]]); auto.
    - by apply (heap_ok_new_state h st s true).
    - by apply (heap_ok_new_state h st s false).
    - by exists s. }
  destruct (type tk =? "reader")%string.
  { rewrite Hs. simpl. unfold set_state, get_state. simpl. rewrite Hs. simpl.
    do 4 eexists. split; [reflexivity|]. split; [|split; [|done]]; auto.
    eexists. simpl. split; [by apply list_lookup_insert_eq|].
    simpl. intros r [= <-]. exists tk. by apply list_lookup_middle. }
  rewrite Hs. simpl. destruct (currentReaderToken s) as [r|] eqn:Er.
  - destruct (Hr r eq_refl) as [pt Hpt]. unfold get_token. rewrite Hpt. simpl.
    destruct ((type tk =? "ws")%string || (type tk =? "comment")%string).
    + unfold set_token, get_token. rewrite Hpt. simpl.
      do 4 eexists. split; [reflexivity|]. split; [|split; [|done]]; auto.
      exists s. simpl. split; [done|]. intros r' Hr'.
      rewrite Hr' in Er. injection Er as ->. eexists.
      apply list_lookup_insert_eq. by apply lookup_lt_Some in Hpt.
    + unfold set_state, get_state. rewrite Hs. simpl.
      do 4 eexists. split; [reflexivity|]. split; [|split; [|done]]; auto.
      eexists. simpl. split; [by apply list_lookup_insert_eq|]. simpl. discriminate.
  - do 4 eexists. split; [reflexivity|]. split; [|split; [|done]]; auto.
    exists s. split; [done|]. rewrite Er. discriminate.
Qed.

Lemma scanLoop_total ml line : forall fuel st l tks h,
  length line - position l < fuel -> heap_ok h st -> lex_ok line l ->
  exists tks' st' h',
    scanLoop fuel ml line st l tks h = Ok (tks', st', h') /\ heap_ok h' st'.
Proof.
  induction fuel as [|fuel IH]; intros st l tks h Hf Hh Hl; [lia|].
  simpl. destruct (scan l) as [[tk|] l1] eqn:Es.
  - destruct (scan_Some _ _ _ _ Hl Es) as (n & Hn & Hb & _ & _ & _ & -> & Hl1 & _).
    destruct (processToken_ok ml line st _ tk h Hh Hl1)
      as (st' & l' & pushed & h' & -> & Hh' & Hl' & Hp).
    simpl. apply IH; auto. rewrite Hp. simpl. lia.
  - eauto.
Qed.

(** processLine returns normally on every line, from every state that is
    an object of the heap. *)
Lemma processLine_total this line state h :
  heap_ok h (default (this_state this) state) ->
  exists tks this' h', processLine this line state h = Ok (tks, this', h').
Proof.
  intros Hh. unfold processLine, get_state.
  pose proof Hh as (s & Hs & Hr). rewrite Hs. cbn -[scanLoop].
  edestruct (scanLoop_total (this_maxLength this) line (S (length line)))
    as (tks & st' & h' & -> & _); [| exact Hh | |].
  3: { cbn. eauto. }
  - simpl. lia.
  - split; [done|]. split; [destruct (inString s); auto|simpl; lia].
Qed.

(** ** The length cap does not matter once it covers the line *)

Lemma first_match_end line l :
  lex_ok line l -> length line <= position l ->
  first_match (rules l) line (position l) = None.
Proof.
  intros Hok Hp.
  destruct (first_match _ _ _) as [[rl n]|] eqn:E; [|done].
  apply first_match_Some in E as [Hin E]. apply exec_at_In in E.
  pose proof (matches_progress _ _ (rules_not_nullable _ _ _ Hok Hin) _ _ E).
  pose proof (matches_bound _ _ _ _ E). lia.
Qed.

Lemma scan_recap line l ml :
  lex_ok line l -> length line <= maxLength l -> length line <= ml ->
  scan (recap ml l) = ((scan l).1, recap ml (scan l).2).
Proof.
  intros Hok H1 H2. pose proof Hok as (Hsrc & _ & Hp).
  unfold scan. simpl.
  destruct (ml <=? position l) eqn:E1; destruct (maxLength l <=? position l) eqn:E2;
    try apply Nat.leb_le in E1; try apply Nat.leb_le in E2; try done.
  - rewrite Hsrc, (first_match_end line l) by (auto; lia). done.
  - rewrite Hsrc, (first_match_end line l) by (auto; lia). done.
  - destruct (first_match _ _ _) as [[rl n]|]; done.
Qed.

(** Case analysis on the next test or monadic step of a computation. *)
Ltac case_step :=
  first
    [ case_match
    | match goal with
      | |- context [?x ≫= _] => destruct x eqn:?
      | H : context [?x ≫= _] |- _ => destruct x eqn:?
      end ].

Lemma processToken_recap ml1 ml2 line st l tk h :
  processToken ml2 line st (recap ml2 l) tk h =
  recap_token_result ml2 (processToken ml1 line st l tk h).
Proof.
  unfold processToken, recap_token_result. simpl.
  repeat (case_step; simpl; try done).
Qed.

Lemma processToken_lex ml line st l tk h st' l' pushed h' :
  processToken ml line st l tk h = Ok (st', l', pushed, h') ->
  lex_ok line l -> lex_ok line l' /\ (maxLength l' = maxLength l \/ maxLength l' = ml).
Proof.
  intros H Hok.
  assert (Hlex : forall g, g = Grammar.toplevel \/ g = Grammar.inString ->
                 lex_ok line (set_position (lex g line ml) (position l))).
  { intros g Hg. destruct Hok as (_ & _ & Hp). by repeat split. }
  unfold processToken in H.
  repeat (case_step; simpl in *; simplify_eq; auto).
Qed.

Lemma scanLoop_cap ml1 ml2 line :
  length line <= ml1 -> length line <= ml2 ->
  forall fuel st l tks h,
    lex_ok line l -> length line <= maxLength l ->
    scanLoop fuel ml2 line st (recap ml2 l) tks h =
    scanLoop fuel ml1 line st l tks h.
Proof.
  intros H1 H2. induction fuel as [|fuel IH]; intros st l tks h Hok Hcap; [done|].
  simpl. rewrite (scan_recap line) by done.
  destruct (scan l) as [[tk|] l1] eqn:Es; simpl; [|done].
  destruct (scan_Some _ _ _ _ Hok Es) as (n & _ & _ & _ & _ & _ & El1 & Hok1 & _).
  rewrite (processToken_recap ml1).
  destruct (processToken ml1 line st l1 tk h) as [[[[st' l2] pushed] h']| |] eqn:Ep;
    simpl; [|done..].
  apply processToken_lex in Ep as [Hok2 Hm]; [|done].
  apply IH; [done|]. destruct Hm as [-> | ->]; [|done]. by rewrite El1.
Qed.

Lemma processLine_cap ml this line state h :
  length line <= this_maxLength this -> length line <= ml ->
  processLine (with_cap ml this) line state h =
  recap_result ml (processLine this line state h).
Proof.
  intros H1 H2. unfold processLine, recap_result. cbn -[scanLoop].
  destruct (get_state _ h) as [s| |]; [|done..]. cbn -[scanLoop].
  set (g := if inString s then Grammar.inString else Grammar.toplevel).
  change (lex g line ml) with (recap ml (lex g line (this_maxLength this))).
  rewrite (scanLoop_cap (this_maxLength this) ml line H1 H2).
  - destruct (scanLoop _ _ _ _ _ _ _) as [[[tks st'] h']| |]; done.
  - split; [done|]. split; [subst g; destruct (inString s); auto|simpl; lia].
  - done.
Qed.

Lemma processLine_recap ml c st line state h :
  length line <= c -> length line <= ml ->
  processLine (scanner st ml) line state h =
  recap_result ml (processLine (scanner st c) line state h).
Proof. intros. by apply (processLine_cap ml (scanner st c)). Qed.

(** Runs the call of processLine in the goal on a scanner whose cap is
    any bound [c] of the length of the line. *)
Ltac run_line c :=
  lazymatch goal with
  | |- processLine ?sc ?line ?state ?h = ?rhs =>
      let sc' := eval vm_compute in sc in
      lazymatch sc' with
      | {| this_state := ?st; this_maxLength := ?ml |} =>
          change (processLine (scanner st ml) line state h = rhs);
          rewrite (processLine_recap ml c) by (vm_compute; lia);
          vm_compute; reflexivity
      end
  end.

(** ** The examples of the specification *)

(** C3. String spanning: fed the line [(println \x22hello] and then the
    line [world\x22)], a fresh scanner (of any cap that covers the lines)
    is inside a string after the first line and outside after the second,
    and both [hello] and [world] are tokens of type str-inside. *)
Theorem string_spanning (ml : nat) :
  15 <= ml ->
  exists tks1 sc1 h1 tks2 sc2 h2,
    processLine (new_Scanner ml empty_heap).1 line_println_hello None
      (new_Scanner ml empty_heap).2 = Ok (tks1, sc1, h1) /\
    processLine sc1 line_world None h1 = Ok (tks2, sc2, h2) /\
    inStringV <$> retained sc1 h1 = Some true /\
    inStringV <$> retained sc2 h2 = Some false /\
    view tks1 = [ ("open", lit "(", 0); ("id", lit "println", 1);
                  ("ws", lit " ", 8); ("open", [DQUOTE], 9);
                  ("str-inside", lit "hello", 10); ("eol", [NEWLINE], 15) ] /\
    view tks2 = [ ("str-inside", lit "world", 0); ("close", [DQUOTE], 5);
                  ("close", lit ")", 6); ("eol", [NEWLINE], 7) ].
Proof.
  intros Hml. do 6 eexists.
  split; [run_line 15|]. split; [run_line 15|].
  vm_compute. auto.
Qed.

Lemma string_spanning_witness :
  exists tks1 sc1 h1 tks2 sc2 h2,
    processLine (new_Scanner 15 empty_heap).1 line_println_hello None
      (new_Scanner 15 empty_heap).2 = Ok (tks1, sc1, h1) /\
    processLine sc1 line_world None h1 = Ok (tks2, sc2, h2) /\
    inStringV <$> retained sc1 h1 = Some true /\
    inStringV <$> retained sc2 h2 = Some false.
Proof.
  destruct (string_spanning 15 (le_n 15))
    as (tks1 & sc1 & h1 & tks2 & sc2 & h2 & H1 & H2 & H3 & H4 & _).
  exists tks1, sc1, h1, tks2, sc2, h2. auto.
Defined.

(** What the code does on the reader-tag example: the string on the second
    line is scanned as an opening quote, a chunk and a closing quote; the
    opening quote goes out as it is, the chunk carries the tag, and no
    token has the raw text [#inst], newline, [\x222020-01-01\x22]. *)
Lemma reader_merge_counterexample :
  exists tks1 sc1 h1 tks2 sc2 h2,
    processLine (new_Scanner 100 empty_heap).1 line_inst None
      (new_Scanner 100 empty_heap).2 = Ok (tks1, sc1, h1) /\
    processLine sc1 line_date None h1 = Ok (tks2, sc2, h2) /\
    view tks2 = [ ("open", [DQUOTE], 0);
                  ("str-inside", line_inst ++ [NEWLINE] ++ lit "2020-01-01", 0);
                  ("close", [DQUOTE], 11); ("eol", [NEWLINE], 12) ] /\
    forall t, In t tks2 -> raw (token t) <> line_inst ++ [NEWLINE] ++ line_date.
Proof.
  do 6 eexists. split; [vm_compute; reflexivity|].
  split; [vm_compute; reflexivity|]. split; [vm_compute; reflexivity|].
  intros t Ht. simpl in Ht.
  repeat (destruct Ht as [<-|Ht]; [vm_compute; discriminate|]). destruct Ht.
Qed.

(** C4 (amended). Reader-tag merge: fed [#inst] alone on a line, a fresh
    scanner emits no token for the tag and keeps it pending, with its raw
    text and offset, in the state it returns.  A token produced while a
    reader token is pending, whose raw text does not end in a double quote
    and whose type is none of reader, ws and comment, is emitted merged
    (pending raw, newline, its own raw, at the pending offset), and the
    pending token is cleared; so the symbol [x] on the next line comes out
    as [#inst], newline, [x] at offset 0.  A string is never one token:
    [\x222020-01-01\x22] is scanned as an opening quote, a chunk and a
    closing quote. *)
Theorem reader_merge (ml : nat) :
  12 <= ml ->
  (exists tks1 sc1 h1,
     processLine (new_Scanner ml empty_heap).1 line_inst None
       (new_Scanner ml empty_heap).2 = Ok (tks1, sc1, h1) /\
     view tks1 = [ ("eol", [NEWLINE], 5) ] /\
     retained sc1 h1 =
       Some {| inStringV := false; currentReaderTokenV := Some (inst_token 0) |} /\
     exists tks2 sc2 h2,
       processLine sc1 (lit "x") None h1 = Ok (tks2, sc2, h2) /\
       view tks2 = [ ("id", line_inst ++ [NEWLINE] ++ lit "x", 0);
                     ("eol", [NEWLINE], 1) ] /\
       retained sc2 h2 =
         Some {| inStringV := false; currentReaderTokenV := None |}) /\
  (forall line st l tk h s r p,
     states h !! st = Some s -> currentReaderToken s = Some r ->
     tokens h !! r = Some p ->
     test string_delimiter (raw tk) = false ->
     type tk <> "reader" -> type tk <> "ws" -> type tk <> "comment" ->
     processToken ml line st l tk h =
     Ok (st, l,
         Some {| token := {| type := type tk;
                             raw := raw p ++ [NEWLINE] ++ raw tk;
                             offset := offset p |};
                 state := st |},
         {| states := <[st := {| inString := inString s;
                                 currentReaderToken := None |}]> (states h);
            tokens := tokens h |})) /\
  (exists tks sc h,
     processLine (new_Scanner ml empty_heap).1 line_date None
       (new_Scanner ml empty_heap).2 = Ok (tks, sc, h) /\
     view tks = [ ("open", [DQUOTE], 0); ("str-inside", lit "2020-01-01", 1);
                  ("close", [DQUOTE], 11); ("eol", [NEWLINE], 12) ]).
Proof.
  intros Hml. split; [|split].
  - do 3 eexists. split; [run_line 12|]. split; [vm_compute; reflexivity|].
    split; [vm_compute; reflexivity|].
    do 3 eexists. split; [run_line 12|]. vm_compute. auto.
  - intros line st l tk h s r p Hs Hr Hp Hq H1 H2 H3.
    unfold processToken. rewrite Hq.
    apply String.eqb_neq in H1, H2, H3. rewrite H1.
    unfold get_state. rewrite Hs. cbn. rewrite Hr.
    unfold get_token. rewrite Hp. cbn. rewrite H2, H3. cbn.
    unfold set_state, get_state. rewrite Hs. reflexivity.
  - do 3 eexists. split; [run_line 12|]. vm_compute. reflexivity.
Qed.

Lemma reader_merge_witness :
  (exists tks1 sc1 h1,
     processLine (new_Scanner 12 empty_heap).1 line_inst None
       (new_Scanner 12 empty_heap).2 = Ok (tks1, sc1, h1) /\
     retained sc1 h1 =
       Some {| inStringV := false; currentReaderTokenV := Some (inst_token 0) |}) /\
  processToken 12 (lit "x") 0 (lex Grammar.toplevel (lit "x") 12)
    {| type := "id"; raw := lit "x"; offset := 0 |}
    {| states := [{| inString := false; currentReaderToken := Some 0 |}];
       tokens := [inst_token 0] |}
  = Ok (0, lex Grammar.toplevel (lit "x") 12,
        Some {| token := {| type := "id";
                            raw := line_inst ++ [NEWLINE] ++ lit "x";
                            offset := 0 |};
                state := 0 |},
        {| states := [{| inString := false; currentReaderToken := None |}];
           tokens := [inst_token 0] |}).
Proof.
  destruct (reader_merge 12 (le_n 12)) as (Hex & Hstep & _). split.
  - destruct Hex as (tks1 & sc1 & h1 & E1 & _ & Hr & _). eauto.
  - exact (Hstep (lit "x") 0 (lex Grammar.toplevel (lit "x") 12)
             {| type := "id"; raw := lit "x"; offset := 0 |}
             {| states := [{| inString := false; currentReaderToken := Some 0 |}];
                tokens := [inst_token 0] |}
             {| inString := false; currentReaderToken := Some 0 |}
             0 (inst_token 0) eq_refl eq_refl eq_refl eq_refl
             ltac:(discriminate) ltac:(discriminate) ltac:(discriminate)).
Defined.

(** C9 (the code at the failing input). A tag pending when a string
    opens: after the lines [#inst] and [\x22] the retained state is inside
    a string and still holds the pending reader token. *)
Theorem both_flags_set (ml : nat) :
  5 <= ml ->
  exists tks1 sc1 h1 tks2 sc2 h2,
    processLine (new_Scanner ml empty_heap).1 line_inst None
      (new_Scanner ml empty_heap).2 = Ok (tks1, sc1, h1) /\
    processLine sc1 [DQUOTE] None h1 = Ok (tks2, sc2, h2) /\
    retained sc2 h2 =
      Some {| inStringV := true; currentReaderTokenV := Some (inst_token 0) |}.
Proof.
  intros Hml. do 6 eexists.
  split; [run_line 5|]. split; [run_line 5|].
  vm_compute. reflexivity.
Qed.

Lemma both_flags_set_witness :
  exists tks1 sc1 h1 tks2 sc2 h2,
    processLine (new_Scanner 5 empty_heap).1 line_inst None
      (new_Scanner 5 empty_heap).2 = Ok (tks1, sc1, h1) /\
    processLine sc1 [DQUOTE] None h1 = Ok (tks2, sc2, h2) /\
    retained sc2 h2 =
      Some {| inStringV := true; currentReaderTokenV := Some (inst_token 0) |}.
Proof. exact (both_flags_set 5 (le_n 5)). Defined.

(** C8 (the code at the failing input). The state passed to processLine
    is written in place: two calls in a row on the line [a #inst] with the
    same state object, the initial state of a fresh scanner, give
    different tokens, the first call having left its reader token in that
    object. *)
Theorem state_argument_mutated (ml : nat) :
  7 <= ml ->
  exists tks1 sc1 h1 tks2 sc2 h2,
    processLine (new_Scanner ml empty_heap).1 line_a_inst (Some 0)
      (new_Scanner ml empty_heap).2 = Ok (tks1, sc1, h1) /\
    processLine sc1 line_a_inst (Some 0) h1 = Ok (tks2, sc2, h2) /\
    state_value (new_Scanner ml empty_heap).2 0 =
      Some {| inStringV := false; currentReaderTokenV := None |} /\
    state_value h1 0 =
      Some {| inStringV := false; currentReaderTokenV := Some (inst_token 2) |} /\
    view tks1 = [ ("id", lit "a", 0); ("ws", lit " ", 1); ("eol", [NEWLINE], 7) ] /\
    view tks2 = [ ("id", line_inst ++ [NEWLINE] ++ lit "a", 2);
                  ("ws", lit " ", 1); ("eol", [NEWLINE], 7) ] /\
    view tks1 <> view tks2.
Proof.
  intros Hml. do 6 eexists.
  split; [run_line 7|]. split; [run_line 7|].
  vm_compute. repeat split; discriminate.
Qed.

Lemma state_argument_mutated_witness :
  exists tks1 sc1 h1 tks2 sc2 h2,
    processLine (new_Scanner 7 empty_heap).1 line_a_inst (Some 0)
      (new_Scanner 7 empty_heap).2 = Ok (tks1, sc1, h1) /\
    processLine sc1 line_a_inst (Some 0) h1 = Ok (tks2, sc2, h2) /\
    view tks1 <> view tks2.
Proof.
  destruct (state_argument_mutated 7 (le_n 7))
    as (tks1 & sc1 & h1 & tks2 & sc2 & h2 & H1 & H2 & _ & _ & _ & _ & H3).
  exists tks1, sc1, h1, tks2, sc2, h2. auto.
Defined.

(** C5 (the code at the failing input). No rule of the toplevel grammar
    matches U+2028 or U+2029, the catch-all [.] refusing line terminators:
    on a line that starts with U+2028 the scan stops at once, and
    processLine returns the end-of-line token alone, with no junk token. *)
Theorem line_separator_unclassified (ml : nat) (rest : str) :
  first_match Grammar.toplevel (LS :: rest) 0 = None /\
  first_match Grammar.toplevel (PS :: rest) 0 = None /\
  exists tks sc h,
    processLine (new_Scanner ml empty_heap).1 (LS :: rest) None
      (new_Scanner ml empty_heap).2 = Ok (tks, sc, h) /\
    view tks = [ ("eol", [NEWLINE], S (length rest)) ].
Proof.
  assert (E : first_match Grammar.toplevel (LS :: rest) 0 = None)
    by (vm_compute; reflexivity).
  split; [exact E|]. split; [vm_compute; reflexivity|].
  assert (Es : scan (lex Grammar.toplevel (LS :: rest) ml)
               = (None, lex Grammar.toplevel (LS :: rest) ml)).
  { unfold scan. cbn [lex maxLength position rules source].
    destruct (ml <=? 0); [done|]. by rewrite E. }
  unfold processLine. cbn -[scan]. rewrite Es. cbn. eauto.
Qed.

(** ** validPair *)

(** C6. Bracket pairs: with a non-empty opening text, [validPair] holds
    exactly when the last character of the opening text and the closing
    character are one of the four pairs; a closing text that is not one of
    the four closers is refused. *)
Theorem validPair_spec :
  (forall (pre : str) (o c : char),
     validPair (pre ++ [o]) [c] = true <-> bracket_pair o c) /\
  (forall open close : str,
     validPair open close = true ->
     close = lit ")" \/ close = lit "]" \/ close = lit "}" \/ close = [DQUOTE]) /\
  validPair (lit "(") (lit ")") = true /\
  validPair (lit "'(") (lit ")") = true /\
  validPair (lit "(") (lit "]") = false /\
  validPair [DQUOTE] [DQUOTE] = true.
Proof.
  split; [|split; [|by vm_compute]].
  - intros pre o c. unfold validPair, last_char, bracket_pair. rewrite last_snoc.
    change (lit ")") with [41%N]. change (lit "]") with [93%N].
    change (lit "}") with [125%N]. unfold DQUOTE.
    repeat case_bool_decide; split; intros Hx; try discriminate;
      intuition congruence.
  - intros open close. unfold validPair.
    repeat case_bool_decide; auto. discriminate.
Qed.

(** C10. The empty opening text: [validPair] returns false whatever the
    closing text, the last character of the empty string being undefined. *)
Theorem validPair_empty (close : str) :
  last_char [] = None /\ validPair [] close = false.
Proof.
  split; [reflexivity|]. unfold validPair, last_char. simpl.
  repeat case_bool_decide; done.
Qed.

(** ** The heap model refines the function of the state value *)

Lemma state_value_Some h st v :
  state_value h st = Some v ->
  exists s, states h !! st = Some s /\ inStringV v = inString s /\
    match currentReaderToken s with
    | Some r => exists t, tokens h !! r = Some t /\ currentReaderTokenV v = Some t
    | None => currentReaderTokenV v = None
    end.
Proof.
  unfold state_value. destruct (states h !! st) as [s|]; [|done]. simpl.
  intros H. exists s. split; [done|].
  destruct (currentReaderToken s) as [r|].
  - destruct (tokens h !! r) as [t|]; [|done]. simpl in H.
    injection H as <-. simpl. eauto.
  - injection H as <-. done.
Qed.

Lemma state_value_heap_ok h st v : state_value h st = Some v -> heap_ok h st.
Proof.
  intros (s & Hs & _ & Hr)%state_value_Some. exists s. split; [done|].
  intros r Er. rewrite Er in Hr. destruct Hr as (t & -> & _). eauto.
Qed.

Lemma heap_ok_state_value h st : heap_ok h st -> is_Some (state_value h st).
Proof.
  intros (s & Hs & Hr). unfold state_value. rewrite Hs. simpl.
  destruct (currentReaderToken s) as [r|]; [|eauto].
  destruct (Hr r eq_refl) as [t ->]. simpl. eauto.
Qed.

Lemma processToken_refines ml line st l tk h v :
  state_value h st = Some v ->
  exists st' pushed h',
    processToken ml line st l tk h
    = Ok (st', (pure_processToken ml line v l tk).1.2, pushed, h') /\
    token <$> pushed = (pure_processToken ml line v l tk).2 /\
    state_value h' st' = Some (pure_processToken ml line v l tk).1.1.
Proof.
  intros Hv. destruct (state_value_Some _ _ _ Hv) as (s & Hs & Hi & Hr).
  assert (Hst : st < length (states h)) by by apply lookup_lt_Some in Hs.
  destruct v as [b p]. simpl in Hi, Hr. subst b.
  unfold processToken, pure_processToken, get_state. simpl.
  destruct (test string_delimiter (raw tk)).
  { destruct (type tk =? "open")%string; [|destruct (type tk =? "close")%string];
      rewrite ?Hs; simpl; do 3 eexists; (split; [reflexivity|]);
      (split; [reflexivity|]); simpl; [| |done].
    - unfold state_value. simpl. rewrite list_lookup_middle by done. simpl.
      destruct (currentReaderToken s) as [r|]; [|by rewrite Hr].
      destruct Hr as (t & -> & ->). done.
    - unfold state_value. simpl. rewrite list_lookup_middle by done. simpl.
      destruct (currentReaderToken s) as [r|]; [|by rewrite Hr].
      destruct Hr as (t & -> & ->). done. }
  destruct (type tk =? "reader")%string.
  { rewrite Hs. simpl. unfold set_state, get_state. simpl. rewrite Hs. simpl.
    do 3 eexists. split; [reflexivity|]. split; [reflexivity|].
    unfold state_value. simpl. rewrite list_lookup_insert_eq by done. simpl.
    rewrite list_lookup_middle by done. done. }
  rewrite Hs. simpl. destruct (currentReaderToken s) as [r|] eqn:Er.
  - destruct Hr as (t & Ht & ->). unfold get_token. rewrite Ht. simpl.
    assert (Hrt : r < length (tokens h)) by by apply lookup_lt_Some in Ht.
    destruct ((type tk =? "ws")%string || (type tk =? "comment")%string).
    + unfold set_token, get_token. rewrite Ht. simpl.
      do 3 eexists. split; [reflexivity|]. split; [reflexivity|].
      unfold state_value. simpl. rewrite Hs. simpl. rewrite Er.
      rewrite list_lookup_insert_eq by done. done.
    + unfold set_state, get_state. rewrite Hs. simpl.
      do 3 eexists. split; [reflexivity|]. split; [reflexivity|].
      unfold state_value. simpl. rewrite list_lookup_insert_eq by done. done.
  - subst p. do 3 eexists. split; [reflexivity|]. split; [reflexivity|]. done.
Qed.

Lemma scanLoop_refines ml line : forall fuel st l tks h v,
  state_value h st = Some v ->
  match pure_scanLoop fuel ml line v l (List.map token tks) with
  | Ok (vtks, v') =>
      exists tks' st' h',
        scanLoop fuel ml line st l tks h = Ok (tks', st', h') /\
        List.map token tks' = vtks /\ state_value h' st' = Some v'
  | Throw => False
  | Diverge => scanLoop fuel ml line st l tks h = Diverge
  end.
Proof.
  induction fuel as [|fuel IH]; intros st l tks h v Hv; [done|].
  simpl. destruct (scan l) as [[tk|] l1]; [|by exists tks, st, h].
  destruct (processToken_refines ml line st l1 tk h v Hv)
    as (st' & pushed & h' & -> & Hp & Hv').
  destruct (pure_processToken ml line v l1 tk) as [[v' l2] vp]. simpl in *.
  specialize (IH st' l2 (tks ++ from_option (fun t => [t]) [] pushed) h' v' Hv').
  rewrite List.map_app in IH.
  replace (List.map token (from_option (fun t => [t]) [] pushed))
    with (from_option (fun t : LexerToken => [t]) [] vp) in IH
    by (subst vp; by destruct pushed).
  exact IH.
Qed.

(** A call of processLine on a state object of value [v] does what the
    function of the state value does: the same tokens, and a retained
    state of the value it returns. *)
Lemma processLine_refines this line state h v :
  state_value h (default (this_state this) state) = Some v ->
  exists vtks v' tks this' h',
    pure_processLine (this_maxLength this) line v = Ok (vtks, v') /\
    processLine this line state h = Ok (tks, this', h') /\
    List.map token tks = vtks /\ retained this' h' = Some v' /\
    this_maxLength this' = this_maxLength this.
Proof.
  intros Hv. destruct (state_value_Some _ _ _ Hv) as (s & Hs & Hi & _).
  pose proof (state_value_heap_ok _ _ _ Hv) as Hok.
  unfold processLine, pure_processLine, get_state. rewrite Hs, Hi.
  cbn -[scanLoop pure_scanLoop].
  set (l0 := lex _ line _).
  pose proof (scanLoop_refines (this_maxLength this) line (S (length line))
                _ l0 [] h v Hv) as Href.
  destruct (scanLoop_total (this_maxLength this) line (S (length line))
              (default (this_state this) state) l0 [] h)
    as (tks & st' & h' & E & _); [simpl; lia|done| |].
  { split; [done|]. split; [destruct (inString s); auto|simpl; lia]. }
  change (List.map token []) with (@nil LexerToken) in Href.
  destruct (pure_scanLoop _ _ _ _ _ _) as [[vtks v']| |]; [|done|congruence].
  destruct Href as (tks' & st'' & h'' & E' & Ht & Hv').
  rewrite E'. cbn. do 5 eexists. split; [reflexivity|]. split; [reflexivity|].
  split; [|done]. rewrite List.map_app, Ht. done.
Qed.

(** ** Full coverage *)

Lemma tiled_app a b c tks1 tks2 :
  tiled a tks1 b -> tiled b tks2 c -> tiled a (tks1 ++ tks2) c.
Proof.
  revert a. induction tks1 as [|t tks1 IH]; simpl; intros a.
  - by intros ->.
  - intros [Ho Ht] H2. split; [done|]. by apply IH.
Qed.

Lemma tiled_consecutive tks : forall a b i t1 t2,
  tiled a tks b -> tks !! i = Some t1 -> tks !! S i = Some t2 ->
  offset t1 + length (raw t1) = offset t2.
Proof.
  induction tks as [|t tks IH]; intros a b i t1 t2 Ht H1 H2; [done|].
  destruct Ht as [Ho Ht]. destruct i as [|i].
  - simpl in H1, H2. injection H1 as ->.
    destruct tks as [|t' tks]; [done|]. simpl in H2. injection H2 as ->.
    destruct Ht as [-> _]. lia.
  - simpl in H1, H2. eapply IH; eauto.
Qed.

(** The rule behind a scanned token. *)
Lemma scan_rule line l tk l' :
  lex_ok line l -> scan l = (Some tk, l') ->
  exists rl n, In rl (rules l) /\
               In n (matches (pattern rl) line (position l)) /\
               type tk = classifier rl (raw tk).
Proof.
  intros (Hsrc & _ & _). unfold scan.
  destruct (maxLength l <=? position l); [discriminate|].
  destruct (first_match _ _ _) as [[rl n]|] eqn:E; [|discriminate].
  intros [= <- <-]. simpl.
  apply first_match_Some in E as [Hin E]. apply exec_at_In in E.
  rewrite Hsrc in E. eauto.
Qed.

Lemma rule_in_tables line l rl :
  lex_ok line l -> In rl (rules l) ->
  In rl Grammar.toplevel \/ In rl Grammar.inString.
Proof. intros (_ & [-> | ->] & _); auto. Qed.

(** No rule makes an end-of-line token, and only the rule of the data
    readers makes a reader token. *)
Lemma rule_types rl m :
  In rl Grammar.toplevel \/ In rl Grammar.inString ->
  classifier rl m <> "eol" /\
  (classifier rl m = "reader" -> pattern rl = reader_tag).
Proof.
  unfold Grammar.toplevel, Grammar.inString. simpl.
  intros [H|H];
    repeat (destruct H as [<-|H]; [simpl; split; [discriminate|]; try discriminate; auto|]);
    destruct H.
Qed.

Lemma reader_tag_hash s p n :
  In n (matches reader_tag s p) -> s !! p = Some HASH.
Proof.
  unfold reader_tag. intros H. cbn [matches] in H.
  apply in_flat_map in H as (k & H & _).
  destruct (s !! p) as [d|]; [|destruct H].
  destruct (d =? HASH)%N eqn:E; [|destruct H].
  apply N.eqb_eq in E. by subst.
Qed.

Lemma scan_type line l tk l' :
  lex_ok line l -> scan l = (Some tk, l') ->
  type tk <> "eol" /\ (type tk = "reader" -> line !! position l = Some HASH).
Proof.
  intros Hok Hs. destruct (scan_rule _ _ _ _ Hok Hs) as (rl & n & Hin & Hm & ->).
  destruct (rule_types rl (raw tk) (rule_in_tables _ _ _ Hok Hin)) as [H1 H2].
  split; [done|]. intros Hr. apply H2 in Hr. rewrite Hr in Hm.
  by apply reader_tag_hash in Hm.
Qed.

(** *** The scan goes on to the end of the line *)

Lemma plus_matches r s p :
  matches r s p <> [] -> matches (Plus r) s p <> [].
Proof.
  cbn [matches]. destruct (matches r s p) as [|n ns]; [done|]. intros _.
  cbn [flat_map]. pose proof (star_loop_nonempty (matches r s) (length s - (p + n)) (p + n)).
  destruct (star_loop _ _ _); done.
Qed.

Ltac in_table := simpl; repeat (first [left; reflexivity | right]).

Lemma toplevel_progress s p c :
  s !! p = Some c -> is_line_terminator c = false ->
  is_Some (first_match Grammar.toplevel s p).
Proof.
  intros Hc Ht.
  apply (first_match_is_Some _ _ _ {| pattern := Dot; classifier := fun _ => "junk" |}).
  - unfold Grammar.toplevel. in_table.
  - cbn [pattern matches]. by rewrite Hc, Ht.
Qed.

Lemma inString_progress s p c :
  s !! p = Some c -> is_line_terminator c = false ->
  (c = BACKSLASH -> exists d, s !! (p + 1) = Some d /\ is_line_terminator d = false) ->
  is_Some (first_match Grammar.inString s p).
Proof.
  intros Hc Ht Hb.
  destruct (decide (c = DQUOTE)) as [->|Hq].
  { apply (first_match_is_Some _ _ _ {| pattern := Chr DQUOTE;
                                         classifier := fun _ => "close" |}).
    - unfold Grammar.inString. in_table.
    - cbn [pattern matches]. by rewrite Hc. }
  destruct (decide (c = 9%N \/ c = 32%N)) as [Hw|Hw].
  { apply (first_match_is_Some _ _ _
             {| pattern := Plus (Cls false [One 9%N; One 32%N]);
                classifier := fun _ => "ws" |}).
    - unfold Grammar.inString. in_table.
    - cbn [pattern]. apply plus_matches. cbn [matches]. rewrite Hc.
      destruct Hw as [-> | ->]; done. }
  apply (first_match_is_Some _ _ _
           {| pattern :=
                Plus (Alt (Seq (Chr BACKSLASH) Dot)
                          (Cls true [One BACKSLASH; One DQUOTE; One 9%N; One CR;
                                     One NEWLINE; One 32%N]));
              classifier := fun _ => "str-inside" |}).
  { unfold Grammar.inString. in_table. }
  cbn [pattern].
  apply plus_matches. cbn [matches]. rewrite Hc.
  destruct (decide (c = BACKSLASH)) as [->|Hbs].
  - rewrite N.eqb_refl. cbn [flat_map].
    destruct (Hb eq_refl) as (d & -> & ->). done.
  - unfold is_line_terminator in Ht.
    apply orb_false_iff in Ht as [Ht _]. apply orb_false_iff in Ht as [Ht _].
    apply orb_false_iff in Ht as [H10 H13].
    apply N.eqb_neq in H10, H13.
    assert (Hx : existsb (item_has c)
                   [One BACKSLASH; One DQUOTE; One 9%N; One CR; One NEWLINE; One 32%N]
                 = false).
    { cbn [existsb item_has].
      repeat (rewrite (proj2 (N.eqb_neq _ _)) by (unfold BACKSLASH, DQUOTE, CR, NEWLINE in *; tauto)).
      done. }
    rewrite Hx. destruct (c =? BACKSLASH)%N eqn:E; [by apply N.eqb_eq in E|]. done.
Qed.

(** A token that is not a reader token, met with no reader token pending,
    is pushed as it is. *)
Lemma pure_processToken_plain ml line v l tk :
  currentReaderTokenV v = None -> type tk <> "reader" -> lex_ok line l ->
  exists v' l',
    pure_processToken ml line v l tk = (v', l', Some tk) /\
    currentReaderTokenV v' = None /\ lex_ok line l' /\
    position l' = position l /\
    (maxLength l' = maxLength l \/ maxLength l' = ml).
Proof.
  intros Hv Ht Hl. unfold pure_processToken.
  apply String.eqb_neq in Ht. rewrite Ht, Hv.
  assert (Hlex : forall g, g = Grammar.toplevel \/ g = Grammar.inString ->
                 lex_ok line (set_position (lex g line ml) (position l))).
  { intros g Hg. destruct Hl as (_ & _ & Hp). by repeat split. }
  repeat case_match; do 2 eexists; (split; [reflexivity|]); simpl; auto 6.
Qed.

(** *** The end-of-line token comes last, and only there *)

Lemma pure_processToken_lex ml line v l tk v' l' pushed :
  pure_processToken ml line v l tk = (v', l', pushed) ->
  lex_ok line l -> lex_ok line l'.
Proof.
  intros E Hok.
  assert (Hlex : forall g, g = Grammar.toplevel \/ g = Grammar.inString ->
                 lex_ok line (set_position (lex g line ml) (position l))).
  { intros g Hg. destruct Hok as (_ & _ & Hp). by repeat split. }
  unfold pure_processToken in E. repeat case_match; simplify_eq; auto.
Qed.


Lemma pure_processToken_type ml line v l tk v' l' t :
  pure_processToken ml line v l tk = (v', l', Some t) -> type t = type tk.
Proof.
  unfold pure_processToken. intros E. by repeat case_match; simplify_eq.
Qed.

Lemma pure_scanLoop_no_eol ml line : forall fuel v l tks tks' v',
  lex_ok line l -> (forall t, In t tks -> type t <> "eol") ->
  pure_scanLoop fuel ml line v l tks = Ok (tks', v') ->
  forall t, In t tks' -> type t <> "eol".
Proof.
  induction fuel as [|fuel IH]; intros v l tks tks' v' Hl Hall; [done|].
  simpl. destruct (scan l) as [[tk|] l1] eqn:Es; [|by intros [= <- <-]].
  destruct (scan_Some _ _ _ _ Hl Es) as (n & _ & _ & _ & _ & _ & _ & Hl1 & _).
  destruct (scan_type _ _ _ _ Hl Es) as [Heol _].
  destruct (pure_processToken ml line v l1 tk) as [[v1 l2] pushed] eqn:Ep.
  apply IH; [by eapply pure_processToken_lex|].
  intros t [Hin|Hin]%in_app_iff; [auto|].
  destruct pushed as [t'|]; [|destruct Hin]. destruct Hin as [<-|[]].
  by rewrite (pure_processToken_type _ _ _ _ _ _ _ _ Ep).
Qed.

Lemma pure_processLine_eol ml line v tks v' :
  pure_processLine ml line v = Ok (tks, v') ->
  exists init, tks = init ++ [eol_token line] /\
               forall t, In t init -> type t <> "eol".
Proof.
  unfold pure_processLine.
  destruct (pure_scanLoop _ _ _ _ _ _) as [[tks0 v0]| |] eqn:E; [|done..].
  intros [= <- <-]. exists tks0. split; [done|].
  eapply (pure_scanLoop_no_eol ml line); [| |exact E].
  - split; [done|]. split; [destruct (inStringV v); auto|simpl; lia].
  - intros t [].
Qed.

(** *** Lines on which no reader token is scanned *)

Lemma pure_processToken_position ml line v l tk v' l' pushed :
  pure_processToken ml line v l tk = (v', l', pushed) -> position l' = position l.
Proof.
  unfold pure_processToken. intros E. by repeat case_match; simplify_eq.
Qed.

Lemma pure_processToken_cap ml line v l tk v' l' pushed :
  pure_processToken ml line v l tk = (v', l', pushed) ->
  maxLength l = ml -> maxLength l' = ml.
Proof.
  unfold pure_processToken. intros E. by repeat case_match; simplify_eq.
Qed.

(** Where the scan of a call ends: at the length cap, or where the
    grammar in use, one of the two, has no rule (as it is at the end of
    the line). *)
Lemma pure_scanTrace_end ml line : forall fuel v l,
  lex_ok line l -> maxLength l = ml -> length line - position l < fuel ->
  ml <= (pure_scanTrace fuel ml line v l).2 \/
  first_match Grammar.toplevel line (pure_scanTrace fuel ml line v l).2 = None \/
  first_match Grammar.inString line (pure_scanTrace fuel ml line v l).2 = None.
Proof.
  induction fuel as [|fuel IH]; intros v l Hl Hm Hf; [lia|].
  simpl. destruct (scan l) as [[tk|] l1] eqn:Es.
  - destruct (scan_Some _ _ _ _ Hl Es) as (n & Hn & Hb & _ & _ & _ & El1 & Hl1 & _).
    destruct (pure_processToken ml line v l1 tk) as [[v1 l2] pushed] eqn:Ep.
    assert (Hm1 : maxLength l1 = ml) by (by rewrite El1).
    pose proof (pure_processToken_position _ _ _ _ _ _ _ _ Ep) as Hp.
    pose proof (pure_processToken_cap _ _ _ _ _ _ _ _ Ep Hm1) as Hm2.
    pose proof (pure_processToken_lex _ _ _ _ _ _ _ _ Ep Hl1) as Hl2.
    specialize (IH v1 l2 Hl2 Hm2).
    destruct (pure_scanTrace fuel ml line v1 l2) as [trace e]. simpl in *.
    apply IH. rewrite Hp, El1. simpl. lia.
  - simpl. unfold scan in Es. destruct Hl as (Hsrc & Hr & _).
    destruct (Nat.leb_spec (maxLength l) (position l)) as [Hcap|_]; [left; lia|].
    right. rewrite Hsrc in Es.
    destruct (first_match (rules l) line (position l)) as [[rl n]|] eqn:Ef;
      [done|].
    destruct Hr as [Hr|Hr]; rewrite Hr in Ef; auto.
Qed.

(** With no reader token pending and none scanned, the tokens pushed are
    the tokens scanned, and they tile the line up to the position where
    the scan ends. *)
Lemma pure_scanLoop_plain ml line : forall fuel v l tks,
  lex_ok line l -> currentReaderTokenV v = None ->
  length line - position l < fuel ->
  (forall t, In t (pure_scanTrace fuel ml line v l).1 -> type t <> "reader") ->
  tiled 0 tks (position l) ->
  concat (List.map raw tks) = take (position l) line ->
  exists v',
    pure_scanLoop fuel ml line v l tks
    = Ok (tks ++ (pure_scanTrace fuel ml line v l).1, v') /\
    tiled 0 (tks ++ (pure_scanTrace fuel ml line v l).1)
      (pure_scanTrace fuel ml line v l).2 /\
    concat (List.map raw (tks ++ (pure_scanTrace fuel ml line v l).1))
    = take (pure_scanTrace fuel ml line v l).2 line /\
    (pure_scanTrace fuel ml line v l).2 <= length line.
Proof.
  induction fuel as [|fuel IH]; intros v l tks Hl Hv Hf Hnr Ht Hc; [lia|].
  simpl in *. destruct (scan l) as [[tk|] l1] eqn:Es.
  - destruct (scan_Some _ _ _ _ Hl Es)
      as (n & Hn & Hb & Hraw & Hlen & Hoff & El1 & Hl1 & _).
    destruct (pure_processToken ml line v l1 tk) as [[v1 l2] pushed] eqn:Ep.
    destruct (pure_scanTrace fuel ml line v1 l2) as [trace e] eqn:Et.
    simpl in *.
    assert (Htk : type tk <> "reader") by (apply Hnr; by left).
    destruct (pure_processToken_plain ml line v l1 tk Hv Htk Hl1)
      as (v' & l' & Ep' & Hv' & Hl' & Hp' & _).
    rewrite Ep in Ep'. injection Ep' as <- <- ->.
    assert (Hpos : position l2 = position l + n) by (rewrite Hp', El1; done).
    destruct (IH v1 l2 (tks ++ [tk]) Hl' Hv') as (v2 & E & Ht2 & Hc2 & He).
    + lia.
    + rewrite Et. simpl. intros t Hin. apply Hnr. by right.
    + rewrite Hpos. apply (tiled_app _ (position l)); [done|].
      simpl. split; [done|lia].
    + rewrite Hpos, List.map_app, concat_app, Hc. simpl.
      rewrite app_nil_r, Hraw. apply take_take_drop.
    + rewrite Et in *. simpl in *. rewrite <- app_assoc in *. simpl in *. eauto.
  - simpl. rewrite app_nil_r. destruct Hl as (_ & _ & Hp). eauto.
Qed.

Lemma pure_processLine_plain ml line v :
  currentReaderTokenV v = None ->
  (forall t, In t (scanned ml line v).1 -> type t <> "reader") ->
  exists v',
    pure_processLine ml line v
    = Ok ((scanned ml line v).1 ++ [eol_token line], v') /\
    tiled 0 (scanned ml line v).1 (scanned ml line v).2 /\
    concat (List.map raw (scanned ml line v).1) = take (scanned ml line v).2 line /\
    (scanned ml line v).2 <= length line.
Proof.
  intros Hv Hnr. unfold pure_processLine.
  destruct (pure_scanLoop_plain ml line (S (length line)) v
              (lex (if inStringV v then Grammar.inString else Grammar.toplevel)
                 line ml) [])
    as (v' & E & Ht & Hc & He); try done.
  - split; [done|]. split; [destruct (inStringV v); auto|simpl; lia].
  - simpl. lia.
  - exists v'. rewrite E. done.
Qed.




(** ** Resuming from a captured state *)

Lemma view_map_token tks :
  view tks = List.map (fun t => (type t, raw t, offset t)) (List.map token tks).
Proof. unfold view. by rewrite List.map_map. Qed.

(** C2. Resumability: after a first line, the tokens of a second line fed
    to the same scanner (on its retained state) are, in type, raw text and
    offset, those of an independent call of processLine on the second line
    with the state reached after the first one, whichever scanner object
    (of the same length cap) makes that call and wherever a state object
    of that value lives; the states reached are the same as well. *)
Theorem resumable this L1 L2 s0 h0 tks1 this1 h1 tks2 this2 h2 :
  heap_ok h0 s0 ->
  processLine this L1 (Some s0) h0 = Ok (tks1, this1, h1) ->
  processLine this1 L2 None h1 = Ok (tks2, this2, h2) ->
  forall other h s1,
    this_maxLength other = this_maxLength this ->
    state_value h s1 = retained this1 h1 ->
    exists tks other' h',
      processLine other L2 (Some s1) h = Ok (tks, other', h') /\
      view tks = view tks2 /\
      retained other' h' = retained this2 h2.
Proof.
  intros Hok E1 E2 other h s1 Hml Hs1.
  destruct (heap_ok_state_value _ _ Hok) as [v0 Hv0].
  destruct (processLine_refines this L1 (Some s0) h0 v0 Hv0)
    as (vtks1 & v1 & tks1' & this1' & h1' & _ & E1' & _ & Hv1 & Hml1).
  rewrite E1 in E1'. injection E1' as <- <- <-.
  destruct (processLine_refines this1 L2 None h1 v1 Hv1)
    as (vtks2 & v2 & tks2' & this2' & h2' & Ep & E2' & Ht2 & Hv2 & _).
  rewrite E2 in E2'. injection E2' as <- <- <-.
  rewrite Hv1 in Hs1.
  destruct (processLine_refines other L2 (Some s1) h v1 Hs1)
    as (vtks & v' & tks & other' & h' & Ep' & E & Ht & Hv' & _).
  rewrite Hml, <- Hml1, Ep in Ep'. injection Ep' as <- <-.
  exists tks, other', h'. split; [done|]. split; [|congruence].
  by rewrite !view_map_token, Ht, Ht2.
Qed.

Lemma resumable_witness :
  exists tks other' h',
    processLine (scanner 0 20) line_world (Some 0)
      {| states := [{| inString := true; currentReaderToken := None |}];
         tokens := [] |} = Ok (tks, other', h') /\
    view tks = [ ("str-inside", lit "world", 0); ("close", [DQUOTE], 5);
                 ("close", lit ")", 6); ("eol", [NEWLINE], 7) ].
Proof.
  destruct (resumable (new_Scanner 20 empty_heap).1 line_println_hello line_world
              0 (new_Scanner 20 empty_heap).2
              _ _ _ _ _ _
              ltac:(eexists; split; [reflexivity|discriminate])
              ltac:(vm_compute; reflexivity) ltac:(vm_compute; reflexivity)
              (scanner 0 20)
              {| states := [{| inString := true; currentReaderToken := None |}];
                 tokens := [] |}
              0 eq_refl eq_refl)
    as (tks & other' & h' & E & Hv & _).
  exists tks, other', h'. split; [exact E|]. rewrite Hv. reflexivity.
Defined.

(** ** First and last characters of a match *)

Lemma star_loop_starts (m : nat -> list nat) (P : nat -> Prop) fuel p n :
  (forall k, In k (m p) -> 0 < k -> P p) ->
  In n (star_loop m fuel p) -> 0 < n -> P p.
Proof.
  intros Hm. rewrite star_loop_eq. intros H Hn.
  apply in_app_iff in H as [H|[<-|[]]]; [|lia].
  apply in_flat_map in H as (k & Hk & H). destruct fuel; [done|].
  destruct (0 <? k) eqn:E; [|done]. apply Nat.ltb_lt in E. eauto.
Qed.

Lemma matches_starts r s : forall p n,
  In n (matches r s p) -> 0 < n -> exists c, s !! p = Some c /\ starts r c = true.
Proof.
  induction r as [c|neg items| | | |r1 IH1 r2 IH2|r1 IH1 r2 IH2|r IH|r IH|r IH|r IH];
    intros p n H Hn; simpl in H.
  - destruct (s !! p) as [d|]; [|destruct H]. exists d. split; [done|]. simpl.
    destruct (d =? c)%N; [done|destruct H].
  - destruct (s !! p) as [d|]; [|destruct H]. exists d. split; [done|]. simpl.
    destruct (xorb neg _); [done|destruct H].
  - destruct (s !! p) as [d|]; [|destruct H]. exists d. split; [done|]. simpl.
    destruct (is_line_terminator d); [destruct H|done].
  - destruct (p =? 0); in_inv. lia.
  - destruct (length s <=? p); in_inv. lia.
  - apply in_flat_map in H as (n1 & H1 & H).
    apply in_map_iff in H as (n2 & <- & H2).
    destruct (decide (0 < n1)) as [Hp|Hz].
    + destruct (IH1 _ _ H1 Hp) as (c & Hc & Hs). exists c. split; [done|].
      simpl. by rewrite Hs.
    + assert (n1 = 0) as -> by lia. rewrite Nat.add_0_r in H2.
      destruct (IH2 _ _ H2 ltac:(lia)) as (c & Hc & Hs).
      destruct (nullable r1) eqn:E.
      * exists c. split; [done|]. simpl. rewrite E, Hs. apply orb_true_r.
      * pose proof (matches_progress _ _ E _ _ H1). lia.
  - apply in_app_iff in H as [H|H].
    + destruct (IH1 _ _ H Hn) as (c & Hc & Hs). exists c. split; [done|].
      simpl. by rewrite Hs.
    + destruct (IH2 _ _ H Hn) as (c & Hc & Hs). exists c. split; [done|].
      simpl. rewrite Hs. apply orb_true_r.
  - eapply (star_loop_starts (matches r s)); [|exact H|exact Hn].
    intros k Hk Hp. exact (IH _ _ Hk Hp).
  - apply in_flat_map in H as (n1 & H1 & H).
    apply in_map_iff in H as (n2 & <- & H2).
    destruct (decide (0 < n1)) as [Hp|Hz]; [exact (IH _ _ H1 Hp)|].
    assert (n1 = 0) as -> by lia. rewrite Nat.add_0_r in H2.
    eapply (star_loop_starts (matches r s)); [|exact H2|lia].
    intros k Hk Hp. exact (IH _ _ Hk Hp).
  - apply in_app_iff in H as [H|[<-|[]]]; [exact (IH _ _ H Hn)|lia].
  - destruct (look_behind _ _); in_inv. lia.
Qed.

Lemma star_loop_ends (m : nat -> list nat) (s : str) (e : char -> bool) :
  (forall p k, In k (m p) -> 0 < k ->
               exists c, s !! (p + k - 1) = Some c /\ e c = true) ->
  forall fuel p n, In n (star_loop m fuel p) -> 0 < n ->
                   exists c, s !! (p + n - 1) = Some c /\ e c = true.
Proof.
  intros Hm. induction fuel as [|fuel IH]; intros p n; rewrite star_loop_eq;
    intros H Hn; apply in_app_iff in H as [H|[<-|[]]]; try lia;
    apply in_flat_map in H as (k & Hk & H); [done|].
  destruct (0 <? k) eqn:E; [|done]. apply Nat.ltb_lt in E.
  apply in_map_iff in H as (j & <- & Hj).
  destruct (decide (0 < j)) as [Hp|Hz].
  - destruct (IH _ _ Hj Hp) as (c & Hc & He). exists c. split; [|done].
    rewrite <- Hc. f_equal. lia.
  - assert (j = 0) as -> by lia. rewrite Nat.add_0_r. eauto.
Qed.

Lemma matches_ends r s : forall p n,
  In n (matches r s p) -> 0 < n ->
  exists c, s !! (p + n - 1) = Some c /\ ends r c = true.
Proof.
  induction r as [c|neg items| | | |r1 IH1 r2 IH2|r1 IH1 r2 IH2|r IH|r IH|r IH|r IH];
    intros p n H Hn; simpl in H.
  - destruct (s !! p) as [d|] eqn:Ed; [|destruct H].
    destruct (d =? c)%N eqn:E; in_inv. replace (p + 1 - 1) with p by lia. eauto.
  - destruct (s !! p) as [d|] eqn:Ed; [|destruct H].
    destruct (xorb neg _) eqn:E; in_inv. replace (p + 1 - 1) with p by lia. eauto.
  - destruct (s !! p) as [d|] eqn:Ed; [|destruct H].
    destruct (is_line_terminator d) eqn:E; in_inv.
    replace (p + 1 - 1) with p by lia. exists d. simpl. by rewrite E.
  - destruct (p =? 0); in_inv. lia.
  - destruct (length s <=? p); in_inv. lia.
  - apply in_flat_map in H as (n1 & H1 & H).
    apply in_map_iff in H as (n2 & <- & H2).
    destruct (decide (0 < n2)) as [Hp|Hz].
    + destruct (IH2 _ _ H2 Hp) as (c & Hc & He). exists c. split.
      * rewrite <- Hc. f_equal. lia.
      * simpl. by rewrite He.
    + assert (n2 = 0) as -> by lia. rewrite Nat.add_0_r in *.
      destruct (IH1 _ _ H1 Hn) as (c & Hc & He).
      destruct (nullable r2) eqn:E.
      * exists c. split; [done|]. simpl. rewrite E, He. apply orb_true_r.
      * pose proof (matches_progress _ _ E _ _ H2). lia.
  - apply in_app_iff in H as [H|H].
    + destruct (IH1 _ _ H Hn) as (c & Hc & He). exists c. split; [done|].
      simpl. by rewrite He.
    + destruct (IH2 _ _ H Hn) as (c & Hc & He). exists c. split; [done|].
      simpl. rewrite He. apply orb_true_r.
  - exact (star_loop_ends _ s (ends r) IH _ _ _ H Hn).
  - apply in_flat_map in H as (n1 & H1 & H).
    apply in_map_iff in H as (n2 & <- & H2).
    destruct (decide (0 < n2)) as [Hp|Hz].
    + destruct (star_loop_ends _ s (ends r) IH _ _ _ H2 Hp) as (c & Hc & He).
      exists c. split; [|done]. rewrite <- Hc. f_equal. lia.
    + assert (n2 = 0) as -> by lia. rewrite Nat.add_0_r in *.
      exact (IH _ _ H1 Hn).
  - apply in_app_iff in H as [H|[<-|[]]]; [exact (IH _ _ H Hn)|lia].
  - destruct (look_behind _ _); in_inv. lia.
Qed.

(** A rule whose pattern cannot start with the character at the cursor
    does not match. *)
Lemma exec_at_starts r s p c :
  s !! p = Some c -> starts r c = false -> nullable r = false ->
  exec_at r s p = None.
Proof.
  intros Hc Hs Hn. destruct (exec_at r s p) as [n|] eqn:E; [|done].
  apply exec_at_In in E. pose proof (matches_progress _ _ Hn _ _ E) as Hp.
  destruct (matches_starts _ _ _ _ E Hp) as (c' & Hc' & Hs'). congruence.
Qed.

(** A match of a rule ends with a character its pattern may end with. *)
Lemma exec_at_ends r s p n c :
  exec_at r s p = Some n -> nullable r = false ->
  s !! (p + n - 1) = Some c -> ends r c = true.
Proof.
  intros E Hn Hc. apply exec_at_In in E.
  pose proof (matches_progress _ _ Hn _ _ E) as Hp.
  destruct (matches_ends _ _ _ _ E Hp) as (c' & Hc' & He). congruence.
Qed.

(** ** Matching depends on the text from the cursor on *)

Lemma star_loop_shift (m1 m2 : nat -> list nat) p :
  (forall q, m1 (p + q) = m2 q) ->
  forall fuel q, star_loop m1 fuel (p + q) = star_loop m2 fuel q.
Proof.
  intros Hm. induction fuel as [|fuel IH]; intros q; rewrite !star_loop_eq, Hm;
    [done|].
  f_equal. apply flat_map_ext. intros n. destruct (0 <? n); [|done].
  by rewrite <- IH, Nat.add_assoc.
Qed.

Lemma matches_drop r s p :
  lookaround_free r = true ->
  forall q, matches r s (p + q) = matches r (drop p s) q.
Proof.
  induction r as [c|neg items| | | |r1 IH1 r2 IH2|r1 IH1 r2 IH2|r IH|r IH|r IH|r IH];
    simpl; intros Hf q; try discriminate; rewrite ?lookup_drop; try done.
  - rewrite length_drop.
    destruct (length s <=? p + q) eqn:E1; destruct (length s - p <=? q) eqn:E2;
      try done; [apply Nat.leb_le in E1; apply Nat.leb_gt in E2
                |apply Nat.leb_gt in E1; apply Nat.leb_le in E2]; lia.
  - apply andb_true_iff in Hf as [H1 H2]. rewrite (IH1 H1).
    apply flat_map_ext. intros n. by rewrite <- (IH2 H2), Nat.add_assoc.
  - apply andb_true_iff in Hf as [H1 H2]. by rewrite (IH1 H1), (IH2 H2).
  - rewrite length_drop.
    replace (length s - (p + q)) with (length s - p - q) by lia.
    apply star_loop_shift. exact (IH Hf).
  - rewrite (IH Hf). apply flat_map_ext. intros n. rewrite length_drop.
    replace (length s - (p + q + n)) with (length s - p - (q + n)) by lia.
    rewrite <- Nat.add_assoc. f_equal. apply star_loop_shift. exact (IH Hf).
  - by rewrite (IH Hf).
Qed.

Lemma exec_at_drop r s p :
  lookaround_free r = true -> exec_at r s p = exec_at r (drop p s) 0.
Proof.
  intros Hf. unfold exec_at. by rewrite <- (matches_drop r s p Hf 0), Nat.add_0_r.
Qed.

(** ** The rule of the literal words matches every cluster and word *)

Lemma star_loop_zero m fuel p : In 0 (star_loop m fuel p).
Proof. rewrite star_loop_eq. apply in_app_iff. right. by left. Qed.

Lemma star_loop_step m fuel p k j :
  In k (m p) -> 0 < k -> In j (star_loop m fuel (p + k)) ->
  In (k + j) (star_loop m (S fuel) p).
Proof.
  intros Hk Hp Hj. rewrite star_loop_eq. apply in_app_iff. left.
  apply in_flat_map. exists k. split; [done|].
  apply Nat.ltb_lt in Hp. rewrite Hp. by apply in_map.
Qed.

Lemma drop_lookup_head (s : str) p c rest :
  drop p s = c :: rest -> s !! p = Some c /\ drop (p + 1) s = rest.
Proof.
  intros H. split.
  - rewrite <- (Nat.add_0_r p), <- lookup_drop, H. done.
  - rewrite <- drop_drop, H. done.
Qed.

Lemma space_star s : forall ws p rest fuel,
  Forall (fun c => is_space c = true) ws -> drop p s = ws ++ rest ->
  length ws <= fuel ->
  In (length ws) (star_loop (matches (Cls false [Space]) s) fuel p).
Proof.
  induction ws as [|c ws IH]; intros p rest fuel Hws Hd Hf.
  - apply star_loop_zero.
  - destruct fuel as [|fuel]; [simpl in Hf; lia|].
    apply Forall_cons in Hws as [Hc Hws].
    apply drop_lookup_head in Hd as [Hp Hd].
    apply (star_loop_step _ _ _ 1 (length ws)); [|lia|].
    + cbn [matches existsb item_has]. rewrite Hp, Hc. by left.
    + apply (IH _ rest); [done..|]. simpl in Hf. lia.
Qed.

Lemma cluster_star s cs :
  cluster cs ->
  forall p rest fuel,
    drop p s = cs ++ rest -> length cs <= fuel ->
    In (length cs)
       (star_loop (matches (Seq (Cls false (chars "'`~#"))
                                (Star (Cls false [Space]))) s) fuel p).
Proof.
  induction 1 as [|q ws cs Hq Hws Hcs IH]; intros p rest fuel Hd Hf.
  - apply star_loop_zero.
  - destruct fuel as [|fuel]; [simpl in Hf; lia|].
    simpl in Hd. apply drop_lookup_head in Hd as [Hp Hd].
    rewrite <- app_assoc in Hd.
    assert (Hlen : length ws + length (cs ++ rest) = length s - (p + 1)).
    { rewrite <- length_app, <- Hd, length_drop. done. }
    change (length (q :: ws ++ cs)) with (S (length (ws ++ cs))).
    rewrite length_app.
    replace (S (length ws + length cs)) with ((1 + length ws) + length cs) by lia.
    apply star_loop_step; [|lia|].
    + cbn [matches]. apply in_flat_map. exists 1. split.
      * rewrite Hp. unfold is_quote in Hq. rewrite Hq. by left.
      * apply in_map. apply (space_star s ws (p + 1) (cs ++ rest)); [done..|lia].
    + apply (IH _ rest).
      * rewrite Nat.add_assoc, <- drop_drop, Hd. by rewrite drop_app_length.
      * simpl in Hf. rewrite length_app in Hf. lia.
Qed.

Lemma matches_Seq_In r1 r2 s p n1 n2 :
  In n1 (matches r1 s p) -> In n2 (matches r2 s (p + n1)) ->
  In (n1 + n2) (matches (Seq r1 r2) s p).
Proof.
  intros H1 H2. cbn [matches]. apply in_flat_map. exists n1. split; [done|].
  by apply in_map.
Qed.

Lemma literal_words_matches s p cs w rest :
  cluster cs -> literal_word w -> drop p s = cs ++ w ++ rest ->
  In (length cs + length w) (matches literal_words s p).
Proof.
  intros Hcs Hw Hd. unfold literal_words, quoting. apply matches_Seq_In.
  - cbn [matches]. apply (cluster_star s cs Hcs p (w ++ rest)); [done|].
    rewrite <- (length_drop s p), Hd, length_app. lia.
  - rewrite <- (Nat.add_0_r (p + length cs)), matches_drop by done.
    rewrite <- drop_drop, Hd, drop_app_length.
    destruct Hw as [-> | [-> | ->]]; vm_compute; auto.
Qed.

(** ** The token of a cluster and a literal word *)

Lemma is_space_cases c :
  is_space c = true ->
  In c [9; 10; 11; 12; 13; 32; 160; 5760; 8192; 8193; 8194; 8195; 8196; 8197;
        8198; 8199; 8200; 8201; 8202; 8232; 8233; 8239; 8287; 12288; 65279]%N.
Proof.
  unfold is_space. rewrite !orb_true_iff, !andb_true_iff, !N.leb_le, !N.eqb_eq.
  intros H. simpl.
  assert (c = 9 \/ c = 10 \/ c = 11 \/ c = 12 \/ c = 13 \/ c = 32 \/ c = 160
          \/ c = 5760 \/ c = 8192 \/ c = 8193 \/ c = 8194 \/ c = 8195 \/ c = 8196
          \/ c = 8197 \/ c = 8198 \/ c = 8199 \/ c = 8200 \/ c = 8201 \/ c = 8202
          \/ c = 8232 \/ c = 8233 \/ c = 8239 \/ c = 8287 \/ c = 12288
          \/ c = 65279)%N as Hc by lia.
  intuition auto 30.
Qed.

Lemma is_quote_cases c : is_quote c = true -> In c [39; 96; 126; 35]%N.
Proof.
  unfold is_quote. cbn [existsb chars lit List.map list_ascii_of_string item_has].
  rewrite !orb_true_iff, !N.eqb_eq. simpl. intuition (try discriminate; auto).
Qed.

Lemma substring_lookup (line : str) p n i :
  i < n -> substring line p n !! i = line !! (p + i).
Proof. intros Hi. unfold substring. by rewrite lookup_take_lt, lookup_drop. Qed.

Lemma literal_word_chars w :
  literal_word w ->
  3 <= length w /\ (NEWLINE ∉ w) /\
  (exists c, head w = Some c /\ In c [116; 102; 110]%N) /\
  (exists c, last w = Some c /\ (c = 101%N \/ c = 108%N)).
Proof.
  intros [-> | [-> | ->]]; (split; [vm_compute; lia|]); (split; [|split; eexists]);
    try (vm_compute; auto; fail).
  all: vm_compute; intros H;
    repeat (apply elem_of_cons in H as [H|H]; [discriminate|]);
    by apply elem_of_nil in H.
Qed.

(** The candidates for the first character of a scanned text that is
    whitespace, a cluster and a word. *)
Lemma starts_none (cands : list N) r (s : str) p c :
  forallb (fun c => negb (starts r c)) cands = true ->
  In c cands -> s !! p = Some c -> nullable r = false -> exec_at r s p = None.
Proof.
  intros Hall Hin Hc Hn. apply (exec_at_starts _ _ _ c Hc); [|done].
  rewrite forallb_forall in Hall. apply Hall in Hin. by destruct (starts r c).
Qed.

(** The steps of a walk through a rule table, rule after rule: the rule
    makes a lit token; or its pattern cannot end with the last character
    of the text; or cannot start with its first character; or the rule of
    the literal words, earlier in the table, would have matched; or it
    matches one character only. *)
Ltac rule_by_end E Hc1 Hc1cases :=
  let X := fresh "X" in
  pose proof (exec_at_ends _ _ _ _ _ E eq_refl Hc1) as X;
  destruct Hc1cases as [-> | ->]; vm_compute in X; discriminate.

Ltac rule_by_start E cands Hin Hc0 :=
  lazymatch type of E with
  | exec_at ?P ?s ?p = _ =>
      let X := fresh "X" in
      assert (X : exec_at P s p = None)
        by (eapply (starts_none cands P s p);
            [vm_compute; reflexivity|exact Hin|exact Hc0|reflexivity]);
      rewrite X in E; discriminate
  end.

Ltac rule_by_literal Flit := exact (Flit eq_refl).

Ltac rule_by_dot E Hc0 Hlen :=
  unfold exec_at in E; cbn [matches] in E; rewrite Hc0 in E;
  match type of E with
  | context [is_line_terminator ?c] => destruct (is_line_terminator c)
  end; simpl in E; [discriminate|injection E as <-; lia].

Lemma toplevel_word line p n rl ws cs w :
  first_match Grammar.toplevel line p = Some (rl, n) ->
  Forall (fun c => is_space c = true) ws -> cluster cs -> literal_word w ->
  substring line p n = ws ++ cs ++ w ->
  classifier rl (substring line p n) = "lit".
Proof.
  intros H Hws Hcs Hw Hraw.
  destruct (literal_word_chars w Hw) as (Hw3 & _ & (cw & Hhead & Hcw) & (c1 & Hlast & Hc1cases)).
  pose proof (first_match_Some _ _ _ _ _ H) as [_ Hex].
  apply exec_at_In in Hex. apply matches_bound in Hex.
  assert (Hlen : length (ws ++ cs ++ w) = n).
  { rewrite <- Hraw. unfold substring. rewrite length_take, length_drop. lia. }
  rewrite !length_app in Hlen.
  assert (Hc1 : line !! (p + n - 1) = Some c1).
  { replace (p + n - 1) with (p + (n - 1)) by lia.
    rewrite <- (substring_lookup line p n) by lia.
    rewrite Hraw, !app_assoc, <- Hlast, last_lookup, lookup_app_r;
      rewrite !length_app; [|lia]. f_equal. lia. }
  assert (Hc0 : line !! p = head (ws ++ cs ++ w)).
  { rewrite <- (Nat.add_0_r p), <- (substring_lookup line p n), Hraw by lia.
    by destruct (ws ++ cs ++ w). }
  unfold Grammar.toplevel in H. cbn [first_match pattern] in H.
  destruct ws as [|c0 ws].
  - (* a cluster and a word: the rule of the literal words matches *)
    assert (Flit : exec_at literal_words line p = None -> False).
    { intros E. unfold exec_at in E.
      assert (Hd : drop p line = cs ++ w ++ drop n (drop p line)).
      { simpl in Hraw. rewrite app_assoc, <- Hraw. unfold substring.
        by rewrite take_drop. }
      pose proof (literal_words_matches line p cs w _ Hcs Hw Hd) as Hm.
      destruct (matches literal_words line p); [destruct Hm|discriminate]. }
    assert (exists c0, line !! p = Some c0 /\
                       In c0 [39; 96; 126; 35; 116; 102; 110]%N)
      as (c0 & Hc0' & Hin).
    { rewrite Hc0. simpl. destruct Hcs as [|q ws cs Hq _ _].
      - simpl. rewrite Hhead. exists cw. split; [done|].
        simpl in *. intuition auto.
      - exists q. split; [done|]. apply is_quote_cases in Hq.
        simpl in *. intuition auto. }
    clear Hc0.
    repeat match type of H with
      | match exec_at ?P _ _ with _ => _ end = _ =>
          let E := fresh "E" in
          destruct (exec_at P line p) as [k|] eqn:E;
          [ injection H as <- <-; cbn [classifier];
            first [ reflexivity
                  | exfalso; rule_by_end E Hc1 Hc1cases
                  | exfalso; rule_by_start E
                               [39; 96; 126; 35; 116; 102; 110]%N Hin Hc0'
                  | exfalso; rule_by_literal Flit
                  | exfalso; rule_by_dot E Hc0' Hlen ]
          | ]
      end.
    discriminate.
  - (* whitespace first: no rule makes such a token *)
    apply Forall_cons in Hws as [Hsp _]. apply is_space_cases in Hsp.
    simpl in Hc0. simpl in Hlen.
    repeat match type of H with
      | match exec_at ?P _ _ with _ => _ end = _ =>
          let E := fresh "E" in
          destruct (exec_at P line p) as [k|] eqn:E;
          [ injection H as <- <-; cbn [classifier];
            first [ reflexivity
                  | exfalso; rule_by_end E Hc1 Hc1cases
                  | exfalso; rule_by_start E
                      [9; 10; 11; 12; 13; 32; 160; 5760; 8192; 8193; 8194; 8195;
                       8196; 8197; 8198; 8199; 8200; 8201; 8202; 8232; 8233;
                       8239; 8287; 12288; 65279]%N Hsp Hc0
                  | exfalso; rule_by_dot E Hc0 Hlen ]
          | ]
      end.
    discriminate.
Qed.

Lemma inString_word line p n rl x w :
  first_match Grammar.inString line p = Some (rl, n) ->
  literal_word w -> substring line p n = x ++ w ->
  classifier rl (substring line p n) = "str-inside".
Proof.
  intros H Hw Hraw.
  destruct (literal_word_chars w Hw) as (Hw3 & _ & _ & (c1 & Hlast & Hc1cases)).
  pose proof (first_match_Some _ _ _ _ _ H) as [_ Hex].
  apply exec_at_In in Hex. apply matches_bound in Hex.
  assert (Hlen : length (x ++ w) = n).
  { rewrite <- Hraw. unfold substring. rewrite length_take, length_drop. lia. }
  rewrite length_app in Hlen.
  assert (Hc1 : line !! (p + n - 1) = Some c1).
  { replace (p + n - 1) with (p + (n - 1)) by lia.
    rewrite <- (substring_lookup line p n) by lia.
    rewrite Hraw, <- Hlast, last_lookup, lookup_app_r; [|lia]. f_equal. lia. }
  unfold Grammar.inString in H. cbn [first_match pattern] in H.
  repeat match type of H with
    | match exec_at ?P _ _ with _ => _ end = _ =>
        let E := fresh "E" in
        destruct (exec_at P line p) as [k|] eqn:E;
        [ injection H as <- <-; cbn [classifier];
          first [ reflexivity | exfalso; rule_by_end E Hc1 Hc1cases ]
        | ]
    end.
  discriminate.
Qed.

(** Whichever grammar scans it, a token whose raw text is whitespace, a
    cluster and a literal word is a literal or a chunk of a string. *)
Lemma scan_word line l tk l' ws cs w :
  lex_ok line l -> scan l = (Some tk, l') ->
  Forall (fun c => is_space c = true) ws -> cluster cs -> literal_word w ->
  raw tk = ws ++ cs ++ w ->
  type tk = "lit" \/ type tk = "str-inside".
Proof.
  intros (Hsrc & Hr & _). unfold scan.
  destruct (maxLength l <=? position l); [discriminate|].
  destruct (first_match _ _ _) as [[rl n]|] eqn:E; [|discriminate].
  intros [= <- <-] Hws Hcs Hw. simpl. rewrite Hsrc in *. intros Hraw.
  destruct Hr as [Hr|Hr]; rewrite Hr in E.
  - left. by apply (toplevel_word line _ n rl ws cs w).
  - right. rewrite app_assoc in Hraw.
    by apply (inString_word line _ n rl (ws ++ cs) w).
Qed.

(** *** Merged tokens *)

Lemma cluster_suffix cs :
  cluster cs ->
  forall l1 l2, cs = l1 ++ l2 ->
    exists ws cs', l2 = ws ++ cs' /\ Forall (fun c => is_space c = true) ws /\
                   cluster cs'.
Proof.
  induction 1 as [|q ws cs Hq Hws Hcs IH]; intros l1 l2 E.
  - symmetry in E. apply app_eq_nil in E as [_ ->].
    exists [], []. split; [done|]. split; [constructor|constructor].
  - destruct l1 as [|c l1]; simpl in E.
    + subst l2. exists [], (q :: ws ++ cs). split; [done|].
      split; [constructor|by constructor].
    + injection E as _ E. apply app_eq_app in E as [l [[E1 E2]|[E1 E2]]].
      * (* the cut is inside the whitespace *)
        exists l, cs. split; [done|]. split; [|done].
        rewrite E1 in Hws. by apply Forall_app in Hws as [_ ?].
      * (* the cut is inside cs *) exact (IH _ _ E2).
Qed.

Lemma merged_split (P R cs w : str) :
  literal_word w -> P ++ [NEWLINE] ++ R = cs ++ w ->
  exists l1 cs2, cs = l1 ++ cs2 /\ R = cs2 ++ w.
Proof.
  intros Hw E. destruct (literal_word_chars w Hw) as (_ & Hnl & _).
  rewrite app_assoc in E. apply app_eq_app in E as [l [[E1 E2]|[E1 E2]]].
  - destruct l as [|c l] using rev_ind.
    + rewrite app_nil_r in E1. simpl in E2. subst R.
      exists cs, []. by rewrite app_nil_r.
    + exfalso. apply Hnl. rewrite app_assoc in E1.
      apply app_inj_tail in E1 as [_ <-]. rewrite E2.
      apply elem_of_app. left. apply elem_of_app. right. by left.
  - exists (P ++ [NEWLINE]), l. done.
Qed.

Lemma pure_processToken_word ml line v l tk v' l' t :
  (forall ws cs w, Forall (fun c => is_space c = true) ws -> cluster cs ->
                   literal_word w -> raw tk = ws ++ cs ++ w ->
                   type tk = "lit" \/ type tk = "str-inside") ->
  pure_processToken ml line v l tk = (v', l', Some t) ->
  word_token_ok t.
Proof.
  intros Htk E. unfold pure_processToken in E.
  assert (Hplain : word_token_ok tk).
  { intros cs w Hcs Hw Hraw. by apply (Htk [] cs w). }
  repeat case_match; simplify_eq; try done.
  intros cs w Hcs Hw Hraw. simpl in *.
  destruct (merged_split _ _ _ _ Hw Hraw) as (l1 & cs2 & -> & HR).
  destruct (cluster_suffix _ Hcs _ _ eq_refl) as (ws & cs' & -> & Hws & Hcs').
  apply (Htk ws cs' w); try done. by rewrite HR, <- app_assoc.
Qed.

Lemma pure_scanLoop_word ml line : forall fuel v l tks tks' v',
  lex_ok line l -> Forall word_token_ok tks ->
  pure_scanLoop fuel ml line v l tks = Ok (tks', v') ->
  Forall word_token_ok tks'.
Proof.
  induction fuel as [|fuel IH]; intros v l tks tks' v' Hl Hall; [done|].
  simpl. destruct (scan l) as [[tk|] l1] eqn:Es; [|by intros [= <- <-]].
  destruct (scan_Some _ _ _ _ Hl Es) as (n & _ & _ & _ & _ & _ & _ & Hl1 & _).
  destruct (pure_processToken ml line v l1 tk) as [[v1 l2] pushed] eqn:Ep.
  apply IH; [by eapply pure_processToken_lex|].
  apply Forall_app. split; [done|].
  destruct pushed as [t|]; [|constructor]. simpl. constructor; [|constructor].
  apply (pure_processToken_word ml line v l1 tk v1 l2 t); [|done].
  intros ws cs w. by apply (scan_word line l tk l1).
Qed.

Lemma pure_processLine_word ml line v tks v' :
  pure_processLine ml line v = Ok (tks, v') -> Forall word_token_ok tks.
Proof.
  unfold pure_processLine.
  destruct (pure_scanLoop _ _ _ _ _ _) as [[tks0 v0]| |] eqn:E; [|done..].
  intros [= <- <-]. apply Forall_app. split.
  - eapply (pure_scanLoop_word ml line); [|by constructor|exact E].
    split; [done|]. split; [destruct (inStringV v); auto|simpl; lia].
  - constructor; [|constructor]. intros cs w _ Hw Hraw. simpl in Hraw.
    destruct (literal_word_chars w Hw) as (Hw3 & _).
    apply (f_equal length) in Hraw. rewrite length_app in Hraw. simpl in Hraw. lia.
Qed.

(** C7 (counterexample). The rule of the literals folds the quoting
    characters ['], [`], [~] and [#] only; the deref character [@] and the
    metadata character [^] are folded by the rule of the symbols alone.
    On the lines [@true] and [^nil] the word with its prefix is one token
    of type id. *)
Lemma literal_words_counterexample :
  exists tks1 sc1 h1 tks2 sc2 h2,
    processLine (new_Scanner 100 empty_heap).1 (lit "@true") None
      (new_Scanner 100 empty_heap).2 = Ok (tks1, sc1, h1) /\
    view tks1 = [ ("id", lit "@true", 0); ("eol", [NEWLINE], 5) ] /\
    processLine (new_Scanner 100 empty_heap).1 (lit "^nil") None
      (new_Scanner 100 empty_heap).2 = Ok (tks2, sc2, h2) /\
    view tks2 = [ ("id", lit "^nil", 0); ("eol", [NEWLINE], 4) ].
Proof.
  do 6 eexists. split; [vm_compute; reflexivity|].
  split; [vm_compute; reflexivity|].
  split; [vm_compute; reflexivity|]. vm_compute. reflexivity.
Qed.

(** C7 (amended). Literal words, with a prefix cluster of the quoting
    characters ['], [`], [~] and [#] that the rule of the literals folds:
    (1) a token that the toplevel grammar scans and whose raw text is
    such a cluster and one of the words true, false and nil is of type
    lit; (2) where the text at the cursor starts with one of the words,
    the toplevel grammar scans that word as a token of type lit, the rule
    of the literals coming before the rule of the symbols; (3) among the
    tokens of any call of processLine, one whose raw text is such a
    cluster and such a word is never of type id: it is of type lit, or a
    chunk of a string (str-inside) when it lies inside a string. *)
Theorem literal_words_are_literals :
  (forall line ml p tk l' cs w,
     cluster cs -> literal_word w ->
     scan (set_position (lex Grammar.toplevel line ml) p) = (Some tk, l') ->
     raw tk = cs ++ w -> type tk = "lit") /\
  (forall line ml p w rest,
     literal_word w -> p < ml -> drop p line = w ++ rest ->
     scan (set_position (lex Grammar.toplevel line ml) p)
     = (Some {| type := "lit"; raw := w; offset := p |},
        set_position (lex Grammar.toplevel line ml) (p + length w))) /\
  (forall this line state h tks this' h' t cs w,
     heap_ok h (default (this_state this) state) ->
     processLine this line state h = Ok (tks, this', h') ->
     In t tks -> cluster cs -> literal_word w -> raw (token t) = cs ++ w ->
     type (token t) <> "id" /\
     (type (token t) = "lit" \/ type (token t) = "str-inside")).
Proof.
  split; [|split].
  - intros line ml p tk l' cs w Hcs Hw. unfold scan.
    cbn [set_position lex maxLength position rules source].
    destruct (ml <=? p); [discriminate|].
    destruct (first_match _ _ _) as [[rl n]|] eqn:E; [|discriminate].
    intros [= <- <-]. cbn [raw type]. intros Hraw.
    by apply (toplevel_word line p n rl [] cs w).
  - intros line ml p w rest Hw Hp Hd. unfold scan.
    cbn [set_position lex maxLength position rules source].
    apply Nat.leb_gt in Hp. rewrite Hp.
    assert (exists c0, line !! p = Some c0 /\ In c0 [116; 102; 110]%N)
      as (c0 & Hc0 & Hin).
    { destruct (literal_word_chars w Hw) as (_ & _ & (c0 & Hh & Hin) & _).
      exists c0. split; [|done]. destruct w as [|c w]; [done|].
      injection Hh as ->. by apply drop_lookup_head in Hd as [? _]. }
    assert (E8 : exec_at literal_words line p = Some (length w)).
    { rewrite exec_at_drop, Hd by done.
      destruct Hw as [-> | [-> | ->]]; vm_compute; reflexivity. }
    unfold Grammar.toplevel. cbn [first_match pattern].
    repeat match goal with
      | |- context [match exec_at ?P line p with _ => _ end] =>
          rewrite (starts_none [116; 102; 110]%N P line p c0) by done
      end.
    rewrite E8. cbn [classifier].
    assert (Hs : substring line p (length w) = w).
    { unfold substring. by rewrite Hd, take_app_length. }
    by rewrite Hs.
  - intros this line state h tks this' h' t cs w Hok E Hin Hcs Hw Hraw.
    destruct (heap_ok_state_value _ _ Hok) as [v Hv].
    destruct (processLine_refines this line state h v Hv)
      as (vtks & v' & tks0 & this0 & h0 & Epure & E' & Htk & _).
    rewrite E in E'. injection E' as <- <- <-.
    apply pure_processLine_word in Epure. rewrite <- Htk in Epure.
    rewrite Forall_forall in Epure.
    assert (Hd : type (token t) = "lit" \/ type (token t) = "str-inside").
    { apply (Epure (token t)) with (cs := cs) (w := w); [|done..].
      apply list_elem_of_In, in_map_iff. eauto. }
    split; [|done]. destruct Hd as [-> | ->]; discriminate.
Qed.

Lemma literal_words_are_literals_witness :
  scan (set_position (lex Grammar.toplevel (lit "(if true nil)") 13) 4)
  = (Some {| type := "lit"; raw := lit "true"; offset := 4 |},
     set_position (lex Grammar.toplevel (lit "(if true nil)") 13) 8).
Proof.
  destruct literal_words_are_literals as (_ & H & _).
  apply (H (lit "(if true nil)") 13 4 (lit "true") (lit " nil)")).
  - left. reflexivity.
  - lia.
  - reflexivity.
Defined.
(** ** The test for a token that ends in a double quote *)

Lemma string_delimiter_matches s p n :
  In n (matches string_delimiter s p) -> last s = Some DQUOTE.
Proof.
  unfold string_delimiter. cbn [seqs matches]. intros H.
  apply in_flat_map in H as (n1 & _ & H).
  apply in_map_iff in H as (n2 & _ & H).
  apply in_flat_map in H as (n3 & H3 & H).
  destruct (s !! (p + n1)) as [d|] eqn:Hd; [|destruct H3].
  destruct (N.eqb_spec d DQUOTE) as [->|]; [|destruct H3].
  destruct H3 as [<-|[]].
  destruct (Nat.leb_spec (length s) (p + n1 + 1)) as [Hlen|]; [|destruct H].
  apply lookup_lt_Some in Hd as Hlt.
  rewrite last_lookup. replace (pred (length s)) with (p + n1) by lia. done.
Qed.

Lemma string_delimiter_last s :
  last s = Some DQUOTE -> test string_delimiter s = true.
Proof.
  intros Hlast. rewrite last_lookup in Hlast.
  apply lookup_lt_Some in Hlast as Hlt.
  unfold test. apply existsb_exists. exists (pred (length s)). split.
  { apply in_seq. lia. }
  apply bool_decide_eq_true. unfold exec_at, string_delimiter.
  set (q := pred (length s)) in *.
  assert (Hs : star_loop (matches (Cls false (chars "~`'@#")) s) (length s - q) q = [0]).
  { rewrite star_loop_eq. cbn [matches]. rewrite Hlast. reflexivity. }
  cbn [seqs matches]. cbn [matches] in Hs. rewrite Hs.
  cbn [flat_map]. rewrite Nat.add_0_r, Hlast. cbn [flat_map N.eqb DQUOTE Pos.eqb].
  destruct (Nat.leb_spec (length s) (q + 1)); [|lia].
  cbn. eauto.
Qed.

(** ** The loop of processLine, step by step *)

(** The token of a scan: the first rule that matches, and the text it
    matched. *)
Lemma scan_first_match line l tk l' :
  lex_ok line l -> scan l = (Some tk, l') ->
  exists rl n, first_match (rules l) line (position l) = Some (rl, n) /\
               type tk = classifier rl (raw tk) /\
               raw tk = substring line (position l) n.
Proof.
  intros (Hsrc & _ & _). unfold scan.
  destruct (maxLength l <=? position l); [discriminate|].
  destruct (first_match _ _ _) as [[rl n]|] eqn:E; [|discriminate].
  intros [= <- <-]. simpl. rewrite Hsrc in *. eauto.
Qed.

Lemma substring_last (line : str) p n :
  0 < n -> p + n <= length line ->
  last (substring line p n) = line !! (p + n - 1).
Proof.
  intros Hn Hb. rewrite last_lookup, length_substring by done.
  rewrite substring_lookup by lia. f_equal. lia.
Qed.

Lemma substring_elem (line : str) p n c : c ∈ substring line p n -> c ∈ line.
Proof.
  unfold substring. intros H%list_elem_of_lookup_1. destruct H as [i Hi].
  apply lookup_take_Some in Hi as [Hi _]. rewrite lookup_drop in Hi.
  by eapply list_elem_of_lookup_2.
Qed.

Lemma last_elem (s : str) c : last s = Some c -> c ∈ s.
Proof. rewrite last_lookup. apply list_elem_of_lookup_2. Qed.

Lemma matches_none_starts r s p c :
  s !! p = Some c -> starts r c = false -> nullable r = false ->
  matches r s p = [].
Proof.
  intros Hc Hs Hn. pose proof (exec_at_starts r s p c Hc Hs Hn) as E.
  unfold exec_at in E. by destruct (matches r s p).
Qed.

Lemma star_loop_none m fuel p : m p = [] -> star_loop m fuel p = [0].
Proof. intros E. rewrite star_loop_eq, E. reflexivity. Qed.

(** A property of the state and the lexer that every turn of the loop
    keeps, and a property of the tokens that every turn pushes, hold when
    the loop ends. *)
Lemma pure_scanLoop_inv ml line
  (I : StateValue -> Lexer -> Prop) (T : LexerToken -> Prop) :
  (forall v l tk l1 v' l2 pushed,
     lex_ok line l -> I v l -> scan l = (Some tk, l1) ->
     pure_processToken ml line v l1 tk = (v', l2, pushed) ->
     I v' l2 /\ forall t, pushed = Some t -> T t) ->
  forall fuel v l tks tks' v',
    lex_ok line l -> I v l -> Forall T tks ->
    pure_scanLoop fuel ml line v l tks = Ok (tks', v') ->
    Forall T tks' /\ exists l', lex_ok line l' /\ I v' l'.
Proof.
  intros Hstep. induction fuel as [|fuel IH]; intros v l tks tks' v' Hl Hi Ht;
    [done|].
  simpl. destruct (scan l) as [[tk|] l1] eqn:Es; [|intros [= <- <-]; eauto].
  destruct (scan_Some _ _ _ _ Hl Es) as (n & _ & _ & _ & _ & _ & _ & Hl1 & _).
  destruct (pure_processToken ml line v l1 tk) as [[v1 l2] pushed] eqn:Ep.
  destruct (Hstep _ _ _ _ _ _ _ Hl Hi Es Ep) as [Hi2 Hp].
  apply IH; [by eapply pure_processToken_lex|done|].
  apply Forall_app. split; [done|].
  destruct pushed as [t|]; simpl; [|constructor].
  constructor; [by apply Hp|constructor].
Qed.

Lemma lex_ok_start line ml (b : bool) :
  lex_ok line (lex (if b then Grammar.inString else Grammar.toplevel) line ml).
Proof. split; [done|]. split; [destruct b; auto|simpl; lia]. Qed.

Lemma pure_processLine_inv ml line
  (I : StateValue -> Lexer -> Prop) (T : LexerToken -> Prop) v tks v' :
  (forall v l tk l1 v' l2 pushed,
     lex_ok line l -> I v l -> scan l = (Some tk, l1) ->
     pure_processToken ml line v l1 tk = (v', l2, pushed) ->
     I v' l2 /\ forall t, pushed = Some t -> T t) ->
  I v (lex (if inStringV v then Grammar.inString else Grammar.toplevel) line ml) ->
  pure_processLine ml line v = Ok (tks, v') ->
  (exists init, tks = init ++ [eol_token line] /\ Forall T init) /\
  exists l', lex_ok line l' /\ I v' l'.
Proof.
  intros Hstep Hi. unfold pure_processLine.
  destruct (pure_scanLoop _ _ _ _ _ _) as [[tks0 v0]| |] eqn:E; [|done..].
  intros [= <- <-].
  destruct (pure_scanLoop_inv ml line I T Hstep _ _ _ _ _ _
              (lex_ok_start line ml (inStringV v)) Hi (Forall_nil_2 T) E)
    as [Ht Hl].
  split; [|done]. by exists tks0.
Qed.

(** A call of processLine on a well-formed heap, seen through the values
    of the states. *)
Lemma processLine_pure this line state h tks this' h' :
  heap_ok h (default (this_state this) state) ->
  processLine this line state h = Ok (tks, this', h') ->
  exists v v',
    state_value h (default (this_state this) state) = Some v /\
    pure_processLine (this_maxLength this) line v = Ok (List.map token tks, v') /\
    retained this' h' = Some v'.
Proof.
  intros Hok E. destruct (heap_ok_state_value _ _ Hok) as [v Hv].
  destruct (processLine_refines this line state h v Hv)
    as (vtks & v' & tks1 & this1 & h1 & Ep & E1 & Ht & Hr & _).
  rewrite E in E1. injection E1 as <- <- <-. exists v, v'. by rewrite Ht.
Qed.

Lemma test_string_delimiter s :
  test string_delimiter s = true -> last s = Some DQUOTE.
Proof.
  unfold test. intros H. apply existsb_exists in H as (p & _ & H).
  apply bool_decide_eq_true in H as [n H].
  by apply exec_at_In, string_delimiter_matches in H.
Qed.

(** A reader token never ends in a double quote. *)
Lemma reader_not_delimiter line l tk l' :
  lex_ok line l -> scan l = (Some tk, l') -> type tk = "reader" ->
  test string_delimiter (raw tk) = false.
Proof.
  intros Hl Es Ht.
  destruct (scan_first_match _ _ _ _ Hl Es) as (rl & n & Ef & Hty & Hraw).
  apply first_match_Some in Ef as [Hin Ee].
  pose proof (matches_progress _ _ (rules_not_nullable _ _ _ Hl Hin) _ _
                (exec_at_In _ _ _ _ Ee)) as Hn.
  pose proof (matches_bound _ _ _ _ (exec_at_In _ _ _ _ Ee)) as Hb.
  destruct (rule_types rl (raw tk) (rule_in_tables _ _ _ Hl Hin)) as [_ Hrd].
  rewrite Hty in Ht. rewrite (Hrd Ht) in Ee.
  destruct (test string_delimiter (raw tk)) eqn:Et; [|done].
  apply test_string_delimiter in Et.
  rewrite Hraw, substring_last in Et by lia.
  pose proof (exec_at_ends _ _ _ _ _ Ee eq_refl Et) as X.
  vm_compute in X. discriminate.
Qed.

(** *** Reader tokens are held back *)

Lemma pure_processToken_reader ml line v l tk v' l' pushed :
  type tk = "reader" -> test string_delimiter (raw tk) = false ->
  pure_processToken ml line v l tk = (v', l', pushed) -> pushed = None.
Proof.
  intros Ht Hd. unfold pure_processToken. rewrite Hd.
  apply String.eqb_eq in Ht. rewrite Ht. by intros [= <- <- <-].
Qed.

(** X1. A data reader tag is never a token of its own: no token that
    processLine returns has the type reader, the tag being kept in the
    state until the token after it is scanned. *)
Theorem reader_tokens_held_back this line state h tks this' h' :
  heap_ok h (default (this_state this) state) ->
  processLine this line state h = Ok (tks, this', h') ->
  forall t, In t tks -> type (token t) <> "reader".
Proof.
  intros Hok E.
  destruct (processLine_pure _ _ _ _ _ _ _ Hok E) as (v & v' & _ & Ep & _).
  destruct (pure_processLine_inv (this_maxLength this) line (fun _ _ => True)
              (fun t => type t <> "reader") v (List.map token tks) v')
    as [(init & Hinit & Hall) _]; [|done..|].
  { intros v0 l tk l1 v1 l2 pushed Hl _ Es Ept. split; [done|].
    intros t -> Hr. rewrite (pure_processToken_type _ _ _ _ _ _ _ _ Ept) in Hr.
    pose proof (reader_not_delimiter _ _ _ _ Hl Es Hr) as Hd.
    by pose proof (pure_processToken_reader _ _ _ _ _ _ _ _ Hr Hd Ept). }
  intros t Hin. apply (in_map token) in Hin. rewrite Hinit in Hin.
  apply in_app_iff in Hin as [Hin|[<-|[]]]; [|done].
  rewrite Forall_forall in Hall. apply Hall. by apply list_elem_of_In.
Qed.

Lemma reader_tokens_held_back_witness :
  exists tks this' h',
    processLine (scanner 0 7) line_a_inst None
      {| states := [{| inString := false; currentReaderToken := None |}];
         tokens := [] |} = Ok (tks, this', h') /\
    forall t, In t tks -> type (token t) <> "reader".
Proof.
  do 3 eexists. split; [vm_compute; reflexivity|].
  eapply (reader_tokens_held_back (scanner 0 7) line_a_inst None
           {| states := [{| inString := false; currentReaderToken := None |}];
              tokens := [] |});
    [eexists; split; [reflexivity|discriminate]|vm_compute; reflexivity].
Defined.

(** *** A string opens and closes at a double quote only *)

Lemma pure_processToken_no_delimiter ml line v l tk v' l' pushed :
  test string_delimiter (raw tk) = false ->
  pure_processToken ml line v l tk = (v', l', pushed) ->
  inStringV v' = inStringV v /\ l' = l.
Proof.
  intros Hd. unfold pure_processToken. rewrite Hd.
  intros E. by repeat case_match; simplify_eq.
Qed.

Lemma scan_no_delimiter line l tk l' :
  lex_ok line l -> scan l = (Some tk, l') -> DQUOTE ∉ line ->
  test string_delimiter (raw tk) = false.
Proof.
  intros Hl Es Hq.
  destruct (scan_Some _ _ _ _ Hl Es) as (n & _ & _ & Hraw & _).
  destruct (test string_delimiter (raw tk)) eqn:Et; [|done].
  apply test_string_delimiter, last_elem in Et. rewrite Hraw in Et.
  by apply substring_elem in Et.
Qed.

(** X2. Only a double quote switches the string mode: after a line that
    holds no double quote the scanner is inside a string exactly when it
    was before the line. *)
Theorem string_mode_needs_quote this line state h v tks this' h' :
  state_value h (default (this_state this) state) = Some v ->
  DQUOTE ∉ line ->
  processLine this line state h = Ok (tks, this', h') ->
  inStringV <$> retained this' h' = Some (inStringV v).
Proof.
  intros Hv Hq E.
  destruct (processLine_pure _ _ _ _ _ _ _ (state_value_heap_ok _ _ _ Hv) E)
    as (v0 & v' & Hv0 & Ep & ->).
  rewrite Hv in Hv0. injection Hv0 as <-.
  destruct (pure_processLine_inv (this_maxLength this) line
              (fun w _ => inStringV w = inStringV v) (fun _ => True)
              v (List.map token tks) v')
    as [_ (l' & _ & Hi)]; [|done..|by simpl; rewrite Hi].
  intros v0 l tk l1 v1 l2 pushed Hl Hi Es Ept. split; [|done].
  pose proof (scan_no_delimiter _ _ _ _ Hl Es Hq) as Hd.
  destruct (pure_processToken_no_delimiter _ _ _ _ _ _ _ _ Hd Ept) as [-> _].
  done.
Qed.

Lemma string_mode_needs_quote_witness :
  exists tks this' h',
    processLine (scanner 0 5) (lit "a b c") None
      {| states := [{| inString := true; currentReaderToken := None |}];
         tokens := [] |} = Ok (tks, this', h') /\
    inStringV <$> retained this' h' = Some true.
Proof.
  do 3 eexists. split; [vm_compute; reflexivity|].
  eapply (string_mode_needs_quote (scanner 0 5) (lit "a b c") None
            {| states := [{| inString := true; currentReaderToken := None |}];
               tokens := [] |}
            {| inStringV := true; currentReaderTokenV := None |} _ _ _ eq_refl).
  - vm_compute. intros H.
    repeat (apply elem_of_cons in H as [H|H]; [discriminate|]).
    by apply elem_of_nil in H.
  - vm_compute. reflexivity.
Defined.

(** *** Lines without a data reader tag *)

(** X3. Reader tags start at a [#] only: on a line without [#], scanned
    from a state with no pending reader token, no token is merged or held
    back.  Every token but the end-of-line token is a non-empty piece of
    the line, the text of the line at the token's offset, and no reader
    token is pending afterwards. *)
Theorem plain_line_tokens this line state h v tks this' h' :
  state_value h (default (this_state this) state) = Some v ->
  currentReaderTokenV v = None ->
  HASH ∉ line ->
  processLine this line state h = Ok (tks, this', h') ->
  currentReaderTokenV <$> retained this' h' = Some None /\
  forall t, In t tks -> type (token t) <> "eol" ->
    raw (token t) = substring line (offset (token t)) (length (raw (token t))) /\
    0 < length (raw (token t)) /\
    offset (token t) + length (raw (token t)) <= length line.
Proof.
  intros Hv Hp Hh E.
  destruct (processLine_pure _ _ _ _ _ _ _ (state_value_heap_ok _ _ _ Hv) E)
    as (v0 & v' & Hv0 & Ep & ->).
  rewrite Hv in Hv0. injection Hv0 as <-.
  destruct (pure_processLine_inv (this_maxLength this) line
              (fun w _ => currentReaderTokenV w = None)
              (fun t => raw t = substring line (offset t) (length (raw t)) /\
                        0 < length (raw t) /\
                        offset t + length (raw t) <= length line)
              v (List.map token tks) v')
    as [(init & Hinit & Hall) (l' & _ & Hi)]; [|done..|].
  { intros v0 l tk l1 v1 l2 pushed Hl Hi Es Ept.
    destruct (scan_Some _ _ _ _ Hl Es)
      as (n & Hn & Hb & Hraw & Hlen & Hoff & _ & Hl1 & _).
    destruct (scan_type _ _ _ _ Hl Es) as [_ Hrd].
    assert (Hnr : type tk <> "reader").
    { intros Hr. apply Hh. eapply list_elem_of_lookup_2. by apply Hrd. }
    destruct (pure_processToken_plain (this_maxLength this) line v0 l1 tk Hi Hnr Hl1)
      as (v2 & l3 & Ept' & Hv2 & _).
    rewrite Ept in Ept'. injection Ept' as -> -> ->.
    split; [done|]. intros t [= <-]. rewrite Hlen, Hoff. split; [done|lia]. }
  split; [by simpl; rewrite Hi|].
  intros t Hin Heol. apply (in_map token) in Hin. rewrite Hinit in Hin.
  apply in_app_iff in Hin as [Hin|[Ht|[]]]; [|by rewrite <- Ht in Heol].
  rewrite Forall_forall in Hall. apply Hall. by apply list_elem_of_In.
Qed.

Lemma plain_line_tokens_witness :
  exists tks this' h',
    processLine (scanner 0 15) line_println_hello None
      {| states := [{| inString := false; currentReaderToken := None |}];
         tokens := [] |} = Ok (tks, this', h') /\
    currentReaderTokenV <$> retained this' h' = Some None.
Proof.
  do 3 eexists. split; [vm_compute; reflexivity|].
  eapply (plain_line_tokens (scanner 0 15) line_println_hello None
            {| states := [{| inString := false; currentReaderToken := None |}];
               tokens := [] |}
            {| inStringV := false; currentReaderTokenV := None |} _ _ _
            eq_refl eq_refl).
  - vm_compute. intros H.
    repeat (apply elem_of_cons in H as [H|H]; [discriminate|]).
    by apply elem_of_nil in H.
  - vm_compute. reflexivity.
Defined.

(** *** The call returns *)

Lemma pure_scanLoop_count ml line : forall fuel v l tks tks' v',
  lex_ok line l ->
  pure_scanLoop fuel ml line v l tks = Ok (tks', v') ->
  length tks' <= length tks + (length line - position l).
Proof.
  induction fuel as [|fuel IH]; intros v l tks tks' v' Hl; [done|].
  simpl. destruct (scan l) as [[tk|] l1] eqn:Es; [|intros [= <- <-]; lia].
  destruct (scan_Some _ _ _ _ Hl Es) as (n & Hn & Hb & _ & _ & _ & El1 & Hl1 & _).
  destruct (pure_processToken ml line v l1 tk) as [[v1 l2] pushed] eqn:Ep.
  intros E. apply IH in E; [|by eapply pure_processToken_lex].
  rewrite (pure_processToken_position _ _ _ _ _ _ _ _ Ep), El1 in E.
  rewrite length_app in E. simpl in E.
  destruct pushed; simpl in E; lia.
Qed.

(** X4. processLine returns: from a state that is an object of the heap
    (as is its pending token, if any) the call neither throws nor runs
    on, each rule consuming at least one code unit of the line.  It
    returns at most one token per code unit and the end-of-line token,
    and leaves the scanner with a state from which the next call returns
    as well. *)
Theorem processLine_returns this line state h :
  heap_ok h (default (this_state this) state) ->
  exists tks this' h',
    processLine this line state h = Ok (tks, this', h') /\
    1 <= length tks <= S (length line) /\
    heap_ok h' (this_state this') /\
    this_maxLength this' = this_maxLength this.
Proof.
  intros Hok. destruct (heap_ok_state_value _ _ Hok) as [v Hv].
  destruct (processLine_refines this line state h v Hv)
    as (vtks & v' & tks & this' & h' & Ep & E & Ht & Hr & Hml).
  exists tks, this', h'. split; [done|]. split; [|split; [|done]].
  - rewrite <- (length_map token), Ht. unfold pure_processLine in Ep.
    destruct (pure_scanLoop _ _ _ _ _ _) as [[tks0 v0]| |] eqn:El; [|done..].
    injection Ep as <- <-. rewrite length_app. simpl.
    apply pure_scanLoop_count in El; [|apply lex_ok_start].
    simpl in El. lia.
  - by apply (state_value_heap_ok _ _ v').
Qed.

Lemma processLine_returns_witness :
  exists tks this' h',
    processLine (scanner 0 7) line_a_inst None
      {| states := [{| inString := false; currentReaderToken := None |}];
         tokens := [] |} = Ok (tks, this', h') /\
    length tks <= 8.
Proof.
  destruct (processLine_returns (scanner 0 7) line_a_inst None
              {| states := [{| inString := false; currentReaderToken := None |}];
                 tokens := [] |}
              ltac:(eexists; split; [reflexivity|discriminate]))
    as (tks & this' & h' & E & [_ Hlen] & _).
  exists tks, this', h'. split; [exact E|exact Hlen].
Defined.

(** *** The length cap *)

(** X5. No scan starts at or beyond the length cap: when the pending
    reader token of the starting state, if any, lies below the cap, every
    token but the end-of-line token has an offset below the cap, and so
    has the reader token pending afterwards. *)
Theorem tokens_below_cap this line state h v tks this' h' :
  state_value h (default (this_state this) state) = Some v ->
  (forall p, currentReaderTokenV v = Some p -> offset p < this_maxLength this) ->
  processLine this line state h = Ok (tks, this', h') ->
  (forall t, In t tks -> type (token t) <> "eol" ->
             offset (token t) < this_maxLength this) /\
  exists v', retained this' h' = Some v' /\
    forall p, currentReaderTokenV v' = Some p -> offset p < this_maxLength this.
Proof.
  intros Hv Hp E. set (ml := this_maxLength this) in *.
  destruct (processLine_pure _ _ _ _ _ _ _ (state_value_heap_ok _ _ _ Hv) E)
    as (v0 & v' & Hv0 & Ep & Hr).
  rewrite Hv in Hv0. injection Hv0 as <-.
  destruct (pure_processLine_inv ml line
              (fun w l => maxLength l = ml /\
                          forall p, currentReaderTokenV w = Some p -> offset p < ml)
              (fun t => offset t < ml) v (List.map token tks) v')
    as [(init & Hinit & Hall) (l' & _ & _ & Hi)]; [| |done|].
  { intros v0 l tk l1 v1 l2 pushed Hl [Hm Hi] Es Ept.
    destruct (scan_Some _ _ _ _ Hl Es)
      as (n & _ & _ & _ & _ & Hoff & El1 & _ & Hcap).
    rewrite Hm, <- Hoff in Hcap.
    assert (Hm1 : maxLength l1 = ml) by (by rewrite El1).
    unfold pure_processToken in Ept.
    repeat case_match; simplify_eq; simpl;
      (split; [split; [done|]|]); intros; simplify_eq; simpl; eauto. }
  { split; [by destruct (inStringV v)|done]. }
  split; [|eauto].
  intros t Hin Heol. apply (in_map token) in Hin. rewrite Hinit in Hin.
  apply in_app_iff in Hin as [Hin|[Ht|[]]]; [|by rewrite <- Ht in Heol].
  rewrite Forall_forall in Hall. apply Hall. by apply list_elem_of_In.
Qed.

Lemma tokens_below_cap_witness :
  exists tks this' h',
    processLine (scanner 0 3) line_println_hello None
      {| states := [{| inString := false; currentReaderToken := None |}];
         tokens := [] |} = Ok (tks, this', h') /\
    forall t, In t tks -> type (token t) <> "eol" -> offset (token t) < 3.
Proof.
  do 3 eexists. split; [vm_compute; reflexivity|].
  eapply (tokens_below_cap (scanner 0 3) line_println_hello None
            {| states := [{| inString := false; currentReaderToken := None |}];
               tokens := [] |}
            {| inStringV := false; currentReaderTokenV := None |} _ _ _ eq_refl).
  - intros p. discriminate.
  - vm_compute. reflexivity.
Defined.

(** X6. A length cap that covers the line has no effect: under any two
    caps that are at least the length of the line, processLine returns
    the same tokens, the same state and the same heap. *)
Theorem cap_beyond_line ml1 ml2 st line state h tks this1 h1 :
  length line <= ml1 -> length line <= ml2 ->
  processLine (scanner st ml1) line state h = Ok (tks, this1, h1) ->
  processLine (scanner st ml2) line state h
  = Ok (tks, scanner (this_state this1) ml2, h1).
Proof.
  intros H1 H2 E. rewrite (processLine_recap ml2 ml1) by done. by rewrite E.
Qed.

Lemma cap_beyond_line_witness :
  processLine (scanner 0 1000) line_world None
    {| states := [{| inString := true; currentReaderToken := None |}];
       tokens := [] |}
  = Ok ([ {| token := {| type := "str-inside"; raw := lit "world"; offset := 0 |};
            state := 0 |};
          {| token := {| type := "close"; raw := [DQUOTE]; offset := 5 |};
             state := 1 |};
          {| token := {| type := "close"; raw := lit ")"; offset := 6 |};
             state := 1 |};
          {| token := {| type := "eol"; raw := [NEWLINE]; offset := 7 |};
             state := 1 |} ],
        scanner 1 1000,
        {| states := [{| inString := true; currentReaderToken := None |};
                      {| inString := false; currentReaderToken := None |}];
           tokens := [] |}).
Proof.
  apply (cap_beyond_line 7 1000 0 line_world None
           {| states := [{| inString := true; currentReaderToken := None |}];
              tokens := [] |} _ (scanner 1 7)).
  - vm_compute. lia.
  - vm_compute. lia.
  - vm_compute. reflexivity.
Defined.

(** ** What the rule tables match *)

(** X7. The test that processLine makes on a token, the pattern
    /[~`'@#]*\x22$/ searched in its raw text, holds exactly when the raw
    text ends in a double quote. *)
Theorem ends_in_quote_test (s : str) :
  test string_delimiter s = true <-> last s = Some DQUOTE.
Proof.
  split; [apply test_string_delimiter|apply string_delimiter_last].
Qed.

(** X8. Every rule of the two grammars consumes text: a match of its
    pattern, wherever it starts, takes at least one code unit and ends
    within the line. *)
Theorem rules_consume rl (s : str) p n :
  In rl Grammar.toplevel \/ In rl Grammar.inString ->
  In n (matches (pattern rl) s p) -> 0 < n <= length s - p.
Proof.
  intros Hin Hm. split; [|by apply (matches_bound (pattern rl))].
  apply (fun H => matches_progress (pattern rl) s H p n Hm).
  destruct Hin; auto using toplevel_not_nullable, inString_not_nullable.
Qed.

Lemma rules_consume_witness : 0 < 2 <= length (lit "#_ x") - 0.
Proof.
  apply (rules_consume {| pattern := word "#_"; classifier := fun _ => "ignore" |}
           (lit "#_ x") 0 2).
  - left. unfold Grammar.toplevel. in_table.
  - vm_compute. auto.
Defined.

Lemma exec_at_end r (s : str) p :
  nullable r = false -> s !! p = None -> exec_at r s p = None.
Proof.
  intros Hn Hp. unfold exec_at. destruct (matches r s p) as [|n ns] eqn:E; [done|].
  assert (Hin : In n (matches r s p)) by (rewrite E; by left).
  pose proof (matches_progress _ _ Hn _ _ Hin).
  pose proof (matches_bound _ _ _ _ Hin).
  apply lookup_ge_None in Hp. lia.
Qed.

Lemma exec_at_matches r (s : str) p :
  matches r s p <> [] -> exec_at r s p <> None.
Proof. unfold exec_at. by destruct (matches r s p). Qed.

(** X9. Where the toplevel grammar has no rule: at the end of the text
    and at the code units U+2028 and U+2029, which are whitespace to the
    rule of the symbols and line terminators to the catch-all [.]; at
    every other code unit some rule matches. *)
Theorem toplevel_stuck (s : str) p :
  (forall rl, In rl Grammar.toplevel -> exec_at (pattern rl) s p = None) <->
  (s !! p = None \/ s !! p = Some LS \/ s !! p = Some PS).
Proof.
  split.
  - intros Hall. destruct (s !! p) as [c|] eqn:Hc; [|by left]. right.
    destruct (decide (c = LS)) as [->|Hls]; [by left|].
    destruct (decide (c = PS)) as [->|Hps]; [by right|]. exfalso.
    destruct (is_line_terminator c) eqn:Ht.
    + apply (exec_at_matches
               (Alt (Chr CR) (Alt (Chr NEWLINE) (Seq (Chr CR) (Chr NEWLINE)))) s p).
      * cbn [matches]. rewrite Hc. unfold is_line_terminator in Ht.
        destruct (N.eqb_spec c CR) as [->|Hcr]; [done|].
        destruct (N.eqb_spec c NEWLINE) as [->|Hnl]; [done|].
        exfalso. unfold CR, NEWLINE, LS, PS in *.
        repeat (apply orb_prop in Ht as [Ht|Ht]);
          apply N.eqb_eq in Ht; congruence.
      * apply (Hall {| pattern := Alt (Chr CR) (Alt (Chr NEWLINE) (Seq (Chr CR) (Chr NEWLINE)));
                       classifier := fun _ => "ws" |}).
        unfold Grammar.toplevel. in_table.
    + apply (exec_at_matches Dot s p).
      * cbn [matches]. by rewrite Hc, Ht.
      * apply (Hall {| pattern := Dot; classifier := fun _ => "junk" |}).
        unfold Grammar.toplevel. in_table.
  - intros [Hc|Hc] rl Hin.
    + by apply exec_at_end; [apply toplevel_not_nullable|].
    + assert (exists c, s !! p = Some c /\ (c = LS \/ c = PS)) as (c & Hc' & Hcc)
        by (destruct Hc; eauto).
      apply (exec_at_starts _ _ _ c Hc'); [|by apply toplevel_not_nullable].
      unfold Grammar.toplevel in Hin. simpl in Hin.
      repeat (destruct Hin as [<-|Hin];
              [destruct Hcc as [-> | ->]; vm_compute; reflexivity|]).
      destruct Hin.
Qed.

(** X10. Where the inside-string grammar has no rule: at the end of the
    text, at a carriage return that no line feed follows, and at a
    backslash that ends the text or stands before a line terminator; at
    every other code unit some rule matches. *)
Theorem inString_stuck (s : str) p :
  (forall rl, In rl Grammar.inString -> exec_at (pattern rl) s p = None) <->
  (s !! p = None \/
   (s !! p = Some CR /\ s !! (p + 1) <> Some NEWLINE) \/
   (s !! p = Some BACKSLASH /\
    forall d, s !! (p + 1) = Some d -> is_line_terminator d = true)).
Proof.
  set (str_inside :=
         Plus (Alt (Seq (Chr BACKSLASH) Dot)
                   (Cls true [One BACKSLASH; One DQUOTE; One 9%N; One CR;
                              One NEWLINE; One 32%N]))).
  set (newline := Seq (Opt (Chr CR)) (Chr NEWLINE)).
  assert (Hsi : In {| pattern := str_inside; classifier := fun _ => "str-inside" |}
                  Grammar.inString) by (unfold Grammar.inString; in_table).
  assert (Hnl : In {| pattern := newline; classifier := fun _ => "ws" |}
                  Grammar.inString) by (unfold Grammar.inString; in_table).
  split.
  - intros Hall. destruct (s !! p) as [c|] eqn:Hc; [|by left]. right.
    assert (Hno : ~ is_Some (first_match Grammar.inString s p)).
    { intros [[rl n] E]. apply first_match_Some in E as [Hin E].
      rewrite (Hall rl Hin) in E. discriminate. }
    destruct (decide (c = CR)) as [->|Hcr].
    { left. split; [done|]. intros Hn.
      apply (exec_at_matches newline s p); [|exact (Hall _ Hnl)].
      unfold newline. cbn [matches]. rewrite Hc. cbn. by rewrite Hn. }
    destruct (decide (c = BACKSLASH)) as [->|Hbs].
    { right. split; [done|]. intros d Hd.
      destruct (is_line_terminator d) eqn:Ht; [done|]. exfalso. apply Hno.
      apply (inString_progress s p BACKSLASH Hc); [done|]. eauto. }
    exfalso. destruct (is_line_terminator c) eqn:Ht.
    + destruct (decide (c = NEWLINE)) as [->|Hlf].
      { apply (exec_at_matches newline s p); [|exact (Hall _ Hnl)].
        unfold newline. cbn [matches]. rewrite Hc. cbn.
        rewrite Nat.add_0_r, Hc. done. }
      apply (exec_at_matches str_inside s p); [|exact (Hall _ Hsi)].
      unfold str_inside. apply plus_matches. cbn [matches]. rewrite Hc.
      unfold is_line_terminator in Ht. unfold CR, NEWLINE, BACKSLASH in *.
      repeat (apply orb_prop in Ht as [Ht|Ht]);
        apply N.eqb_eq in Ht; subst c; done.
    + apply Hno. apply (inString_progress s p c Hc Ht). by intros ->.
  - intros Hc rl Hin. unfold Grammar.inString in Hin. simpl in Hin.
    destruct Hc as [Hc|[[Hc Hn]|[Hc Hd]]].
    + apply exec_at_end; [|done].
      repeat (destruct Hin as [<-|Hin]; [reflexivity|]). destruct Hin.
    + destruct Hin as [<-|[<-|[<-|[<-|[]]]]];
        try (apply (exec_at_starts _ _ _ CR Hc); reflexivity).
      unfold exec_at. cbn [pattern matches]. rewrite Hc. cbn.
      rewrite Nat.add_0_r, Hc.
      destruct (s !! (p + 1)) as [d|]; [|done].
      destruct (N.eqb_spec d NEWLINE) as [->|]; done.
    + destruct Hin as [<-|[<-|[<-|[<-|[]]]]];
        try (apply (exec_at_starts _ _ _ BACKSLASH Hc); reflexivity).
      unfold exec_at. cbn [pattern matches]. rewrite Hc. cbn.
      destruct (s !! (p + 1)) as [d|] eqn:Ed; [|done].
      by rewrite (Hd d eq_refl).
Qed.

(** *** A double quote at the cursor *)

Lemma matches_Seq r1 r2 (s : str) p :
  matches (Seq r1 r2) s p
  = flat_map (fun n => List.map (Nat.add n) (matches r2 s (p + n))) (matches r1 s p).
Proof. reflexivity. Qed.

Lemma matches_Star r (s : str) p :
  matches (Star r) s p = star_loop (matches r s) (length s - p) p.
Proof. reflexivity. Qed.

(** A star whose pattern cannot start with the character at the cursor
    matches the empty text only. *)
Lemma matches_Star_none r (s : str) p c :
  s !! p = Some c -> starts r c = false -> nullable r = false ->
  matches (Star r) s p = [0].
Proof.
  intros Hc Hs Hn. rewrite matches_Star. apply star_loop_none.
  by apply (matches_none_starts r s p c).
Qed.

Lemma toplevel_quote (s : str) p :
  s !! p = Some DQUOTE ->
  exists rl, first_match Grammar.toplevel s p = Some (rl, 1) /\
             classifier rl [DQUOTE] = "open".
Proof.
  intros Hc. eexists. split.
  - unfold Grammar.toplevel. cbn [first_match pattern].
    rewrite (exec_at_starts _ s p DQUOTE Hc) by reflexivity.
    rewrite (exec_at_starts _ s p DQUOTE Hc) by reflexivity.
    rewrite (exec_at_starts _ s p DQUOTE Hc) by reflexivity.
    unfold exec_at. cbn [seqs]. unfold reader_prefix.
    rewrite matches_Seq, (matches_Star_none _ s p DQUOTE Hc) by reflexivity.
    cbn [flat_map app List.map]. rewrite Nat.add_0_r.
    rewrite matches_Seq, (matches_Star_none _ s p DQUOTE Hc) by reflexivity.
    cbn [flat_map app List.map]. rewrite Nat.add_0_r.
    rewrite matches_Seq, (matches_Star_none _ s p DQUOTE Hc) by reflexivity.
    cbn [flat_map app List.map]. rewrite Nat.add_0_r.
    cbn [matches]. rewrite Hc. reflexivity.
  - reflexivity.
Qed.

Lemma inString_quote (s : str) p :
  s !! p = Some DQUOTE ->
  exists rl, first_match Grammar.inString s p = Some (rl, 1) /\
             classifier rl [DQUOTE] = "close".
Proof.
  intros Hc. eexists. split.
  - unfold Grammar.inString. cbn [first_match pattern]. unfold exec_at.
    cbn [matches]. rewrite Hc. reflexivity.
  - reflexivity.
Qed.

Lemma substring_one (s : str) p c : s !! p = Some c -> substring s p 1 = [c].
Proof.
  intros Hc. unfold substring. by rewrite (drop_S _ _ _ Hc).
Qed.

(** X11. A double quote at the cursor is a token of its own in either
    mode, whatever stands before and after it: an opening token outside a
    string, a closing one inside.  processLine then goes on in the other
    mode, on a new state object that carries the pending reader token
    over, and with the other grammar from the position after the quote. *)
Theorem quote_toggles ml line st (l : Lexer) h s :
  lex_ok line l -> states h !! st = Some s ->
  rules l = (if inString s then Grammar.inString else Grammar.toplevel) ->
  line !! position l = Some DQUOTE -> position l < maxLength l ->
  exists tk l1,
    scan l = (Some tk, l1) /\
    tk = {| type := if inString s then "close" else "open";
            raw := [DQUOTE]; offset := position l |} /\
    processToken ml line st l1 tk h
    = Ok (length (states h),
          set_position
            (lex (if inString s then Grammar.toplevel else Grammar.inString)
               line ml) (position l + 1),
          Some {| token := tk; state := length (states h) |},
          {| states := states h ++ [{| inString := negb (inString s);
                                       currentReaderToken := currentReaderToken s |}];
             tokens := tokens h |}).
Proof.
  intros (Hsrc & _ & _) Hs Hr Hc Hcap.
  assert (Hf : exists rl, first_match (rules l) (source l) (position l) = Some (rl, 1) /\
                          classifier rl [DQUOTE]
                          = if inString s then "close" else "open").
  { rewrite Hr, Hsrc. destruct (inString s);
      [by apply inString_quote|by apply toplevel_quote]. }
  destruct Hf as (rl & Hf & Hty).
  do 2 eexists. split; [|split; [reflexivity|]].
  - unfold scan. destruct (Nat.leb_spec (maxLength l) (position l)); [lia|].
    rewrite Hf, Hsrc, (substring_one _ _ _ Hc), Hty. reflexivity.
  - unfold processToken. cbn [raw type position].
    replace (test string_delimiter [DQUOTE]) with true by (vm_compute; reflexivity).
    unfold get_state. rewrite Hs. destruct (inString s); reflexivity.
Qed.

Lemma quote_toggles_witness :
  exists tk l1,
    scan (set_position (lex Grammar.toplevel line_println_hello 15) 9)
    = (Some tk, l1) /\
    tk = {| type := "open"; raw := [DQUOTE]; offset := 9 |}.
Proof.
  destruct (quote_toggles 15 line_println_hello 0
              (set_position (lex Grammar.toplevel line_println_hello 15) 9)
              {| states := [{| inString := false; currentReaderToken := None |}];
                 tokens := [] |}
              {| inString := false; currentReaderToken := None |})
    as (tk & l1 & E & Htk & _).
  - split; [reflexivity|]. split; [by left|]. vm_compute. lia.
  - reflexivity.
  - reflexivity.
  - vm_compute. reflexivity.
  - vm_compute. lia.
  - exists tk, l1. split; [exact E|exact Htk].
Defined.

(** ** What processLine writes to the heap *)

Lemma processToken_flags ml line st l tk h st' l' pushed h' :
  processToken ml line st l tk h = Ok (st', l', pushed, h') ->
  length (states h) <= length (states h') /\
  forall x s, states h !! x = Some s ->
              exists s', states h' !! x = Some s' /\ inString s' = inString s.
Proof.
  intros E.
  assert (Hins : forall s1 c,
            states h !! st = Some s1 ->
            forall x s, states h !! x = Some s ->
              exists s', <[st := {| inString := inString s1;
                                    currentReaderToken := c |}]> (states h) !! x
                         = Some s' /\ inString s' = inString s).
  { intros s1 c Hs1 x s Hx. destruct (decide (x = st)) as [->|Hne].
    - rewrite list_lookup_insert_eq by (by apply lookup_lt_Some in Hs1).
      eexists. split; [reflexivity|]. simpl.
      assert (Some s = Some s1) as [= ->] by (rewrite <- Hx; exact Hs1). done.
    - rewrite list_lookup_insert_ne by done. eauto. }
  unfold processToken, get_state, set_state, set_token, get_token, get_state,
    new_state, new_token in E.
  repeat (case_step; simpl in *; simplify_eq);
    (split; [simpl; rewrite ?length_app, ?length_insert; lia|]);
    eauto using lookup_app_l_Some.
Qed.

Lemma scanLoop_flags ml line : forall fuel st l tks h tks' st' h',
  scanLoop fuel ml line st l tks h = Ok (tks', st', h') ->
  length (states h) <= length (states h') /\
  forall x s, states h !! x = Some s ->
              exists s', states h' !! x = Some s' /\ inString s' = inString s.
Proof.
  induction fuel as [|fuel IH]; intros st l tks h tks' st' h'; [done|].
  simpl. destruct (scan l) as [[tk|] l1]; [|intros [= <- <- <-]; eauto].
  destruct (processToken ml line st l1 tk h) as [[[[st1 l2] pushed] h1]| |] eqn:Ep;
    [|done..].
  simpl. intros E. apply IH in E as [Hlen E].
  destruct (processToken_flags _ _ _ _ _ _ _ _ _ _ Ep) as [Hlen1 E1].
  split; [lia|]. intros x s Hx.
  destruct (E1 x s Hx) as (s1 & Hx1 & <-). eauto.
Qed.

(** X12. The string flag of a state object is never written: after a call
    of processLine every state object that was on the heap is still
    there, with the [inString] flag it had.  A change of the string mode
    goes to a new object; only the pending reader token of a state is
    written in place. *)
Theorem string_flag_never_written this line state h tks this' h' :
  processLine this line state h = Ok (tks, this', h') ->
  length (states h) <= length (states h') /\
  forall x s, states h !! x = Some s ->
              exists s', states h' !! x = Some s' /\ inString s' = inString s.
Proof.
  unfold processLine.
  destruct (get_state _ h) as [s0| |]; [|done..]. cbn -[scanLoop].
  destruct (scanLoop _ _ _ _ _ _ _) as [[[tks0 st0] h0]| |] eqn:E; [|done..].
  cbn. intros [= <- <- <-]. by apply scanLoop_flags in E.
Qed.

Lemma string_flag_never_written_witness :
  exists tks this' h',
    processLine (scanner 0 7) (lit "#inst " ++ [DQUOTE]) None
      {| states := [{| inString := false; currentReaderToken := None |}];
         tokens := [] |} = Ok (tks, this', h') /\
    exists s', states h' !! 0 = Some s' /\ inString s' = false.
Proof.
  do 3 eexists. split; [vm_compute; reflexivity|].
  refine (proj2 (string_flag_never_written (scanner 0 7)
                   (lit "#inst " ++ [DQUOTE]) None
                   {| states := [{| inString := false; currentReaderToken := None |}];
                      tokens := [] |} _ _ _ _)
            0 {| inString := false; currentReaderToken := None |} eq_refl).
  vm_compute. reflexivity.
Defined.

(** ** The state that a token carries *)

Lemma last_app_ne {A} (a b : list A) : b <> [] -> last (a ++ b) = last b.
Proof.
  destruct b as [|x b _] using rev_ind; [done|]. intros _.
  by rewrite app_assoc, !last_snoc.
Qed.

Lemma last_merged {A} (a b : list A) c : b <> [] -> last (a ++ c :: b) = last b.
Proof.
  intros Hb. rewrite (cons_middle c a b), app_assoc. by apply last_app_ne.
Qed.

Lemma scan_types_inString line l tk l' :
  lex_ok line l -> rules l = Grammar.inString -> scan l = (Some tk, l') ->
  (type tk = "close" /\ raw tk = [DQUOTE]) \/ type tk = "str-inside" \/
  type tk = "ws".
Proof.
  intros Hl Hr Es.
  destruct (scan_first_match _ _ _ _ Hl Es) as (rl & n & Ef & Hty & Hraw).
  rewrite Hr in Ef. apply first_match_Some in Ef as [Hin Ee].
  unfold Grammar.inString in Hin. simpl in Hin.
  destruct Hin as [<-|[<-|[<-|[<-|[]]]]]; simpl in Hty; auto.
  left. split; [done|]. rewrite Hraw. unfold exec_at in Ee. cbn [pattern matches] in Ee.
  destruct (line !! position l) as [d|] eqn:Hd; [|done].
  destruct (N.eqb_spec d DQUOTE) as [->|]; [|done]. injection Ee as <-.
  by apply substring_one.
Qed.

Lemma scan_types_toplevel line l tk l' :
  lex_ok line l -> rules l = Grammar.toplevel -> scan l = (Some tk, l') ->
  In (type tk) ["ws"; "comment"; "open"; "close"; "ignore"; "lit"; "kw";
                "reader"; "id"; "junk"] /\
  (type tk = "close" -> test string_delimiter (raw tk) = false).
Proof.
  intros Hl Hr Es.
  destruct (scan_first_match _ _ _ _ Hl Es) as (rl & n & Ef & Hty & Hraw).
  rewrite Hr in Ef. apply first_match_Some in Ef as [Hin Ee].
  pose proof (matches_progress _ _ (toplevel_not_nullable _ Hin) _ _
                (exec_at_In _ _ _ _ Ee)) as Hn.
  pose proof (matches_bound _ _ _ _ (exec_at_In _ _ _ _ Ee)) as Hb.
  split.
  - rewrite Hty. unfold Grammar.toplevel in Hin. simpl in Hin.
    repeat (destruct Hin as [<-|Hin]; [simpl; tauto|]). destruct Hin.
  - intros Hc. rewrite Hty in Hc.
    destruct (test string_delimiter (raw tk)) eqn:Et; [|done].
    apply test_string_delimiter in Et.
    rewrite Hraw, substring_last in Et by lia.
    unfold Grammar.toplevel in Hin. simpl in Hin.
    repeat (destruct Hin as [<-|Hin]; [try discriminate Hc|]); [|destruct Hin].
    pose proof (exec_at_ends _ _ _ _ _ Ee eq_refl Et) as X.
    vm_compute in X. discriminate.
Qed.

(** The state object [st] is on the heap, and the lexer runs the grammar
    of its string flag. *)
Lemma processToken_mode ml line st l tk l1 h st' l2 pushed h' s :
  lex_ok line l -> states h !! st = Some s ->
  rules l = (if inString s then Grammar.inString else Grammar.toplevel) ->
  scan l = (Some tk, l1) ->
  processToken ml line st l1 tk h = Ok (st', l2, pushed, h') ->
  (exists s', states h' !! st' = Some s' /\
     rules l2 = (if inString s' then Grammar.inString else Grammar.toplevel)) /\
  forall t, pushed = Some t ->
    exists s', states h' !! state t = Some s' /\ token_mode (token t) (inString s').
Proof.
  intros Hl Hs Hr Es Ep.
  destruct (scan_Some _ _ _ _ Hl Es) as (n & Hn & Hb & Hraw & Hlen & _ & El1 & _).
  assert (Hr1 : rules l1 = rules l) by (by rewrite El1).
  assert (Hst : st < length (states h)) by (by apply lookup_lt_Some in Hs).
  assert (Hty : if inString s
                then (type tk = "close" /\ raw tk = [DQUOTE]) \/
                     type tk = "str-inside" \/ type tk = "ws"
                else In (type tk) ["ws"; "comment"; "open"; "close"; "ignore";
                                   "lit"; "kw"; "reader"; "id"; "junk"] /\
                     (type tk = "close" -> test string_delimiter (raw tk) = false)).
  { destruct (inString s); [by eapply scan_types_inString|by eapply scan_types_toplevel]. }
  assert (Hplain : forall R o,
            last R = last (raw tk) ->
            (test string_delimiter (raw tk) = true ->
             type tk <> "open" /\ type tk <> "close") ->
            token_mode {| type := type tk; raw := R; offset := o |} (inString s)).
  { intros R o HR Hd. unfold token_mode. cbn [type raw].
    assert (Hq : type tk = "open" -> last R <> Some DQUOTE).
    { intros Ho Hq. rewrite HR in Hq. apply string_delimiter_last in Hq.
      by destruct (Hd Hq). }
    destruct (inString s).
    - destruct Hty as [[Hc Hq']|[Hty|Hty]].
      + exfalso.
        assert (Ht : test string_delimiter (raw tk) = true)
          by (rewrite Hq'; vm_compute; reflexivity).
        by destruct (Hd Ht).
      + rewrite Hty. split; [done|].
        split; [simpl; intuition discriminate|discriminate].
      + rewrite Hty. split; [discriminate|].
        split; [simpl; intuition discriminate|discriminate].
    - destruct Hty as [Hty _]. split; [|split; [done|]].
      + intros Hsi. rewrite Hsi in Hty. simpl in Hty. intuition discriminate.
      + intros Ho. split; [discriminate|]. intros Hl'. by destruct (Hq Ho). }
  unfold processToken in Ep.
  destruct (test string_delimiter (raw tk)) eqn:Et.
  - destruct (String.eqb_spec (type tk) "open") as [Ho|Hno].
    { unfold get_state in Ep. rewrite Hs in Ep. simpl in Ep.
      injection Ep as <- <- <- <-. simpl. split.
      - eexists. split; [by apply list_lookup_middle|]. done.
      - intros t [= <-]. simpl. eexists. split; [by apply list_lookup_middle|].
        unfold token_mode. simpl. rewrite Ho. split; [discriminate|].
        split; [intuition discriminate|]. intros _. split; [|done]. intros _.
        by apply test_string_delimiter. }
    destruct (String.eqb_spec (type tk) "close") as [Hc|Hnc].
    { unfold get_state in Ep. rewrite Hs in Ep. simpl in Ep.
      injection Ep as <- <- <- <-. simpl. split.
      - eexists. split; [by apply list_lookup_middle|]. done.
      - intros t [= <-]. simpl. eexists. split; [by apply list_lookup_middle|].
        unfold token_mode. simpl. rewrite Hc. split; [discriminate|].
        split; [done|discriminate]. }
    injection Ep as <- <- <- <-. split; [exists s; by rewrite Hr1|].
    intros t [= <-]. exists s. split; [done|]. simpl.
    destruct tk as [ty R o]. by apply Hplain.
  - destruct (String.eqb_spec (type tk) "reader") as [Hrd|Hnrd].
    { unfold get_state, set_state, get_state, new_token in Ep.
      rewrite Hs in Ep. simpl in Ep. rewrite Hs in Ep. simpl in Ep.
      injection Ep as <- <- <- <-. simpl. split; [|discriminate].
      eexists. split; [by apply list_lookup_insert_eq|]. simpl. by rewrite Hr1. }
    unfold get_state in Ep. rewrite Hs in Ep. simpl in Ep.
    destruct (currentReaderToken s) as [r|] eqn:Er.
    + unfold get_token in Ep. destruct (tokens h !! r) as [p|] eqn:Hp; [|done].
      simpl in Ep.
      destruct ((type tk =? "ws")%string || (type tk =? "comment")%string).
      * unfold set_token, get_token in Ep. rewrite Hp in Ep. simpl in Ep.
        injection Ep as <- <- <- <-. simpl. split; [|discriminate].
        exists s. by rewrite Hr1.
      * unfold set_state, get_state in Ep. rewrite Hs in Ep. simpl in Ep.
        injection Ep as <- <- <- <-. simpl. split.
        { eexists. split; [by apply list_lookup_insert_eq|]. simpl. by rewrite Hr1. }
        intros t [= <-]. simpl. eexists.
        split; [by apply list_lookup_insert_eq|]. simpl.
        apply Hplain; [|done].
        apply last_merged. intros E0. apply (f_equal length) in E0.
        rewrite Hlen in E0. simpl in E0. lia.
    + injection Ep as <- <- <- <-. split; [exists s; by rewrite Hr1|].
      intros t [= <-]. exists s. split; [done|]. simpl.
      destruct tk as [ty R o]. by apply Hplain.
Qed.

Lemma scanLoop_mode ml line : forall fuel st l tks h tks' st' h' s,
  lex_ok line l -> states h !! st = Some s ->
  rules l = (if inString s then Grammar.inString else Grammar.toplevel) ->
  Forall (fun t => exists s', states h !! state t = Some s' /\
                              token_mode (token t) (inString s')) tks ->
  scanLoop fuel ml line st l tks h = Ok (tks', st', h') ->
  Forall (fun t => exists s', states h' !! state t = Some s' /\
                              token_mode (token t) (inString s')) tks' /\
  is_Some (states h' !! st').
Proof.
  induction fuel as [|fuel IH]; intros st l tks h tks' st' h' s Hl Hs Hr Ht;
    [done|].
  simpl. destruct (scan l) as [[tk|] l1] eqn:Es; [|intros [= <- <- <-]; eauto].
  destruct (scan_Some _ _ _ _ Hl Es) as (n & _ & _ & _ & _ & _ & _ & Hl1 & _).
  destruct (processToken ml line st l1 tk h) as [[[[st1 l2] pushed] h1]| |] eqn:Ep;
    [|done..].
  simpl. intros E.
  destruct (processToken_mode _ _ _ _ _ _ _ _ _ _ _ _ Hl Hs Hr Es Ep)
    as [(s1 & Hs1 & Hr1) Hp].
  destruct (processToken_flags _ _ _ _ _ _ _ _ _ _ Ep) as [_ Hfl].
  destruct (processToken_lex _ _ _ _ _ _ _ _ _ _ Ep Hl1) as [Hl2 _].
  apply (IH _ _ _ _ _ _ _ s1 Hl2 Hs1 Hr1) in E; [done|].
  apply Forall_app. split.
  - eapply Forall_impl; [exact Ht|]. intros t (s' & Hst & Hm). simpl.
    destruct (Hfl _ _ Hst) as (s'' & Hst' & Hi). exists s''. by rewrite Hi.
  - destruct pushed as [t|]; simpl; [|constructor].
    constructor; [by apply Hp|constructor].
Qed.

(** X13. The state that a token carries tells the mode after the token,
    and stays true to it: in the heap that processLine leaves, the state
    of a chunk of a string is inside a string; the state of a closing
    token, a comment, an ignore marker, a literal, a keyword, a symbol or
    a junk character is outside; and the state of an opening token is
    inside exactly when the token ends in a double quote, that is when it
    opens a string. *)
Theorem token_states this line (st : option ref) h tks this' h' :
  processLine this line st h = Ok (tks, this', h') ->
  forall t, In t tks ->
    exists s, states h' !! state t = Some s /\
              token_mode (token t) (inString s).
Proof.
  unfold processLine, get_state.
  destruct (states h !! default (this_state this) st) as [s0|] eqn:Hs0; [|done].
  cbn -[scanLoop].
  destruct (scanLoop _ _ _ _ _ _ _) as [[[tks0 st0] h0]| |] eqn:E; [|done..].
  cbn. intros [= <- <- <-].
  destruct (scanLoop_mode _ _ _ _ _ _ _ _ _ _ s0 (lex_ok_start line _ (inString s0))
              Hs0 eq_refl (Forall_nil_2 _) E) as [Hall [s1 Hs1]].
  intros t [Hin|[<-|[]]]%in_app_iff.
  - rewrite Forall_forall in Hall. apply Hall. by apply list_elem_of_In.
  - exists s1. split; [done|]. unfold token_mode. simpl.
    split; [discriminate|]. split; [intuition discriminate|discriminate].
Qed.

Lemma token_states_witness :
  exists tks this' h',
    processLine (scanner 0 15) line_println_hello None
      {| states := [{| inString := false; currentReaderToken := None |}];
         tokens := [] |} = Ok (tks, this', h') /\
    forall t, In t tks ->
      exists s, states h' !! state t = Some s /\
                token_mode (token t) (inString s).
Proof.
  do 3 eexists. split; [vm_compute; reflexivity|].
  apply (token_states (scanner 0 15) line_println_hello None
           {| states := [{| inString := false; currentReaderToken := None |}];
              tokens := [] |} _ (scanner 1 15)).
  vm_compute. reflexivity.
Defined.

(** ** The debugger's copy of validPair, and its positions *)

Lemma endsWith_last (s : str) c :
  Debugger.endsWith s [c] = bool_decide (last_char s = Some c).
Proof.
  unfold Debugger.endsWith, last_char.
  destruct s as [|x s' _] using rev_ind; [done|].
  rewrite last_snoc, length_app. simpl.
  destruct (Nat.ltb_spec (length s' + 1) 1); [lia|].
  unfold substring. replace (length s' + 1 - 1) with (length s') by lia.
  rewrite drop_app_length. simpl.
  apply bool_decide_ext. split; congruence.
Qed.

(** X14. The two copies of validPair agree: the one of the debugger's
    file, which asks whether the opening text ends with the bracket, and
    the one of the lexer, which looks at its last character, give the same
    answer for all texts, the empty ones included. *)
Theorem validPair_copies_agree (open close : str) :
  Debugger.validPair open close = validPair open close.
Proof.
  unfold Debugger.validPair, validPair.
  change (lit "(") with [40%N]. change (lit "[") with [91%N].
  change (lit "{") with [123%N].
  by rewrite !endsWith_last.
Qed.

(** X15. The conversion of a position of the debugger to a zero-based
    one, for the positions up to 2^53, on which the arithmetic of
    JavaScript's numbers is exact: a position that is not negative stays
    so and never grows, the order of positions is kept, and two positions
    fall together only when both are 0 or 1, zero being left as it is. *)
Theorem convertOneBasedToZeroBased_positions (n m : Z) :
  (0 <= n <= 9007199254740992)%Z -> (0 <= m <= 9007199254740992)%Z ->
  exists r q,
    Debugger.convertOneBasedToZeroBased n = Some r /\
    Debugger.convertOneBasedToZeroBased m = Some q /\
    (0 <= r <= n)%Z /\
    ((n <= m)%Z -> (r <= q)%Z) /\
    (r = q -> n = m \/ (n <= 1 /\ m <= 1)%Z).
Proof.
  unfold Debugger.convertOneBasedToZeroBased. intros Hn Hm.
  destruct (Z.ltb_spec (-9007199254740992) n); [|lia].
  destruct (Z.leb_spec n 9007199254740992); [|lia].
  destruct (Z.ltb_spec (-9007199254740992) m); [|lia].
  destruct (Z.leb_spec m 9007199254740992); [|lia].
  simpl. do 2 eexists. split; [reflexivity|]. split; [reflexivity|].
  destruct (Z.eqb_spec n 0), (Z.eqb_spec m 0); lia.
Qed.

Lemma convertOneBasedToZeroBased_positions_witness :
  exists r q,
    Debugger.convertOneBasedToZeroBased 1 = Some r /\
    Debugger.convertOneBasedToZeroBased 0 = Some q /\ r = q.
Proof.
  destruct (convertOneBasedToZeroBased_positions 1 0) as (r & q & Hr & Hq & _);
    [lia..|].
  exists r, q. split; [exact Hr|]. split; [exact Hq|].
  vm_compute in Hr, Hq. congruence.
Defined.

(** ** The grammars of the debugger's copy of the lexer *)

Lemma debugger_toplevel_not_nullable rl :
  In rl Debugger.toplevel -> nullable (pattern rl) = false.
Proof.
  unfold Debugger.toplevel. simpl. intros H.
  repeat (destruct H as [<-|H]; [reflexivity|]). destruct H.
Qed.

Lemma debugger_multstring_not_nullable rl :
  In rl Debugger.multstring -> nullable (pattern rl) = false.
Proof.
  unfold Debugger.multstring. simpl. intros H.
  repeat (destruct H as [<-|H]; [reflexivity|]). destruct H.
Qed.



(** X17. Where the toplevel grammar of the debugger's copy has no rule:
    at the end of the text, at U+2028 and U+2029, and at a carriage
    return that no line feed follows, its rule of the newlines being
    /(\r?\n)/; at every other code unit some rule matches. *)
Theorem debugger_toplevel_stuck (s : str) p :
  (forall rl, In rl Debugger.toplevel -> exec_at (pattern rl) s p = None) <->
  (s !! p = None \/ s !! p = Some LS \/ s !! p = Some PS \/
   (s !! p = Some CR /\ s !! (p + 1) <> Some NEWLINE)).
Proof.
  set (newline := Seq (Opt (Chr CR)) (Chr NEWLINE)).
  assert (Hnl : In {| pattern := newline; classifier := fun _ => "ws" |}
                  Debugger.toplevel) by (unfold Debugger.toplevel; in_table).
  assert (Hjunk : In {| pattern := Dot; classifier := fun _ => "junk" |}
                    Debugger.toplevel) by (unfold Debugger.toplevel; in_table).
  split.
  - intros Hall. destruct (s !! p) as [c|] eqn:Hc; [|by left]. right.
    destruct (decide (c = LS)) as [->|Hls]; [by left|].
    destruct (decide (c = PS)) as [->|Hps]; [by right; left|]. right. right.
    destruct (is_line_terminator c) eqn:Ht.
    + assert (c = CR \/ c = NEWLINE) as [-> | ->].
      { unfold is_line_terminator in Ht. unfold CR, NEWLINE, LS, PS in *.
        repeat (apply orb_prop in Ht as [Ht|Ht]);
          apply N.eqb_eq in Ht; auto; congruence. }
      * split; [done|]. intros Hn.
        apply (exec_at_matches newline s p); [|exact (Hall _ Hnl)].
        unfold newline. cbn [matches]. rewrite Hc. cbn. by rewrite Hn.
      * exfalso. apply (exec_at_matches newline s p); [|exact (Hall _ Hnl)].
        unfold newline. cbn [matches]. rewrite Hc. cbn.
        rewrite Nat.add_0_r, Hc. done.
    + exfalso. apply (exec_at_matches Dot s p); [|exact (Hall _ Hjunk)].
      cbn [matches]. by rewrite Hc, Ht.
  - intros Hc rl Hin.
    destruct Hc as [Hc|Hc].
    { by apply exec_at_end; [apply debugger_toplevel_not_nullable|]. }
    assert (Hcases : (exists c, s !! p = Some c /\ (c = LS \/ c = PS)) \/
                     (s !! p = Some CR /\ s !! (p + 1) <> Some NEWLINE)).
    { destruct Hc as [Hc|[Hc|Hc]]; eauto. }
    clear Hc. destruct Hcases as [(c & Hc & Hcc)|[Hc Hn]].
    + apply (exec_at_starts _ _ _ c Hc);
        [|by apply debugger_toplevel_not_nullable].
      unfold Debugger.toplevel in Hin. simpl in Hin.
      repeat (destruct Hin as [<-|Hin];
              [destruct Hcc as [-> | ->]; vm_compute; reflexivity|]).
      destruct Hin.
    + unfold Debugger.toplevel in Hin. simpl in Hin.
      destruct Hin as [<-|[<-|Hin]].
      * apply (exec_at_starts _ _ _ CR Hc); reflexivity.
      * unfold exec_at. cbn [pattern matches]. rewrite Hc. cbn.
        rewrite Nat.add_0_r, Hc.
        destruct (s !! (p + 1)) as [d|]; [|done].
        destruct (N.eqb_spec d NEWLINE) as [->|]; done.
      * apply (exec_at_starts _ _ _ CR Hc);
          repeat (destruct Hin as [<-|Hin]; [reflexivity|]); destruct Hin.
Qed.

(** X18. Where the multi-line string grammar of the debugger's copy has
    no rule: at the end of the text, and at a backslash that ends the
    text or stands before a line terminator; at every other code unit the
    string ends or goes on. *)
Theorem multstring_stuck (s : str) p :
  (forall rl, In rl Debugger.multstring -> exec_at (pattern rl) s p = None) <->
  (s !! p = None \/
   (s !! p = Some BACKSLASH /\
    forall d, s !! (p + 1) = Some d -> is_line_terminator d = true)).
Proof.
  set (unit := Alt (Cls true [One DQUOTE; One BACKSLASH]) (Seq (Chr BACKSLASH) Dot)).
  assert (Hend : In {| pattern := Seq (Star unit) (Chr DQUOTE);
                       classifier := fun _ => "str-end" |} Debugger.multstring)
    by (unfold Debugger.multstring; in_table).
  assert (Hins : In {| pattern := Plus unit; classifier := fun _ => "str-inside" |}
                   Debugger.multstring)
    by (unfold Debugger.multstring; in_table).
  split.
  - intros Hall. destruct (s !! p) as [c|] eqn:Hc; [|by left]. right.
    destruct (decide (c = DQUOTE)) as [->|Hq].
    { exfalso. apply (exec_at_matches (Seq (Star unit) (Chr DQUOTE)) s p);
        [|exact (Hall _ Hend)].
      rewrite matches_Seq, (matches_Star_none unit s p DQUOTE Hc) by reflexivity.
      cbn [flat_map matches]. rewrite Nat.add_0_r, Hc. done. }
    destruct (decide (c = BACKSLASH)) as [->|Hb].
    + split; [done|]. intros d Hd.
      destruct (is_line_terminator d) eqn:Ht; [done|]. exfalso.
      apply (exec_at_matches (Plus unit) s p); [|exact (Hall _ Hins)].
      apply plus_matches. unfold unit. cbn [matches]. rewrite Hc. cbn.
      by rewrite Hd, Ht.
    + exfalso. apply (exec_at_matches (Plus unit) s p); [|exact (Hall _ Hins)].
      apply plus_matches. unfold unit. cbn [matches]. rewrite Hc.
      cbn [existsb item_has xorb orb].
      destruct (N.eqb_spec c DQUOTE); [done|].
      destruct (N.eqb_spec c BACKSLASH); [done|]. done.
  - intros Hc rl Hin.
    destruct Hc as [Hc|[Hc Hd]].
    { by apply exec_at_end; [apply debugger_multstring_not_nullable|]. }
    assert (Hu : matches unit s p = []).
    { unfold unit. cbn [matches]. rewrite Hc. cbn.
      destruct (s !! (p + 1)) as [d|] eqn:Ed; [|done]. by rewrite (Hd d eq_refl). }
    unfold Debugger.multstring in Hin. simpl in Hin.
    destruct Hin as [<-|[<-|[]]]; unfold exec_at; cbn [pattern]; fold unit.
    + rewrite matches_Seq, matches_Star, (star_loop_none _ _ _ Hu).
      cbn [flat_map matches]. rewrite Nat.add_0_r, Hc. done.
    + change (matches (Plus unit) s p)
        with (flat_map (fun n => List.map (Nat.add n)
                                   (star_loop (matches unit s) (length s - (p + n)) (p + n)))
                (matches unit s p)).
      by rewrite Hu.
Qed.

(** ** The REPL connect sequences *)

Import ConnectSequence.

Lemma customLoop_spec (sequences rest : list ReplConnectSequence.t) :
  (forallb well_formed rest = true -> customLoop sequences rest = (sequences, [])) /\
  (forallb well_formed rest = false ->
   exists message, customLoop sequences rest = ([], [showWarningMessage message])).
Proof.
  induction rest as [|s rest [IH1 IH2]]; simpl; [by split|].
  unfold well_formed at 1 3.
  destruct (ReplConnectSequence.name s), (ReplConnectSequence.projectType s);
    simpl; split; eauto; done.
Qed.

(** X19. The sequences of the settings are used all or not at all: when
    each of them has a name and a project type they are returned as they
    are, in their order and with no warning; when one of them lacks
    either, none is returned, the good ones before and after it
    included, and one warning is shown. *)
Theorem custom_sequences_all_or_nothing (config : Config) :
  (forallb well_formed (replConnectSequences config) = true ->
   getCustomConnectSequences config = (replConnectSequences config, [])) /\
  (forallb well_formed (replConnectSequences config) = false ->
   exists message,
     getCustomConnectSequences config = ([], [showWarningMessage message])).
Proof. apply customLoop_spec. Qed.

Lemma custom_sequences_all_or_nothing_witness :
  exists message,
    getCustomConnectSequences
      {| replConnectSequences :=
           [ {| ReplConnectSequence.name := Some "dev"%string;
                ReplConnectSequence.projectType := Some "Leiningen"%string;
                ReplConnectSequence.afterCLJReplJackInCode := None;
                ReplConnectSequence.cljsType := None |};
             {| ReplConnectSequence.name := Some "broken"%string;
                ReplConnectSequence.projectType := None;
                ReplConnectSequence.afterCLJReplJackInCode := None;
                ReplConnectSequence.cljsType := None |} ];
         openBrowserWhenFigwheelStarted := None |}
    = ([], [showWarningMessage message]).
Proof.
  apply (proj2 (custom_sequences_all_or_nothing _)). reflexivity.
Defined.

Lemma custom_well_formed (config : Config) :
  Forall (fun s => well_formed s = true) (getCustomConnectSequences config).1.
Proof.
  unfold getCustomConnectSequences.
  destruct (customLoop_spec (replConnectSequences config) (replConnectSequences config))
    as [H1 H2].
  destruct (forallb well_formed (replConnectSequences config)) eqn:E.
  - rewrite (H1 eq_refl). simpl. apply Forall_forall. intros s Hs.
    rewrite forallb_forall in E. apply E. by apply list_elem_of_In.
  - destruct (H2 eq_refl) as [m ->]. constructor.
Qed.

(** The default sequences of the project types in their order, and what
    else [defaultSequences[pType]] gives. *)
Lemma fold_concat_value (projectTypes : list string) :
  forall result,
    fold_left (fun result pType =>
                 concat_value result (get defaultSequences pType))
      projectTypes result
    = result ++ flat_map (fun pType => concat_value [] (get defaultSequences pType))
                  projectTypes.
Proof.
  induction projectTypes as [|pt pts IH]; intros result; simpl.
  - by rewrite app_nil_r.
  - rewrite IH. unfold concat_value. destruct (get defaultSequences pt); simpl;
      by rewrite <- app_assoc.
Qed.

Lemma getConnectSequences_eq (config : Config) (projectTypes : list string) :
  (getConnectSequences config projectTypes).1
  = flat_map (fun pType => concat_value [] (get defaultSequences pType))
      projectTypes
    ++ List.map Sequence (getCustomConnectSequences config).1.
Proof.
  unfold getConnectSequences.
  destruct (getCustomConnectSequences config) as [cs effects]. simpl.
  by rewrite fold_concat_value.
Qed.

Lemma defaults_well_formed pType ds d :
  defaultSequences pType = Some ds -> In d ds -> well_formed d = true.
Proof.
  unfold defaultSequences. intros E Hin.
  repeat case_match; simplify_eq; simpl in Hin;
    repeat (destruct Hin as [<-|Hin]; [reflexivity|]); destruct Hin.
Qed.

Lemma get_Own {A} (own : string -> option A) key a :
  get own key = Own a <-> own key = Some a.
Proof.
  unfold get. destruct (own key); [|case_bool_decide]; split; congruence.
Qed.

Lemma get_Inherited {A} (own : string -> option A) key k :
  get own key = Inherited k <->
  own key = None /\ key ∈ Object_prototype /\ k = key.
Proof.
  unfold get. destruct (own key); [|case_bool_decide];
    split; try congruence; try (by intros (? & ? & ?)).
  - intros [= <-]. auto.
  - by intros (_ & _ & ->).
Qed.

(** The elements that the project types bring. *)
Lemma defaults_elements (projectTypes : list string) e :
  In e (flat_map (fun pType => concat_value [] (get defaultSequences pType))
          projectTypes) <->
  exists pType, In pType projectTypes /\
    match e with
    | Sequence d => exists ds, defaultSequences pType = Some ds /\ In d ds
    | Member key => key = pType /\ get defaultSequences pType = Inherited key
    | undefined => get defaultSequences pType = Undefined
    end.
Proof.
  rewrite in_flat_map. split; intros (pt & Hin & H); exists pt; (split; [done|]).
  - unfold concat_value in H.
    destruct (get defaultSequences pt) as [ds|k|] eqn:E; simpl in H.
    + apply in_map_iff in H as (d & <- & Hd). exists ds.
      by apply get_Own in E.
    + destruct H as [<-|[]]. by apply get_Inherited in E as (? & ? & ->).
    + by destruct H as [<-|[]].
  - unfold concat_value. destruct e as [d|k|].
    + destruct H as (ds & E & Hd). apply get_Own in E. rewrite E. simpl.
      by apply in_map.
    + destruct H as [-> ->]. by left.
    + rewrite H. by left.
Qed.

Lemma defaults_shape (projectTypes : list string) :
  Forall (fun pType => is_Some (defaultSequences pType)) projectTypes ->
  exists defaults,
    flat_map (fun pType => concat_value [] (get defaultSequences pType))
      projectTypes
    = List.map Sequence defaults /\
    Forall (fun s => well_formed s = true) defaults /\
    (forall pType ds d, In pType projectTypes -> defaultSequences pType = Some ds ->
                        In d ds -> In d defaults).
Proof.
  intros Hk.
  induction Hk as [|pt pts [ds Hds] _ (defaults & E & Hwf & Hin)].
  - exists []. split; [done|]. split; [constructor|]. intros ? ? ? [].
  - exists (ds ++ defaults). simpl.
    rewrite (proj2 (get_Own defaultSequences pt ds) Hds), E, List.map_app. simpl.
    split; [done|]. split.
    + apply Forall_app. split; [|done]. apply Forall_forall. intros d Hd.
      apply (defaults_well_formed pt ds); [done|]. by apply list_elem_of_In.
    + intros pt' ds' d [<-|Hpt] Hds' Hd; apply in_app_iff.
      * left. congruence.
      * right. eauto.
Qed.

(** X20. With project types that have default sequences, every sequence
    that getConnectSequences returns has a name and a project type,
    whatever the settings hold, and the default sequences of each project
    type asked for are among them, before the sequences of the user: the
    sequences of the user never come alone. *)
Theorem offered_sequences_well_formed (config : Config) (projectTypes : list string) :
  Forall (fun pType => is_Some (defaultSequences pType)) projectTypes ->
  Forall (fun x => exists s, x = Sequence s /\ well_formed s = true)
    (getConnectSequences config projectTypes).1 /\
  exists defaults,
    (getConnectSequences config projectTypes).1
    = List.map Sequence (defaults ++ (getCustomConnectSequences config).1) /\
    forall pType ds d, In pType projectTypes -> defaultSequences pType = Some ds ->
                       In d ds -> In d defaults.
Proof.
  intros Hk. rewrite getConnectSequences_eq.
  destruct (defaults_shape projectTypes Hk) as (defaults & -> & Hwf & Hin).
  split; [|exists defaults; by rewrite List.map_app].
  apply Forall_app.
  split; apply Forall_fmap; [|pose proof (custom_well_formed config) as Hwf'];
    (eapply Forall_impl; [eassumption|]); simpl; eauto.
Qed.

Lemma offered_sequences_well_formed_witness :
  Forall (fun x => exists s, x = Sequence s /\ well_formed s = true)
    (getConnectSequences
       {| replConnectSequences :=
            [ {| ReplConnectSequence.name := None;
                 ReplConnectSequence.projectType := Some "Leiningen"%string;
                 ReplConnectSequence.afterCLJReplJackInCode := None;
                 ReplConnectSequence.cljsType := None |} ];
          openBrowserWhenFigwheelStarted := None |}
       ["lein"; "shadow-cljs"]%string).1.
Proof.
  apply offered_sequences_well_formed.
  repeat constructor; vm_compute; eauto.
Defined.

(** *** Asking for a sequence *)

Lemma undefined_dec (sequences : list Element) :
  In undefined sequences \/ ~ In undefined sequences.
Proof.
  induction sequences as [|e rest [IH|IH]]; simpl; [tauto|tauto|].
  destruct e; [right|right|left; by left]; intros [|]; done.
Qed.

Lemma names_undefined (sequences : list Element) :
  In undefined sequences -> names sequences = Throw.
Proof.
  induction sequences as [|[s|k|] rest IH]; simpl; [done| | |done].
  - intros [|Hin]; [done|]. by rewrite IH.
  - intros [|Hin]; [done|]. by rewrite IH.
Qed.

Lemma names_defined (sequences : list Element) :
  ~ In undefined sequences -> exists ns, names sequences = Ok ns.
Proof.
  induction sequences as [|e rest IH]; simpl; [eauto|]. intros Hn.
  destruct IH as [ns ->]; [tauto|].
  destruct e; simpl; eauto. exfalso. auto.
Qed.

Lemma find_by_name_defined (sequences : list Element) name :
  ~ In undefined sequences ->
  exists r, find_by_name sequences name = Ok r /\
    forall e, r = Some e ->
      element_name e = Ok (Some name) /\
      exists before after,
        sequences = before ++ e :: after /\
        forall b, In b before -> element_name b <> Ok (Some name).
Proof.
  induction sequences as [|x rest IH]; simpl; intros Hn.
  - exists None. split; [done|]. discriminate.
  - destruct IH as (r & E & IH); [tauto|].
    destruct (element_name x) as [n| |] eqn:Ex;
      [|destruct x; [done..|exfalso; auto]|by destruct x].
    simpl. case_bool_decide as Hx.
    + exists (Some x). split; [done|]. intros e [= <-]. split; [by rewrite Ex, Hx|].
      exists [], rest. split; [done|]. intros b [].
    + exists r. split; [done|]. intros e He.
      destruct (IH e He) as (Hname & before & after & -> & Hb).
      split; [done|]. exists (x :: before), after. split; [done|].
      intros b [<-|Hin]; [|auto]. rewrite Ex. congruence.
Qed.

(** The call, once the project types are there: the names are read, the
    user is asked, and the first sequence of the name chosen is the
    answer. *)
Lemma ask_eq (config : Config)
  (quickPickSingle : list (option string) -> string -> option string)
  (projectRoot : string) (cljTypes : list string) (saveAs logLabel : string) :
  cljTypes <> [] ->
  (askForConnectSequence config quickPickSingle projectRoot cljTypes saveAs
     logLabel).1
  = match names (getConnectSequences config cljTypes).1 with
    | Ok values =>
        match quickPickSingle values (projectRoot ++ "/" ++ saveAs)%string with
        | None | Some ""%string => Ok None
        | Some name => find_by_name (getConnectSequences config cljTypes).1 name
        end
    | Throw => Throw
    | Diverge => Diverge
    end.
Proof.
  intros Hne. unfold askForConnectSequence.
  destruct cljTypes as [|pt0 pts] eqn:Ec; [done|].
  rewrite <- Ec in *. replace (length cljTypes =? 0) with false by (by rewrite Ec).
  destruct (getConnectSequences config cljTypes) as [sequences effects].
  simpl. destruct (names sequences) as [values| |]; [|done..].
  by destruct (quickPickSingle _ _) as [[|a n]|].
Qed.

Lemma undefined_among (config : Config) (cljTypes : list string) :
  In undefined (getConnectSequences config cljTypes).1 <->
  exists pType, In pType cljTypes /\ get defaultSequences pType = Undefined.
Proof.
  rewrite getConnectSequences_eq, in_app_iff, (defaults_elements cljTypes undefined).
  split; [|by left]. intros [H|H]; [done|].
  apply in_map_iff in H as (? & ? & _). discriminate.
Qed.

(** X21. askForConnectSequence throws exactly when for one of the
    project types given [defaultSequences[pType]] is [undefined], the
    type being neither a key of defaultSequences nor the name of a member
    inherited from Object.prototype: the [undefined] that
    getConnectSequences then puts among the sequences has no name to
    read.  The user is not asked in that case, and the settings and the
    choice of the user play no part in it. *)
Theorem ask_throws_iff (config : Config)
  (quickPickSingle : list (option string) -> string -> option string)
  (projectRoot : string) (cljTypes : list string) (saveAs logLabel : string) :
  (askForConnectSequence config quickPickSingle projectRoot cljTypes saveAs
     logLabel).1 = Throw
  <-> exists pType, In pType cljTypes /\ get defaultSequences pType = Undefined.
Proof.
  rewrite <- (undefined_among config).
  destruct cljTypes as [|pt0 pts] eqn:Ec.
  { simpl. split; [discriminate|]. rewrite getConnectSequences_eq. simpl.
    intros H. apply in_map_iff in H as (? & ? & _). discriminate. }
  rewrite <- Ec. rewrite ask_eq by (by rewrite Ec).
  destruct (undefined_dec (getConnectSequences config cljTypes).1)
    as [Hu|Hu].
  - rewrite (names_undefined _ Hu). done.
  - destruct (names_defined _ Hu) as [ns ->].
    split; [|done]. intros E. exfalso.
    destruct (quickPickSingle _ _) as [[|a n]|]; try discriminate.
    destruct (find_by_name_defined _ (String a n) Hu) as (r & Er & _).
    rewrite Er in E. discriminate.
Qed.

(** X22. What askForConnectSequence returns, when it returns a value: a
    sequence with a name and a project type, or, when one of the project
    types given is the name of a member inherited from Object.prototype,
    that member.  A default sequence wins over a sequence of the user of
    the same name: when a default sequence of one of the project types
    given has the name of the sequence returned, the sequence returned is
    itself a default sequence of one of them. *)
Theorem default_name_wins (config : Config)
  (quickPickSingle : list (option string) -> string -> option string)
  (projectRoot : string) (cljTypes : list string) (saveAs logLabel : string) e :
  (askForConnectSequence config quickPickSingle projectRoot cljTypes saveAs
     logLabel).1 = Ok (Some e) ->
  match e with
  | Sequence s =>
      well_formed s = true /\
      forall pType ds d,
        In pType cljTypes -> defaultSequences pType = Some ds -> In d ds ->
        ReplConnectSequence.name d = ReplConnectSequence.name s ->
        exists pType' ds',
          In pType' cljTypes /\ defaultSequences pType' = Some ds' /\ In s ds'
  | Member key =>
      In key cljTypes /\ defaultSequences key = None /\ key ∈ Object_prototype
  | undefined => False
  end.
Proof.
  intros E.
  destruct cljTypes as [|pt0 pts] eqn:Ec; [discriminate|]. rewrite <- Ec in *.
  rewrite ask_eq in E by (by rewrite Ec).
  destruct (undefined_dec (getConnectSequences config cljTypes).1)
    as [Hu|Hu]; [by rewrite (names_undefined _ Hu) in E|].
  destruct (names_defined _ Hu) as [ns Ens]. rewrite Ens in E.
  destruct (quickPickSingle _ _) as [[|a n]|]; try discriminate.
  destruct (find_by_name_defined _ (String a n) Hu) as (r & Er & Hr).
  rewrite Er in E. injection E as ->.
  destruct (Hr e eq_refl) as (Hname & before & after & Esplit & Hbefore).
  clear Hr Er Ens.
  pose proof (getConnectSequences_eq config cljTypes) as Heq.
  set (P := flat_map (fun pType => concat_value [] (get defaultSequences pType))
              cljTypes) in *.
  assert (Hin : In e (P ++ List.map Sequence (getCustomConnectSequences config).1)).
  { rewrite <- Heq, Esplit. apply in_app_iff. right. by left. }
  destruct e as [s|key|].
  - split.
    + apply in_app_iff in Hin as [Hin|Hin].
      * apply (defaults_elements cljTypes (Sequence s)) in Hin
          as (pt & _ & ds & Hds & Hs).
        by apply (defaults_well_formed pt ds).
      * apply in_map_iff in Hin as (s' & [= ->] & Hs).
        pose proof (custom_well_formed config) as Hwf.
        rewrite Forall_forall in Hwf. apply Hwf. by apply list_elem_of_In.
    + intros pType ds d Hpt Hds Hd Hdn.
      assert (HdP : In (Sequence d) P).
      { apply (defaults_elements cljTypes (Sequence d)). eauto. }
      apply list_elem_of_In, list_elem_of_lookup_1 in HdP as [i Hi].
      assert (Hlen : length before < length P).
      { apply lookup_lt_Some in Hi as Hlt.
        destruct (decide (i < length before)) as [Hib|Hib]; [|lia]. exfalso.
        assert (Hd' : (getConnectSequences config cljTypes).1 !! i
                      = Some (Sequence d))
          by (rewrite Heq; by apply lookup_app_l_Some).
        rewrite Esplit, lookup_app_l in Hd' by done.
        apply (Hbefore (Sequence d)).
        - apply list_elem_of_In. by eapply list_elem_of_lookup_2.
        - simpl in *. congruence. }
      assert (Hs : (getConnectSequences config cljTypes).1 !! length before
                   = Some (Sequence s)).
      { rewrite Esplit. by apply list_lookup_middle. }
      rewrite Heq, lookup_app_l in Hs by done.
      apply list_elem_of_lookup_2, list_elem_of_In in Hs.
      apply (defaults_elements cljTypes (Sequence s)) in Hs
        as (pt & Hpt' & ds' & Hds' & Hs).
      eauto.
  - apply in_app_iff in Hin as [Hin|Hin].
    + apply (defaults_elements cljTypes (Member key)) in Hin
        as (pt & Hpt & -> & Hg).
      apply get_Inherited in Hg as (? & ? & _). auto.
    + apply in_map_iff in Hin as (? & ? & _). discriminate.
  - apply Hu. rewrite Heq. done.
Qed.

Lemma default_name_wins_witness :
  well_formed
    {| ReplConnectSequence.name := Some "Leiningen"%string;
       ReplConnectSequence.projectType := Some ProjectTypes.Leiningen;
       ReplConnectSequence.afterCLJReplJackInCode := None;
       ReplConnectSequence.cljsType := None |} = true.
Proof.
  apply (default_name_wins
           {| replConnectSequences :=
                [ {| ReplConnectSequence.name := Some "Leiningen"%string;
                     ReplConnectSequence.projectType := Some "Leiningen"%string;
                     ReplConnectSequence.afterCLJReplJackInCode := Some "(start)"%string;
                     ReplConnectSequence.cljsType := None |} ];
              openBrowserWhenFigwheelStarted := None |}
           (fun _ _ => Some "Leiningen"%string) "/project"%string
           ["lein"%string] "connect-sequence"%string "ConnectInterrupted"%string
           (Sequence
              {| ReplConnectSequence.name := Some "Leiningen"%string;
                 ReplConnectSequence.projectType := Some ProjectTypes.Leiningen;
                 ReplConnectSequence.afterCLJReplJackInCode := None;
                 ReplConnectSequence.cljsType := None |})).
  vm_compute. reflexivity.
Defined.

(** *** The built-in ClojureScript types *)

Lemma getDefaultCljsType_inv (config : Config) (cljsType : string)
  (table : gmap string CljsTypeConfig.t) (v : option bool) c0 :
  defaultCljsTypes !! "lein-figwheel"%string = Some c0 ->
  table = <["lein-figwheel"%string := set_shouldOpenUrl v c0]> defaultCljsTypes ->
  getDefaultCljsType config cljsType table
  = Ok (get (fun key =>
               (<["lein-figwheel"%string :=
                    set_shouldOpenUrl (openBrowserWhenFigwheelStarted config) c0]>
                  defaultCljsTypes) !! key) cljsType,
        <["lein-figwheel"%string :=
            set_shouldOpenUrl (openBrowserWhenFigwheelStarted config) c0]>
          defaultCljsTypes).
Proof.
  intros Hc0 ->. unfold getDefaultCljsType.
  rewrite lookup_insert_eq, insert_insert_eq. reflexivity.
Qed.

Lemma calls_inv cs : forall table v c0,
  defaultCljsTypes !! "lein-figwheel"%string = Some c0 ->
  table = <["lein-figwheel"%string := set_shouldOpenUrl v c0]> defaultCljsTypes ->
  exists v', calls cs table
             = Ok (<["lein-figwheel"%string := set_shouldOpenUrl v' c0]>
                     defaultCljsTypes).
Proof.
  induction cs as [|[config k] cs IH]; intros table v c0 Hc0 Ht; simpl.
  - exists v. by rewrite Ht.
  - rewrite (getDefaultCljsType_inv config k table v c0 Hc0 Ht). simpl.
    by apply (IH _ (openBrowserWhenFigwheelStarted config) c0).
Qed.

(** X23. What getDefaultCljsType returns depends on the settings of the
    moment only, not on the calls made before, although each call writes
    to the table: for lein-figwheel it is the entry of the table with the
    setting openBrowserWhenFigwheelStarted as [shouldOpenUrl]; for every
    other key it is what [defaultCljsTypes[cljsType]] gives on the table
    as the source writes it, which the setting does not touch: the entry
    of the key, a member inherited from Object.prototype for a key such
    as toString, and [undefined] otherwise.  No call throws. *)
Theorem getDefaultCljsType_result (cs : list (Config * string))
  (config : Config) (cljsType : string) :
  exists table table',
    calls cs defaultCljsTypes = Ok table /\
    getDefaultCljsType config cljsType table
    = Ok (get (fun key =>
                 if (key =? "lein-figwheel")%string
                 then set_shouldOpenUrl (openBrowserWhenFigwheelStarted config)
                        <$> defaultCljsTypes !! key
                 else defaultCljsTypes !! key) cljsType,
          table').
Proof.
  destruct (defaultCljsTypes !! "lein-figwheel"%string) as [c0|] eqn:Hc0;
    [|by vm_compute in Hc0].
  assert (H0 : defaultCljsTypes
               = <["lein-figwheel"%string := set_shouldOpenUrl None c0]>
                   defaultCljsTypes).
  { symmetry. apply insert_id. rewrite Hc0. f_equal.
    vm_compute in Hc0. injection Hc0 as <-. reflexivity. }
  destruct (calls_inv cs defaultCljsTypes None c0 Hc0 H0) as [v' ->].
  do 2 eexists. split; [reflexivity|].
  rewrite (getDefaultCljsType_inv config cljsType _ v' c0 Hc0 eq_refl).
  f_equal. f_equal. unfold get.
  destruct (String.eqb_spec cljsType "lein-figwheel") as [->|Hne].
  - by rewrite lookup_insert_eq, Hc0.
  - by rewrite lookup_insert_ne.
Qed.
